(** * GoGoGadgetGravity: the physics core and its control handlers

    A shallow embedding of [physics/particles.go],
    [physics/particle_update.go], the engine declaration, the event
    handlers of package [main] and the circle rasteriser of
    [guis/qt/draw.go], followed by the properties the specification
    states about them and further properties of the code.

    Go [float64] values are kept behind the interface [Float64], which has
    two instances: [binary64], IEEE 754 double precision as Go computes it
    (built on the executable [spec_float] operations), and [ideal], the real
    numbers, used where the specification speaks "within floating-point
    epsilon".  Go pointers to [Particle] are addresses into an explicit
    heap. *)

From Stdlib Require Import ZArith Reals Lra Lia Bool.
From Stdlib Require Import Floats.SpecFloat.
From stdpp Require Import base option list gmap sets sorting.

(** ** Machine integers *)

Module Int64.
Local Open Scope Z_scope.

Definition min_int : Z := - 2 ^ 63.
Definition max_int : Z := 2 ^ 63 - 1.

(** Two's-complement wrap-around of Go's [int] on 64-bit targets. *)
Definition wrap (z : Z) : Z := (z + 2 ^ 63) mod 2 ^ 64 - 2 ^ 63.

Definition add (a b : Z) : Z := wrap (a + b).
Definition sub (a b : Z) : Z := wrap (a - b).

Definition in_range (z : Z) : bool := (min_int <=? z) && (z <=? max_int).

End Int64.

(** ** The float64 interface *)

(** What the engine needs from [float64], package [math] and the
    conversions between [int] and [float64]. *)
Class Float64 (F : Type) := {
  (** the constant [n/d] written in the source as a decimal literal *)
  f_lit : Z -> positive -> F;
  (** the constant expression [2*math.SqrtPi] *)
  f_twoSqrtPi : F;
  f_add : F -> F -> F;
  f_sub : F -> F -> F;
  f_mul : F -> F -> F;
  f_div : F -> F -> F;
  (** [x < y] *)
  f_ltb : F -> F -> bool;
  (** [float64(i)] *)
  f_of_int : Z -> F;
  (** [int(x)] *)
  f_int : F -> Z;
  math_Max : F -> F -> F;
  math_Min : F -> F -> F;
  math_Abs : F -> F;
  math_Signbit : F -> bool;
  math_Sqrt : F -> F;
  math_Pow : F -> F -> F;
  math_Round : F -> F
}.

Declare Scope f64_scope.
Delimit Scope f64_scope with f64.
Infix "⊕" := f_add (at level 50, left associativity) : f64_scope.
Infix "⊖" := f_sub (at level 50, left associativity) : f64_scope.
Infix "⊗" := f_mul (at level 40, left associativity) : f64_scope.
Infix "⊘" := f_div (at level 40, left associativity) : f64_scope.
Infix "≺" := f_ltb (at level 70, no associativity) : f64_scope.
Notation "x ≻ y" := (f_ltb y x) (at level 70, no associativity, only parsing) : f64_scope.

(** [uint8(x)] for the colour proxies: the truncated value, reduced to
    eight bits. *)
Definition f_uint8 {F} `{Float64 F} (x : F) : Z := (f_int x mod 256)%Z.

(** ** IEEE 754 binary64 *)

Module B64.
Local Open Scope Z_scope.

Definition prec : Z := 53.
Definition emax : Z := 1024.

Definition nan : spec_float := S754_nan.
Definition of_int (z : Z) : spec_float := binary_normalize prec emax z 0 false.
Definition add := SFadd prec emax.
Definition sub := SFsub prec emax.
Definition mul := SFmul prec emax.
Definition div := SFdiv prec emax.
Definition ltb := SFltb.
Definition eqb := SFeqb.
Definition sqrt := SFsqrt prec emax.

Definition lit (n : Z) (d : positive) : spec_float := div (of_int n) (of_int (Zpos d)).

(** [2*math.SqrtPi] is folded at compile time and rounded once:
    0x1.c5bf891b4ef6bp+1. *)
Definition twoSqrtPi : spec_float := S754_finite false 7982422502469483 (-51).

Definition is_nan (x : spec_float) : bool :=
  match x with S754_nan => true | _ => false end.

Definition is_inf (x : spec_float) (neg : bool) : bool :=
  match x with S754_infinity s => Bool.eqb s neg | _ => false end.

(** The sign bit.  [spec_float] has a single not-a-number, whose sign is
    taken to be clear. *)
Definition Signbit (x : spec_float) : bool :=
  match x with
  | S754_zero s | S754_infinity s | S754_finite s _ _ => s
  | S754_nan => false
  end.

Definition is_zero (x : spec_float) : bool :=
  match x with S754_zero _ => true | _ => false end.

(** [math.Max], special cases first as in the library. *)
Definition Max (x y : spec_float) : spec_float :=
  if is_inf x false || is_inf y false then S754_infinity false
  else if is_nan x || is_nan y then nan
  else if is_zero x && eqb x y then (if Signbit x then y else x)
  else if ltb y x then x else y.

(** [math.Min]. *)
Definition Min (x y : spec_float) : spec_float :=
  if is_inf x true || is_inf y true then S754_infinity true
  else if is_nan x || is_nan y then nan
  else if is_zero x && eqb x y then (if Signbit x then x else y)
  else if ltb x y then x else y.

Definition Abs := SFabs.

(** The integer part of a finite value, rounded toward zero. *)
Definition trunc (x : spec_float) : option Z :=
  match x with
  | S754_zero _ => Some 0
  | S754_finite s m e =>
      Some (cond_Zopp s (if 0 <=? e then Zpos m * 2 ^ e else Zpos m / 2 ^ (- e)))
  | _ => None
  end.

(** [int(x)]: truncation; a value that [int] cannot hold (also an
    infinity or a not-a-number) converts to the smallest integer, as the
    amd64 conversion instruction does. *)
Definition to_int (x : spec_float) : Z :=
  match trunc x with
  | Some z => if Int64.in_range z then z else Int64.min_int
  | None => Int64.min_int
  end.

(** [math.Round]: nearest integer, halves away from zero, sign kept. *)
Definition Round (x : spec_float) : spec_float :=
  match x with
  | S754_finite s m e =>
      if 0 <=? e then x
      else
        let d := 2 ^ (- e) in
        let q := Zpos m / d in
        let r := Zpos m mod d in
        let q' := if d <=? 2 * r then q + 1 else q in
        binary_normalize prec emax (cond_Zopp s q') 0 s
  | _ => x
  end.

Fixpoint pow_nat (x : spec_float) (n : nat) : spec_float :=
  match n with
  | O => of_int 1
  | S k => mul x (pow_nat x k)
  end.

(** [math.Pow] belongs to Go's library.  The engine calls it with the
    exponents 3 and 4 only; it is represented by repeated multiplication
    for whole non-negative exponents, and not-a-number elsewhere. *)
Definition Pow (x y : spec_float) : spec_float :=
  match trunc y with
  | Some n => if (0 <=? n) && eqb (of_int n) y then pow_nat x (Z.to_nat n) else nan
  | None => nan
  end.
(** Values other than not-a-number are ordered like their keys, taken
    lexicographically: the class (negative infinity, negative, zero,
    positive, positive infinity), then exponent and mantissa. *)
Definition key (x : spec_float) : Z * Z * Z :=
  match x with
  | S754_infinity true => (-2, 0, 0)
  | S754_finite true m e => (-1, - e, - Zpos m)
  | S754_zero _ => (0, 0, 0)
  | S754_nan => (0, 0, 0)
  | S754_finite false m e => (1, e, Zpos m)
  | S754_infinity false => (2, 0, 0)
  end.

Definition lex_lt (k1 k2 : Z * Z * Z) : Prop :=
  k1.1.1 < k2.1.1 \/
  (k1.1.1 = k2.1.1 /\ (k1.1.2 < k2.1.2 \/ (k1.1.2 = k2.1.2 /\ k1.2 < k2.2))).
End B64.

#[export] Instance binary64 : Float64 spec_float := {|
  f_lit := B64.lit;
  f_twoSqrtPi := B64.twoSqrtPi;
  f_add := B64.add;
  f_sub := B64.sub;
  f_mul := B64.mul;
  f_div := B64.div;
  f_ltb := B64.ltb;
  f_of_int := B64.of_int;
  f_int := B64.to_int;
  math_Max := B64.Max;
  math_Min := B64.Min;
  math_Abs := B64.Abs;
  math_Signbit := B64.Signbit;
  math_Sqrt := B64.sqrt;
  math_Pow := B64.Pow;
  math_Round := B64.Round
|}.

(** ** Exact real arithmetic *)

Module Ideal.
Local Open Scope R_scope.

Definition ltb (x y : R) : bool := if Rlt_dec x y then true else false.

Definition trunc (x : R) : Z :=
  if Rle_dec 0 x then Int_part x else (- Int_part (- x))%Z.

Definition to_int (x : R) : Z :=
  let z := trunc x in if Int64.in_range z then z else Int64.min_int.

Definition Round (x : R) : R :=
  IZR (if Rle_dec 0 x then Int_part (x + / 2) else (- Int_part (- x + / 2))%Z).

Definition Pow (x y : R) : R :=
  if Rlt_dec 0 x then Rpower x y
  else if Req_dec_T x 0 then (if Req_dec_T y 0 then 1 else 0)
  else powerRZ x (Int_part y).

End Ideal.

#[export] Instance ideal : Float64 R := {|
  f_lit := fun n d => (IZR n / IZR (Zpos d))%R;
  f_twoSqrtPi := (2 * sqrt PI)%R;
  f_add := Rplus;
  f_sub := Rminus;
  f_mul := Rmult;
  f_div := Rdiv;
  f_ltb := Ideal.ltb;
  f_of_int := IZR;
  f_int := Ideal.to_int;
  math_Max := Rmax;
  math_Min := Rmin;
  math_Abs := Rabs;
  math_Signbit := fun x => Ideal.ltb x 0;
  math_Sqrt := sqrt;
  math_Pow := Ideal.Pow;
  math_Round := Ideal.Round
|}.

(** ** Particles and the engine *)

(** A [*Particle] is an address into the heap of particle objects. *)
Definition addr := nat.

Section Physics.
Context {F : Type} `{Float64 F}.
Local Open Scope f64_scope.

(** Whole-number literals, and the zero value of a [float64]. *)
Definition f_num (n : Z) : F := f_lit n 1.
Definition fzero : F := f_num 0.

(** *** Two-component vectors (package go-vector, as the engine uses it) *)

Record Vector := vec { vx : F; vy : F }.

Definition vector_New2 : Vector := vec fzero fzero.
Definition vector_Add (a b : Vector) : Vector := vec (vx a ⊕ vx b) (vy a ⊕ vy b).
Definition vector_Subtract (a b : Vector) : Vector := vec (vx a ⊖ vx b) (vy a ⊖ vy b).
Definition vector_Scale (s : F) (a : Vector) : Vector := vec (vx a ⊗ s) (vy a ⊗ s).
(** [vector.Dot] fails only on vectors of different lengths, which the
    engine never builds; its error result is always [nil]. *)
Definition vector_Dot (a b : Vector) : F := fzero ⊕ vx a ⊗ vx b ⊕ vy a ⊗ vy b.
Definition vector_Magnitude (a : Vector) : F := math_Sqrt (fzero ⊕ vx a ⊗ vx a ⊕ vy a ⊗ vy a).

(** *** [Particle] ([particleData] is flattened into it; the colour
    proxies [R], [G], [A] are [Red], [Green], [Alpha]) *)

Record Particle := mkParticle {
  Mass : F;
  CloseCharge : F;
  FarCharge : F;
  Position : Vector;
  Velocity : Vector;
  trackHistory : bool;
  historySize : Z;
  positionHistory : list Vector;
  Radius : Z;
  Red : Z;
  Green : Z;
  Alpha : Z;
  merging : bool;
  MergingWith : gset addr;
  bouncing : bool;
  bouncingAgainst : option addr
}.

(** Field assignments. *)
Definition set_Mass v p := mkParticle v (CloseCharge p) (FarCharge p) (Position p) (Velocity p) (trackHistory p) (historySize p) (positionHistory p) (Radius p) (Red p) (Green p) (Alpha p) (merging p) (MergingWith p) (bouncing p) (bouncingAgainst p).
Definition set_CloseCharge v p := mkParticle (Mass p) v (FarCharge p) (Position p) (Velocity p) (trackHistory p) (historySize p) (positionHistory p) (Radius p) (Red p) (Green p) (Alpha p) (merging p) (MergingWith p) (bouncing p) (bouncingAgainst p).
Definition set_FarCharge v p := mkParticle (Mass p) (CloseCharge p) v (Position p) (Velocity p) (trackHistory p) (historySize p) (positionHistory p) (Radius p) (Red p) (Green p) (Alpha p) (merging p) (MergingWith p) (bouncing p) (bouncingAgainst p).
Definition set_Radius v p := mkParticle (Mass p) (CloseCharge p) (FarCharge p) (Position p) (Velocity p) (trackHistory p) (historySize p) (positionHistory p) v (Red p) (Green p) (Alpha p) (merging p) (MergingWith p) (bouncing p) (bouncingAgainst p).
Definition set_Red v p := mkParticle (Mass p) (CloseCharge p) (FarCharge p) (Position p) (Velocity p) (trackHistory p) (historySize p) (positionHistory p) (Radius p) v (Green p) (Alpha p) (merging p) (MergingWith p) (bouncing p) (bouncingAgainst p).
Definition set_Green v p := mkParticle (Mass p) (CloseCharge p) (FarCharge p) (Position p) (Velocity p) (trackHistory p) (historySize p) (positionHistory p) (Radius p) (Red p) v (Alpha p) (merging p) (MergingWith p) (bouncing p) (bouncingAgainst p).
Definition set_Alpha v p := mkParticle (Mass p) (CloseCharge p) (FarCharge p) (Position p) (Velocity p) (trackHistory p) (historySize p) (positionHistory p) (Radius p) (Red p) (Green p) v (merging p) (MergingWith p) (bouncing p) (bouncingAgainst p).
Definition set_merging v p := mkParticle (Mass p) (CloseCharge p) (FarCharge p) (Position p) (Velocity p) (trackHistory p) (historySize p) (positionHistory p) (Radius p) (Red p) (Green p) (Alpha p) v (MergingWith p) (bouncing p) (bouncingAgainst p).
Definition set_MergingWith v p := mkParticle (Mass p) (CloseCharge p) (FarCharge p) (Position p) (Velocity p) (trackHistory p) (historySize p) (positionHistory p) (Radius p) (Red p) (Green p) (Alpha p) (merging p) v (bouncing p) (bouncingAgainst p).
Definition set_bouncing v p := mkParticle (Mass p) (CloseCharge p) (FarCharge p) (Position p) (Velocity p) (trackHistory p) (historySize p) (positionHistory p) (Radius p) (Red p) (Green p) (Alpha p) (merging p) (MergingWith p) v (bouncingAgainst p).
Definition set_bouncingAgainst v p := mkParticle (Mass p) (CloseCharge p) (FarCharge p) (Position p) (Velocity p) (trackHistory p) (historySize p) (positionHistory p) (Radius p) (Red p) (Green p) (Alpha p) (merging p) (MergingWith p) (bouncing p) v.

(** The zero value of the struct. *)
Definition zeroParticle : Particle :=
  mkParticle fzero fzero fzero vector_New2 vector_New2 false 0 [] 0 0 0 0 false ∅ false None.

#[export] Instance Particle_inhabited : Inhabited Particle := populate zeroParticle.

(** [SetMass] sets the mass and updates the proxy [Radius]. *)
Definition SetMass (mass : F) (p : Particle) : Particle :=
  set_Radius
    (f_int (math_Max (math_Round (math_Sqrt mass ⊘ f_twoSqrtPi)) (f_num 1)))
    (set_Mass mass p).

Definition clampCloseCharge (closeCharge : F) : F :=
  math_Max (f_num (-1)) (math_Min closeCharge (f_num 1)).

(** [SetCloseCharge] clamps, stores, and updates the proxies red and
    green. *)
Definition SetCloseCharge (closeCharge : F) (p : Particle) : Particle :=
  let closeCharge := clampCloseCharge closeCharge in
  let p := set_CloseCharge closeCharge p in
  if closeCharge ≺ fzero
  then set_Green 0 (set_Red (f_uint8 (f_num 255 ⊗ math_Abs closeCharge)) p)
  else set_Green (f_uint8 (f_num 255 ⊗ math_Abs closeCharge)) (set_Red 0 p).

Definition clampFarCharge (farCharge : F) : F :=
  math_Max fzero (math_Min farCharge (f_num 1)).

(** [SetFarCharge] clamps, stores, and updates the proxy alpha
    (a [uint8] sum). *)
Definition SetFarCharge (farCharge : F) (p : Particle) : Particle :=
  let farCharge := clampFarCharge farCharge in
  set_Alpha ((f_uint8 (f_num 207 ⊗ math_Abs farCharge) + 48) mod 256)%Z
    (set_FarCharge farCharge p).

Definition SetPosition (position : Vector) (p : Particle) : Particle :=
  mkParticle (Mass p) (CloseCharge p) (FarCharge p) position (Velocity p) (trackHistory p) (historySize p) (positionHistory p) (Radius p) (Red p) (Green p) (Alpha p) (merging p) (MergingWith p) (bouncing p) (bouncingAgainst p).
Definition SetVelocity (velocity : Vector) (p : Particle) : Particle :=
  mkParticle (Mass p) (CloseCharge p) (FarCharge p) (Position p) velocity (trackHistory p) (historySize p) (positionHistory p) (Radius p) (Red p) (Green p) (Alpha p) (merging p) (MergingWith p) (bouncing p) (bouncingAgainst p).
Definition SetTrackHistory (b : bool) (p : Particle) : Particle :=
  mkParticle (Mass p) (CloseCharge p) (FarCharge p) (Position p) (Velocity p) b (historySize p) (positionHistory p) (Radius p) (Red p) (Green p) (Alpha p) (merging p) (MergingWith p) (bouncing p) (bouncingAgainst p).
(** [SetHistorySize] stores the size and nothing else. *)
Definition SetHistorySize (n : Z) (p : Particle) : Particle :=
  mkParticle (Mass p) (CloseCharge p) (FarCharge p) (Position p) (Velocity p) (trackHistory p) n (positionHistory p) (Radius p) (Red p) (Green p) (Alpha p) (merging p) (MergingWith p) (bouncing p) (bouncingAgainst p).
Definition SetPositionHistory (l : list Vector) (p : Particle) : Particle :=
  mkParticle (Mass p) (CloseCharge p) (FarCharge p) (Position p) (Velocity p) (trackHistory p) (historySize p) l (Radius p) (Red p) (Green p) (Alpha p) (merging p) (MergingWith p) (bouncing p) (bouncingAgainst p).

(** [initializeWithValues] computes the proxies through the setters and
    makes the empty history and [MergingWith]. *)
Definition initializeWithValues (mass closeCharge farCharge : F) (p : Particle) : Particle :=
  set_MergingWith ∅
    (SetPositionHistory []
       (SetFarCharge farCharge (SetCloseCharge closeCharge (SetMass mass p)))).

Definition initialize (p : Particle) : Particle :=
  initializeWithValues (Mass p) (CloseCharge p) (FarCharge p) p.

(** [NewParticle]: the object the factory builds (allocation is
    [alloc] below). *)
Definition NewParticle (mass closeCharge farCharge x y : F) : Particle :=
  initializeWithValues mass closeCharge farCharge
    (SetVelocity vector_New2 (SetPosition (vec x y) zeroParticle)).

(** [Clone]: a new particle from mass, charges and position, with the
    velocity copied afterwards. *)
Definition Clone (p : Particle) : Particle :=
  SetVelocity (Velocity p)
    (NewParticle (Mass p) (CloseCharge p) (FarCharge p) (vx (Position p)) (vy (Position p))).

(** [UpdatePosition] records the position when the history is tracked,
    dropping the oldest entry once the buffer is longer than
    [historySize], and adds the velocity to the position. *)
Definition UpdatePosition (p : Particle) : Particle :=
  let p :=
    if trackHistory p then
      let hist := positionHistory p ++ [Position p] in
      SetPositionHistory
        (if (historySize p <? Z.of_nat (length hist))%Z then drop 1 hist else hist) p
    else p in
  SetPosition (vector_Add (Position p) (Velocity p)) p.

(** *** [EngineData] *)

(** [heap] holds the particle objects that the pointers in [Particles],
    [initialParticles], [MergingWith] and [bouncingAgainst] refer to. *)
Record EngineData := mkEngineData {
  GravityStrength : F;
  CloseChargeStrength : F;
  FarChargeStrength : F;
  EnvironmentSize : Z;
  AllowMerge : bool;
  WallBounce : bool;
  bounceCompleteDistFactor : F;
  mergeMassRatioThreshold : F;
  mergeCloseChargeThreshold : F;
  Particles : list addr;
  initialParticles : list addr;
  heap : list Particle
}.

Definition set_GravityStrength v e := mkEngineData v (CloseChargeStrength e) (FarChargeStrength e) (EnvironmentSize e) (AllowMerge e) (WallBounce e) (bounceCompleteDistFactor e) (mergeMassRatioThreshold e) (mergeCloseChargeThreshold e) (Particles e) (initialParticles e) (heap e).
Definition set_CloseChargeStrength v e := mkEngineData (GravityStrength e) v (FarChargeStrength e) (EnvironmentSize e) (AllowMerge e) (WallBounce e) (bounceCompleteDistFactor e) (mergeMassRatioThreshold e) (mergeCloseChargeThreshold e) (Particles e) (initialParticles e) (heap e).
Definition set_FarChargeStrength v e := mkEngineData (GravityStrength e) (CloseChargeStrength e) v (EnvironmentSize e) (AllowMerge e) (WallBounce e) (bounceCompleteDistFactor e) (mergeMassRatioThreshold e) (mergeCloseChargeThreshold e) (Particles e) (initialParticles e) (heap e).
Definition set_AllowMerge v e := mkEngineData (GravityStrength e) (CloseChargeStrength e) (FarChargeStrength e) (EnvironmentSize e) v (WallBounce e) (bounceCompleteDistFactor e) (mergeMassRatioThreshold e) (mergeCloseChargeThreshold e) (Particles e) (initialParticles e) (heap e).
Definition set_WallBounce v e := mkEngineData (GravityStrength e) (CloseChargeStrength e) (FarChargeStrength e) (EnvironmentSize e) (AllowMerge e) v (bounceCompleteDistFactor e) (mergeMassRatioThreshold e) (mergeCloseChargeThreshold e) (Particles e) (initialParticles e) (heap e).
Definition set_Particles v e := mkEngineData (GravityStrength e) (CloseChargeStrength e) (FarChargeStrength e) (EnvironmentSize e) (AllowMerge e) (WallBounce e) (bounceCompleteDistFactor e) (mergeMassRatioThreshold e) (mergeCloseChargeThreshold e) v (initialParticles e) (heap e).
Definition set_initialParticles v e := mkEngineData (GravityStrength e) (CloseChargeStrength e) (FarChargeStrength e) (EnvironmentSize e) (AllowMerge e) (WallBounce e) (bounceCompleteDistFactor e) (mergeMassRatioThreshold e) (mergeCloseChargeThreshold e) (Particles e) v (heap e).
Definition set_heap v e := mkEngineData (GravityStrength e) (CloseChargeStrength e) (FarChargeStrength e) (EnvironmentSize e) (AllowMerge e) (WallBounce e) (bounceCompleteDistFactor e) (mergeMassRatioThreshold e) (mergeCloseChargeThreshold e) (Particles e) (initialParticles e) v.

(** [Initialize] sets the default values; it does not touch the
    particles. *)
Definition Initialize (e : EngineData) : EngineData :=
  mkEngineData (f_num 15) (f_num 150000000) (f_lit 75 10) 800 true true
    (f_lit 15 10) (f_lit 25 10) (f_lit 25 100)
    (Particles e) (initialParticles e) (heap e).

(** Reading through a pointer, and allocating a new object. *)
Definition deref (h : list Particle) (a : addr) : Particle := h !!! a.
Definition alloc (h : list Particle) (p : Particle) : list Particle * addr :=
  (h ++ [p], length h).
End Physics.

Arguments Vector F : clear implicits.
Arguments Particle F : clear implicits.
Arguments EngineData F : clear implicits.

(** ** What the engine takes from the Go runtime *)

(** [sort.Slice] (here by a comparison on the elements) and the order in
    which [range] visits the keys of a map, which Go leaves unspecified. *)
Record GoRuntime := mkGoRuntime {
  sort_Slice : forall A : Type, (A -> A -> bool) -> list A -> list A;
  map_range : gset addr -> list addr
}.

(** [less] is a strict weak ordering on the elements of [l], the only
    case in which [sort.Slice] promises a sorted result. *)
Definition strict_weak_on {A} (less : A -> A -> bool) (l : list A) : Prop :=
  (forall x, x ∈ l -> less x x = false) /\
  (forall x y z, x ∈ l -> y ∈ l -> z ∈ l ->
     less x y = true -> less y z = true -> less x z = true) /\
  (forall x y z, x ∈ l -> y ∈ l -> z ∈ l ->
     less x y = false -> less y z = false -> less x z = false).

(** The documented behaviour of [sort.Slice]: the slice is permuted, and
    afterwards no element is [less] than one before it.  The order of
    elements that compare equal is not part of it. *)
Definition sort_Slice_spec (rt : GoRuntime) : Prop :=
  forall (A : Type) (less : A -> A -> bool) (l : list A),
    sort_Slice rt A less l ≡ₚ l /\
    (strict_weak_on less l ->
     StronglySorted (fun x y => less y x = false) (sort_Slice rt A less l)).

(** [range] over a map visits every key once. *)
Definition map_range_spec (rt : GoRuntime) : Prop :=
  forall X : gset addr, map_range rt X ≡ₚ elements X.

(** ** The tick *)

Section Tick.
Context {F : Type} `{Float64 F}.
Variable rt : GoRuntime.
Local Open Scope f64_scope.

(** *** Force accumulation and new collisions *)

(** The mass ratio of a colliding pair; it stays at the zero value when
    merging is not allowed. *)
Definition massRatio (e : EngineData F) (P O : Particle F) : F :=
  if AllowMerge e then
    if Mass P ≻ Mass O then Mass P ⊘ Mass O else Mass O ⊘ Mass P
  else fzero.

(** "Merge if mergers are enabled and the mass difference is sufficient
    and the close charge doesn't repel enough to prevent it". *)
Definition mergeTest (e : EngineData F) (P O : Particle F) : bool :=
  AllowMerge e && (massRatio e P O ≻ mergeMassRatioThreshold e) &&
  (negb (Bool.eqb (math_Signbit (CloseCharge P)) (math_Signbit (CloseCharge O))) ||
   (math_Abs (CloseCharge P) ⊕ math_Abs (CloseCharge O) ≺ mergeCloseChargeThreshold e)).

(** The reflection normal of a bounce between two particles. *)
Definition bounceNormal (P O : Particle F) : Vector F :=
  if math_Abs (vx (Velocity P)) ⊕ math_Abs (vx (Velocity O)) ≻
     math_Abs (vy (Velocity P)) ⊕ math_Abs (vy (Velocity O))
  then vec (f_num 0) (f_num 1)
  else vec (f_num 1) (f_num 0).

(** [velocity - n*(2*(velocity.n))] *)
Definition reflect (velocity n : Vector F) : Vector F :=
  vector_Subtract velocity (vector_Scale (vector_Dot velocity n ⊗ f_num 2) n).

(** A new collision of [p] with [o]: merge or bounce. *)
Definition collide (e : EngineData F) (p o : addr) (h : list (Particle F)) : list (Particle F) :=
  let P := deref h p in
  let O := deref h o in
  if mergeTest e P O then
    let h := alter (fun q => set_MergingWith ({[o]} ∪ MergingWith q) (set_merging true q)) p h in
    if bool_decide (p ∈ MergingWith (deref h o)) then h
    else alter (fun q => set_MergingWith ({[p]} ∪ MergingWith q) (set_merging true q)) o h
  else
    let n := bounceNormal P O in
    alter (fun q => SetVelocity (reflect (Velocity q) n)
                      (set_bouncingAgainst (Some o) (set_bouncing true q))) p h.

(** The running sums of the inner loop of [updateParticleVelocities]. *)
Record Forces := mkForces {
  f_heap : list (Particle F);
  ct : Z;
  g : Vector F;
  c : Vector F;
  f : Vector F
}.

Definition isBouncingAgainst (P : Particle F) (o : addr) : bool :=
  bouncing P && bool_decide (bouncingAgainst P = Some o).

(** One pass of the inner loop: [p] against [o]. *)
Definition interact (e : EngineData F) (p o : addr) (st : Forces) : Forces :=
  let h := f_heap st in
  let P := deref h p in
  let O := deref h o in
  if bool_decide (o ∈ MergingWith P) || bool_decide (p = o) then st
  else
    let v := vector_Subtract (Position P) (Position O) in
    let mag := vector_Magnitude v in
    if isBouncingAgainst P o then
      if mag ≻ bounceCompleteDistFactor e ⊗ f_of_int (Int64.add (Radius P) (Radius O))
      then mkForces (alter (set_bouncing false) p h) (ct st) (g st) (c st) (f st)
      else st
    else if negb (isBouncingAgainst P o) &&
            (mag ≺ f_of_int (Int64.add (Radius P) (Radius O)))
    then mkForces (collide e p o h) (ct st) (g st) (c st) (f st)
    else
      let vg := vector_Scale
                  (GravityStrength e ⊗ Mass O ⊗ f_num (-1) ⊘ math_Pow mag (f_num 3)) v in
      let vc := vector_Scale
                  (CloseChargeStrength e ⊗ CloseCharge P ⊗ CloseCharge O ⊘
                   (Mass P ⊗ math_Pow mag (f_num 4))) v in
      let vf := vector_Scale
                  (FarChargeStrength e ⊗ FarCharge P ⊗ FarCharge O ⊗ f_num (-1) ⊘ Mass P) v in
      mkForces h (Int64.add (ct st) 1)
        (vector_Add (g st) vg) (vector_Add (c st) vc) (vector_Add (f st) vf).

(** The body of the outer loop for [p]: the averaged accelerations are
    added to the velocity.  Nothing guards the division by [ct]. *)
Definition accelerate (e : EngineData F) (h : list (Particle F)) (p : addr) : list (Particle F) :=
  let st := foldl (fun st o => interact e p o st)
                  (mkForces h 0 vector_New2 vector_New2 vector_New2) (Particles e) in
  let g := vector_Scale (f_num 1 ⊘ f_of_int (ct st)) (g st) in
  let c := vector_Scale (f_num 1 ⊘ f_of_int (ct st)) (c st) in
  let f := vector_Scale (f_num 1 ⊘ f_of_int (ct st)) (f st) in
  alter (fun q => SetVelocity
                    (vector_Add (vector_Add (vector_Add (Velocity q) g) c) f) q)
        p (f_heap st).

Definition updateParticleVelocities (e : EngineData F) : EngineData F :=
  set_heap (foldl (accelerate e) (heap e) (Particles e)) e.

Definition updateParticlePositions (e : EngineData F) : EngineData F :=
  set_heap (foldl (fun h p => alter UpdatePosition p h) (heap e) (Particles e)) e.

(** *** Sorting by mass *)

Definition heavier (h : list (Particle F)) (a b : addr) : bool :=
  Mass (deref h a) ≻ Mass (deref h b).

Definition sortParticles (e : EngineData F) : EngineData F :=
  set_Particles (sort_Slice rt addr (heavier (heap e)) (Particles e)) e.

(** *** Merge aggregation *)

(** The sums built while the partners of a root are visited. *)
Record Aggregate := mkAggregate {
  a_heap : list (Particle F);
  a_mass : F;
  a_closeCharge : F;
  a_farCharge : F;
  a_position : Vector F;
  a_velocity : Vector F
}.

(** The root [p] itself. *)
Definition aggregateRoot (h : list (Particle F)) (p : addr) : Aggregate :=
  let P := deref h p in
  mkAggregate h (Mass P) (CloseCharge P ⊗ Mass P) (FarCharge P ⊗ Mass P)
    (vector_Scale (Mass P) (Position P)) (Velocity P).

(** One partner [o] of the root [p]; the reverse edge is removed. *)
Definition aggregatePartner (p : addr) (ag : Aggregate) (o : addr) : Aggregate :=
  let h := a_heap ag in
  let O := deref h o in
  let P := deref h p in
  mkAggregate
    (alter (fun q => set_MergingWith (MergingWith q ∖ {[p]}) q) o h)
    (a_mass ag ⊕ Mass O)
    (a_closeCharge ag ⊕ CloseCharge O ⊗ Mass O)
    (a_farCharge ag ⊕ FarCharge O ⊗ Mass O)
    (vector_Add (a_position ag) (vector_Scale (Mass O) (Position O)))
    (vector_Add (a_velocity ag) (vector_Scale (Mass O ⊘ Mass P) (Velocity O))).

Definition aggregate (h : list (Particle F)) (p : addr) : Aggregate :=
  foldl (aggregatePartner p) (aggregateRoot h p) (map_range rt (MergingWith (deref h p))).

(** The merged particle: averaged charges and position, the summed
    velocity, and the history of the root [P]. *)
Definition mergedParticle (ag : Aggregate) (P : Particle F) : Particle F :=
  let position := vector_Scale (f_num 1 ⊘ a_mass ag) (a_position ag) in
  SetPositionHistory (positionHistory P)
    (SetHistorySize (historySize P)
       (SetTrackHistory (trackHistory P)
          (SetVelocity (a_velocity ag)
             (NewParticle (a_mass ag) (a_closeCharge ag ⊘ a_mass ag)
                (a_farCharge ag ⊘ a_mass ag) (vx position) (vy position))))).

Record Mergers := mkMergers {
  m_heap : list (Particle F);
  deleteList : list nat;
  addList : list addr;
  mergeOccurred : bool;
  mergeMultiple : bool;
  mergeSource : option addr;
  mergedResult : option addr
}.

(** The body of the merger loop at index [i], particle [p].  [count] is
    a [float64] in the source; it holds a map length, so its comparisons
    with 0 and 1 are those of the length. *)
Definition mergeVisit (i : nat) (p : addr) (st : Mergers) : Mergers :=
  let h := m_heap st in
  if merging (deref h p) then
    let count := size (MergingWith (deref h p)) in
    if bool_decide (0 < count)%nat then
      let ag := aggregate h p in
      let '(h', m) := alloc (a_heap ag) (mergedParticle ag (deref (a_heap ag) p)) in
      mkMergers h' (deleteList st ++ [i]) (addList st ++ [m])
        true (if bool_decide (1 < count)%nat then true else mergeMultiple st)
        (Some p) (Some m)
    else
      mkMergers (alter (set_merging false) p h) (deleteList st ++ [i]) (addList st)
        (mergeOccurred st) (mergeMultiple st) (mergeSource st) (mergedResult st)
  else st.

Fixpoint mergeLoop (ps : list addr) (i : nat) (st : Mergers) : Mergers :=
  match ps with
  | [] => st
  | p :: ps => mergeLoop ps (S i) (mergeVisit i p st)
  end.

(** "Move the last item to the ith position" and "remove the last
    item".  The indices come from ranging over the same slice, so they
    are in range. *)
Definition removeAt (l : list addr) (i : nat) : list addr :=
  match last l with
  | Some x => take (length l - 1) (<[i := x]> l)
  | None => l
  end.

Definition handleMergers (e : EngineData F) : EngineData F * Mergers :=
  let st := mergeLoop (Particles e) 0
              (mkMergers (heap e) [] [] false false None None) in
  let dl := sort_Slice rt nat (fun i j => bool_decide (j < i)%nat) (deleteList st) in
  let ps := foldl removeAt (Particles e) dl in
  (set_Particles (ps ++ addList st) (set_heap (m_heap st) e), st).

(** *** Wall bounce *)

Definition beyondWalls (e : EngineData F) (coord : F) (radius : Z) : bool :=
  (Int64.sub (f_int coord) radius <? 0)%Z ||
  (Int64.sub (EnvironmentSize e) 1 <? Int64.add (f_int coord) radius)%Z.

(** "Make sure the particle didn't go past the edge". *)
Definition intoWalls (e : EngineData F) (coord : F) (radius : Z) : F :=
  math_Max (f_of_int radius)
    (math_Min coord (f_of_int (EnvironmentSize e) ⊖ f_of_int radius ⊖ f_num 1)).

Definition wallBounce (e : EngineData F) (P : Particle F) : Particle F :=
  if beyondWalls e (vx (Position P)) (Radius P) then
    let n := vec (f_num 1) (f_num 0) in
    let P' := SetPosition (vec (intoWalls e (vx (Position P)) (Radius P)) (vy (Position P))) P in
    SetVelocity (reflect (Velocity P') n) P'
  else if beyondWalls e (vy (Position P)) (Radius P) then
    let n := vec (f_num 0) (f_num 1) in
    let P' := SetPosition (vec (vx (Position P)) (intoWalls e (vy (Position P)) (Radius P))) P in
    SetVelocity (reflect (Velocity P') n) P'
  else P.

Definition handleWalls (e : EngineData F) : EngineData F :=
  set_heap (foldl (fun h p => alter (wallBounce e) p h) (heap e) (Particles e)) e.

(** *** [UpdateParticles] *)

(** The engine after the tick, with the four results: whether a merge
    occurred, whether it involved more than two particles, the root and
    the merged particle. *)
Definition UpdateParticles (e : EngineData F)
  : EngineData F * (bool * bool * option addr * option addr) :=
  let e := updateParticleVelocities e in
  let e := updateParticlePositions e in
  let e := sortParticles e in
  let '(e, res) :=
    if AllowMerge e then
      let '(e, st) := handleMergers e in
      (e, (mergeOccurred st, mergeMultiple st, mergeSource st, mergedResult st))
    else (e, (false, false, None, None)) in
  let e := if WallBounce e then handleWalls e else e in
  (e, res).

(** *** The initial snapshot *)

(** Clones every particle of [src] into fresh objects. *)
Definition cloneAll (h : list (Particle F)) (src : list addr) : list (Particle F) * list addr :=
  foldl (fun '(h, out) p => let '(h', a) := alloc h (Clone (deref h p)) in (h', out ++ [a]))
        (h, []) src.

Definition SaveInitialParticleStates (e : EngineData F) : EngineData F :=
  let '(h, l) := cloneAll (heap e) (Particles e) in
  set_initialParticles l (set_heap h e).

Definition RestoreInitialParticleStates (e : EngineData F) : EngineData F :=
  let '(h, l) := cloneAll (heap e) (initialParticles e) in
  set_Particles l (set_heap h e).

Definition InitializeParticles (e : EngineData F) : EngineData F :=
  set_heap (foldl (fun h p => alter initialize p h) (heap e) (Particles e)) e.
End Tick.

(** ** Package main: the state and the event handlers *)

(** The calls into the GUI (drawing, status text) and the ticker are not
    part of the state and are left out.  A handler returns [None] where Go
    panics. *)
Section Main.
Context {F : Type} `{Float64 F}.
Variable rt : GoRuntime.
Local Open Scope f64_scope.

(** [state.Data]; [PhysicsEngine] points to the one engine, which is
    kept in place. *)
Record Data := mkData {
  PhysicsEngine : EngineData F;
  NumberOfParticles : Z;
  AverageMass : Z;
  HistoryTrail : bool;
  HistoryLength : Z;
  PhysicsLoopSpeed : Z
}.

(** The package-level variables [State] and [paused]. *)
Record App := mkApp {
  State : Data;
  paused : bool
}.

Definition set_PhysicsEngine v d := mkData v (NumberOfParticles d) (AverageMass d) (HistoryTrail d) (HistoryLength d) (PhysicsLoopSpeed d).
Definition set_NumberOfParticles v d := mkData (PhysicsEngine d) v (AverageMass d) (HistoryTrail d) (HistoryLength d) (PhysicsLoopSpeed d).
Definition set_AverageMass v d := mkData (PhysicsEngine d) (NumberOfParticles d) v (HistoryTrail d) (HistoryLength d) (PhysicsLoopSpeed d).
Definition set_HistoryTrail v d := mkData (PhysicsEngine d) (NumberOfParticles d) (AverageMass d) v (HistoryLength d) (PhysicsLoopSpeed d).
Definition set_HistoryLength v d := mkData (PhysicsEngine d) (NumberOfParticles d) (AverageMass d) (HistoryTrail d) v (PhysicsLoopSpeed d).
Definition set_State v (a : App) := mkApp v (paused a).

Definition engine (a : App) : EngineData F := PhysicsEngine (State a).
Definition with_engine (e : EngineData F) (a : App) : App :=
  set_State (set_PhysicsEngine e (State a)) a.

(** [HistoryTrailChangedEvent] *)
Definition HistoryTrailChangedEvent (checked : bool) (a : App) : App :=
  let a := set_State (set_HistoryTrail checked (State a)) a in
  let e := engine a in
  with_engine
    (set_heap
       (foldl (fun h p =>
                 alter (fun q => SetHistorySize (HistoryLength (State a))
                                   (SetTrackHistory checked q)) p h)
              (heap e) (Particles e)) e) a.

(** The slice expression [s[low:]]; out of range it panics. *)
Definition slice_from {A} (s : list A) (low : Z) : option (list A) :=
  if (0 <=? low)%Z && (low <=? Z.of_nat (length s))%Z
  then Some (drop (Z.to_nat low) s) else None.

(** "Truncate the position history slice if it's longer than the newly
    requested length", then store the length. *)
Definition resizeHistory (value : Z) (P : Particle F) : option (Particle F) :=
  let len := Z.of_nat (length (positionHistory P)) in
  if (value <? len)%Z then
    hist ← slice_from (positionHistory P) (len - value);
    Some (SetHistorySize value (SetPositionHistory hist P))
  else Some (SetHistorySize value P).

Definition resizeAll (value : Z) (ps : list addr) (h : list (Particle F))
  : option (list (Particle F)) :=
  foldl (fun oh p => h ← oh; P ← resizeHistory value (deref h p); Some (<[p := P]> h))
        (Some h) ps.

(** [HistoryTrailLengthChangedEvent] *)
Definition HistoryTrailLengthChangedEvent (value : Z) (a : App) : option App :=
  let a := set_State (set_HistoryLength value (State a)) a in
  let e := engine a in
  h ← resizeAll value (Particles e) (heap e);
  Some (with_engine (set_heap h e) a).

(** [ResetEnvironmentEvent] *)
Definition ResetEnvironmentEvent (a : App) : option App :=
  let a := with_engine (RestoreInitialParticleStates (engine a)) a in
  let hold := HistoryLength (State a) in
  a ← HistoryTrailLengthChangedEvent 0 a;
  let a := set_State (set_HistoryLength hold (State a)) a in
  Some (HistoryTrailChangedEvent (HistoryTrail (State a)) a).

(** The random numbers drawn for one generated particle, in the order
    of the calls: [NormFloat64], then four times [Float64]. *)
Record Draw := mkDraw {
  d_norm : F;
  d_closeCharge : F;
  d_farCharge : F;
  d_x : F;
  d_y : F
}.

Definition generateOne (d : Data) (r : Draw) : Particle F :=
  let avg := f_of_int (AverageMass d) in
  let m := math_Min
             (math_Max (d_norm r ⊗ f_lit 55 100 ⊗ avg ⊕ avg)
                       (math_Max (f_num 4) (f_lit 2 10 ⊗ avg)))
             (f_lit 175 100 ⊗ avg) in
  let cc := d_closeCharge r ⊗ f_num 2 ⊖ f_num 1 in
  let fc := d_farCharge r in
  let x := d_x r ⊗ f_of_int (EnvironmentSize (PhysicsEngine d)) in
  let y := d_y r ⊗ f_of_int (EnvironmentSize (PhysicsEngine d)) in
  NewParticle m cc fc x y.

(** [GenerateParticles]; [rnd i] are the draws for particle [i].  [make]
    panics on a negative length. *)
Definition GenerateParticles (rnd : nat -> Draw) (a : App) : option App :=
  let d := State a in
  if (NumberOfParticles d <? 0)%Z then None
  else
    let e := engine a in
    let '(h, ps) :=
      foldl (fun '(h, ps) i => let '(h', p) := alloc h (generateOne d (rnd i)) in (h', ps ++ [p]))
            (heap e, []) (seq 0 (Z.to_nat (NumberOfParticles d))) in
    let a := with_engine (set_Particles ps (set_heap h e)) a in
    let a := HistoryTrailChangedEvent (HistoryTrail (State a)) a in
    a ← HistoryTrailLengthChangedEvent (HistoryLength (State a)) a;
    Some (with_engine (SaveInitialParticleStates (engine a)) a).


(** [NumParticlesChangedEvent] and [AverageMassChangedEvent] *)
Definition NumParticlesChangedEvent (rnd : nat -> Draw) (value : Z) (a : App) : option App :=
  let a := set_State (set_NumberOfParticles value (State a)) a in
  if paused a then GenerateParticles rnd a else Some a.

Definition AverageMassChangedEvent (rnd : nat -> Draw) (value : Z) (a : App) : option App :=
  let a := set_State (set_AverageMass value (State a)) a in
  if paused a then GenerateParticles rnd a else Some a.

(** The strength and switch handlers. *)
Definition GravityStrengthChangedEvent (value : F) (a : App) : App :=
  with_engine (set_GravityStrength value (engine a)) a.
Definition CloseChargeStrengthChangedEvent (value : F) (a : App) : App :=
  with_engine (set_CloseChargeStrength value (engine a)) a.
Definition FarChargeStrengthChangedEvent (value : F) (a : App) : App :=
  with_engine (set_FarChargeStrength value (engine a)) a.
Definition AllowMergeChangedEvent (checked : bool) (a : App) : App :=
  with_engine (set_AllowMerge checked (engine a)) a.
Definition WallBounceChangedEvent (checked : bool) (a : App) : App :=
  with_engine (set_WallBounce checked (engine a)) a.

(** One turn of [physicsLoop]: the tick. *)
Definition physicsTick (a : App) : App :=
  with_engine (fst (UpdateParticles rt (engine a))) a.
End Main.

Arguments Data F : clear implicits.
Arguments App F : clear implicits.
Arguments Draw F : clear implicits.

(** ** Two runtimes *)

(** Insertion sort as [sort.Slice] runs it on a short slice: each element
    in turn is swapped towards the front while it is [less] than its left
    neighbour.  [sorted] is the part already placed, last element first. *)
Module InsertionSort.
Section Sort.
Context {A : Type} (less : A -> A -> bool).

Fixpoint place (x : A) (sorted : list A) : list A :=
  match sorted with
  | [] => [x]
  | y :: rest => if less x y then y :: place x rest else x :: sorted
  end.

Definition sort (l : list A) : list A := rev (foldl (fun s x => place x s) [] l).

(** With the newest element in front, [sorted] is in order when no
    element is [less] than one behind it. *)
Definition placed (dom : list A) (s : list A) : Prop :=
  StronglySorted (fun y z => less y z = false) s /\ (forall y, y ∈ s -> y ∈ dom).
End Sort.
End InsertionSort.

(** Insertion sort, and map keys visited in the order of [elements]. *)
Definition runtime : GoRuntime :=
  mkGoRuntime (fun A less l => InsertionSort.sort less l) elements.


(** ** Concrete engines (binary64) *)

Module Examples.
Local Open Scope Z_scope.

Definition blank : EngineData spec_float :=
  mkEngineData fzero fzero fzero 0 false false fzero fzero fzero [] [] [].

(** The engine as [main] sets it up, before any particle exists. *)
Definition fresh : EngineData spec_float := Initialize blank.

Definition particle (mass closeCharge farCharge x y vx vy : spec_float) : Particle spec_float :=
  SetVelocity (vec vx vy) (NewParticle mass closeCharge farCharge x y).

Definition with_particles (l : list (Particle spec_float)) (e : EngineData spec_float)
  : EngineData spec_float :=
  set_Particles (seq 0 (length l)) (set_heap l e).

(** A single particle of mass 100 moving to the right. *)
Definition lonely : EngineData spec_float :=
  with_particles [particle (f_num 100) (f_num 0) (f_num 0) (f_num 10) (f_num 10) (f_num 5) (f_num 0)]
    fresh.


(** Masses 100 and 10 in contact, close charges of opposite sign. *)
Definition contact : EngineData spec_float :=
  with_particles
    [particle (f_num 100) (f_lit 1 10) (f_lit 5 10) (f_num 10) (f_num 10) (f_num 5) (f_num 0);
     particle (f_num 10) (f_lit (-1) 10) (f_lit 2 10) (f_num 11) (f_num 10) (f_num 0) (f_num 1)]
    fresh.



(** The program state of [main] around an engine. *)
Definition app (e : EngineData spec_float) (isPaused : bool) : App spec_float :=
  mkApp (mkData e 50 250 true 15 75) isPaused.


End Examples.

(** ** A pending merge (exact arithmetic) *)

Module IdealExamples.
Local Open Scope R_scope.


End IdealExamples.

(** ** The properties stated below *)

Section SnapshotDefs.
Context {F : Type} `{Float64 F}.
Implicit Types (h : list (Particle F)) (P : Particle F).

(** The state of a particle that carries no history and no collision
    state. *)
Definition is_reset P : Prop :=
  positionHistory P = [] /\ trackHistory P = false /\ historySize P = 0%Z /\
  MergingWith P = ∅ /\ merging P = false /\
  bouncing P = false /\ bouncingAgainst P = None.
End SnapshotDefs.

Section CollisionDefs.
Context {F : Type} `{Float64 F}.
Implicit Types (h : list (Particle F)) (a p o : addr) (P O : Particle F).
Local Open Scope f64_scope.

(** [p] meets [o] for the first time: the pair is not skipped, [p] is
    not bouncing against [o], and the centres are closer than the sum of
    the radii. *)
Definition first_contact h p o : Prop :=
  p ≠ o /\ (o ∉ MergingWith (deref h p)) /\
  isBouncingAgainst (deref h p) o = false /\
  (vector_Magnitude (vector_Subtract (Position (deref h p)) (Position (deref h o)))
     ≺ f_of_int (Int64.add (Radius (deref h p)) (Radius (deref h o)))) = true.

(** The merge condition in the words of the specification. *)
Definition merge_condition (e : EngineData F) P O : Prop :=
  AllowMerge e = true /\
  (math_Max (Mass P) (Mass O) ⊘ math_Min (Mass P) (Mass O) ≻ mergeMassRatioThreshold e) = true /\
  (math_Signbit (CloseCharge P) ≠ math_Signbit (CloseCharge O) \/
   (math_Abs (CloseCharge P) ⊕ math_Abs (CloseCharge O) ≺ mergeCloseChargeThreshold e) = true).

(** The state of [p] after a bounce against [o]. *)
Definition bounced P O o : Particle F :=
  SetVelocity (reflect (Velocity P) (bounceNormal P O))
    (set_bouncingAgainst (Some o) (set_bouncing true P)).
End CollisionDefs.

Section FramesDefs.
Context {F : Type} `{Float64 F}.
Implicit Types (h : list (Particle F)) (a p o : addr) (P : Particle F)
               (e : EngineData F) (Q : Particle F -> Prop).

(** Properties of a particle that survive the updates of its motion. *)
Record kept_in_motion Q : Prop := {
  kept_velocity : forall P v, Q P -> Q (SetVelocity v P);
  kept_position : forall P v, Q P -> Q (SetPosition v P);
  kept_bouncing : forall P b, Q P -> Q (set_bouncing b P);
  kept_bouncingAgainst : forall P (against : option addr), Q P -> Q (set_bouncingAgainst against P)
}.

(** ... that survive being marked for a merge. *)
Definition kept_by_marking Q : Prop :=
  forall P X, Q P -> Q (set_MergingWith X (set_merging true P)).

(** ... that survive the position update with its history append. *)
Definition kept_by_history Q : Prop := forall P, Q P -> Q (UpdatePosition P).

(** ... that survive merge aggregation and pass from a root to the
    particle merged from it. *)
Record kept_by_merging Q : Prop := {
  kept_unlink : forall P p, Q P -> Q (set_MergingWith (MergingWith P ∖ {[p]}) P);
  kept_clear : forall P, Q P -> MergingWith P = ∅ -> Q (set_merging false P);
  kept_merged : forall (ag : Aggregate) P, Q P -> Q (mergedParticle ag P)
}.

(** Every pointer of the roster refers to an object. *)
Definition valid_roster e : Prop := forall a, a ∈ Particles e -> a < length (heap e).

(** [Q] holds for every particle of the roster. *)
Definition roster_all Q e : Prop := forall a, a ∈ Particles e -> Q (deref (heap e) a).
End FramesDefs.

Section MergingDefs.
Context {F : Type} `{Float64 F}.
Implicit Types (h : list (Particle F)) (a p o m : addr) (P : Particle F)
               (e : EngineData F) (Q : Particle F -> Prop) (st : @Mergers F).

(** The cell-wise part of [kept_by_merging]. *)
Definition kept_by_unlinking Q : Prop :=
  (forall P p, Q P -> Q (set_MergingWith (MergingWith P ∖ {[p]}) P)) /\
  (forall P, Q P -> MergingWith P = ∅ -> Q (set_merging false P)).
End MergingDefs.

Section WholeTickDefs.
Context {F : Type} `{Float64 F}.
Variable rt : GoRuntime.
Implicit Types (h : list (Particle F)) (a p o : addr) (P : Particle F)
               (e : EngineData F) (Q : Particle F -> Prop).

(** The engine after the steps of [UpdateParticles], one by one. *)
Definition afterSort e : EngineData F :=
  sortParticles rt (updateParticlePositions (updateParticleVelocities e)).

Definition afterMergers e : EngineData F :=
  if AllowMerge (afterSort e) then (handleMergers rt (afterSort e)).1 else afterSort e.
End WholeTickDefs.

Section HistoryDefs.
Context {F : Type} `{Float64 F}.
Implicit Types (h : list (Particle F)) (a p : addr) (P : Particle F)
               (e : EngineData F) (app : App F).
Local Open Scope Z_scope.

(** The history of a particle fits its [historySize]. *)
Definition history_fits P : Prop :=
  Z.of_nat (length (positionHistory P)) <= historySize P.


(** The newest [n] entries of a history (the oldest come first). *)
Definition newest {A} (n : Z) (l : list A) : list A :=
  drop (length l - Z.to_nat n) l.

(** What [resizeHistory] computes when it does not panic. *)
Definition resize (value : Z) P : Particle F :=
  SetHistorySize value (SetPositionHistory (newest value (positionHistory P)) P).
End HistoryDefs.

Section ConfigurationDefs.
Context {F : Type} `{Float64 F}.
Implicit Types (e : EngineData F) (app : App F).
Local Open Scope Z_scope.

(** The settings of the engine: strengths, size, switches and tuning
    constants. *)
Definition settings e :=
  (GravityStrength e, CloseChargeStrength e, FarChargeStrength e, EnvironmentSize e,
   AllowMerge e, WallBounce e,
   bounceCompleteDistFactor e, mergeMassRatioThreshold e, mergeCloseChargeThreshold e).
End ConfigurationDefs.

Section NoPendingMergeDefs.
Context {F : Type} `{Float64 F}.
Implicit Types (h : list (Particle F)) (a p o m : addr) (P : Particle F)
               (e : EngineData F) (st : @Mergers F).

(** No merge is pending on the particle. *)
Definition unmarked P : Prop := merging P = false /\ MergingWith P = ∅.

(** A particle with partners is marked. *)
Definition marked_if_linked P : Prop := merging P = false -> MergingWith P = ∅.

Definition not_merging P : Prop := merging P = false.
End NoPendingMergeDefs.

Section MassOrderDefs.
Implicit Types (e : EngineData spec_float) (P : Particle spec_float).

End MassOrderDefs.

Section RosterDefs.
Context {F : Type} `{Float64 F}.
Implicit Types (h : list (Particle F)) (a p m : addr) (e : EngineData F) (st : @Mergers F).

(** The roster holds distinct pointers to objects. *)
Definition sound_roster e : Prop := NoDup (Particles e) /\ valid_roster e.

(** The particles the merger loop adds are new objects, all different. *)
Definition fresh_additions (n : nat) st : Prop :=
  NoDup (addList st) /\ forall m, m ∈ addList st -> n ≤ m < length (m_heap st).
End RosterDefs.

Section WallsDefs.
Implicit Types (e : EngineData spec_float) (P : Particle spec_float) (a : addr).
Local Open Scope f64_scope.




End WallsDefs.

Section MergedParticleDefs.
Implicit Types (h : list (Particle R)) (P : Particle R) (p o : addr)
               (w : Particle R -> R) (st : @Mergers R).
Local Open Scope R_scope.





End MergedParticleDefs.

(** Splits a membership in a concrete roster into its cases. *)
Ltac roster_cases H :=
  simpl in H;
  repeat (apply elem_of_cons in H as [->|H]);
  [..|by apply elem_of_nil in H].

Section TrailDefs.
Context {F : Type} `{Float64 F}.

(** The particle after [n] position updates, and the positions it has
    left behind by then, oldest first. *)
Definition moved (n : nat) (P : Particle F) : Particle F := Nat.iter n UpdatePosition P.

Definition path (n : nat) (P : Particle F) : list (Vector F) :=
  (fun i => Position (moved i P)) <$> seq 0 n.

(** The trail settings of the program, written into a particle. *)
Definition trailed (d : Data F) (P : Particle F) : Particle F :=
  SetHistorySize (HistoryLength d) (SetTrackHistory (HistoryTrail d) P).
End TrailDefs.

Section IsolationDefs.
Context {F : Type} `{Float64 F}.
Variable rt : GoRuntime.
Implicit Types (a p o s : addr) (P : Particle F) (e : EngineData F)
               (Q : Particle F -> Prop) (W : list addr).

(** Every pointer in the [MergingWith] of the object is one of [W]. *)
Definition links_within W P : Prop := forall o, o ∈ MergingWith P -> o ∈ W.

(** Properties of a particle that survive being linked to a particle of
    [W] for a merge. *)
Definition kept_by_linking W Q : Prop :=
  forall P o, o ∈ W -> Q P -> Q (set_MergingWith ({[o]} ∪ MergingWith P) (set_merging true P)).

(** The objects of the snapshot exist and are none of the roster. *)
Definition snapshot_apart e : Prop :=
  forall s, s ∈ initialParticles e -> s < length (heap e) /\ s ∉ Particles e.

(** The engine between two ticks: distinct particles, no merge pending,
    the snapshot apart. *)
Definition steady e : Prop :=
  sound_roster e /\ roster_all unmarked e /\ snapshot_apart e.

(** The engine after [n] ticks. *)
Definition ticks (n : nat) e : EngineData F :=
  Nat.iter n (fun e => (UpdateParticles rt e).1) e.
End IsolationDefs.

Section RunDefs.
Context {F : Type} `{Float64 F}.
Variable rt : GoRuntime.

(** The program after [n] turns of the physics loop. *)
Definition run (n : nat) (a : App F) : App F := Nat.iter n (physicsTick rt) a.
End RunDefs.

Section BodyDefs.
Context {F : Type} `{Float64 F}.

(** [P'] has the mass, the charges, the proxies and the history settings
    of [P]. *)
Definition same_body (P P' : Particle F) : Prop :=
  Mass P' = Mass P /\ CloseCharge P' = CloseCharge P /\ FarCharge P' = FarCharge P /\
  Radius P' = Radius P /\ Red P' = Red P /\ Green P' = Green P /\ Alpha P' = Alpha P /\
  trackHistory P' = trackHistory P /\ historySize P' = historySize P.

(** What the four results of the merger loop say about its lists: no
    merge, and nothing was added; a merge, and the root is a particle of
    [W], the merged particle one of those added. *)
Definition results_agree (W : list addr) (st : @Mergers F) : Prop :=
  (mergeOccurred st = false ->
     mergeMultiple st = false /\ mergeSource st = None /\ mergedResult st = None /\
     addList st = []) /\
  (mergeOccurred st = true ->
     exists p m, mergeSource st = Some p /\ mergedResult st = Some m /\
                 p ∈ W /\ m ∈ addList st).
End BodyDefs.

Section SourceDefs.
Context {F : Type} `{Float64 F}.

(** The object at [a] is not among its own merge partners. *)
Definition not_own_partner (h : list (Particle F)) (a : addr) : Prop :=
  a ∉ MergingWith (deref h a).

(** What the status line of the physics loop reads of the root [p] it
    was handed: a first key of [MergingWith], which is an object of the
    heap and one of the particles [W], and not the root. *)
Definition source_has_partner (W : list addr) (h : list (Particle F)) (p : addr) : Prop :=
  p < length h /\ MergingWith (deref h p) ≠ ∅ /\
  forall o, o ∈ MergingWith (deref h p) -> o ∈ W /\ o ≠ p.
End SourceDefs.

(** ** Package qt: rasterising a particle

    [guis/qt/draw.go] paints a particle as a filled circle.  Every pixel
    goes through [setPixel]; a drawing function is represented by the
    calls of [setPixel] it makes, in order, and returns [None] when its
    loop does not end. *)

Module Raster.
Local Open Scope Z_scope.

(** [r, g, b, a] *)
Definition Colour : Type := Z * Z * Z * Z.

(** One call [setPixel(x, y, r, g, b, a)]. *)
Record Call := mkCall { c_x : Z; c_y : Z; c_colour : Colour }.

(** [drawHLine]: [for x := x0; x <= x1; x++]. *)
Fixpoint hline (fuel : nat) (x y0 x1 : Z) (col : Colour) : option (list Call) :=
  if x <=? x1 then
    match fuel with
    | O => None
    | S fuel =>
        rest ← hline fuel (Int64.add x 1) y0 x1 col;
        Some (mkCall x y0 col :: rest)
    end
  else Some [].

Definition drawHLine (x0 y0 x1 : Z) (col : Colour) : option (list Call) :=
  hline (Z.to_nat (x1 - x0 + 1)) x0 y0 x1 col.

(** [drawTwoCenteredLines]: the row [dy] below the centre and, unless
    [dy] is 0, the row [dy] above it, from [cx-dx] to [cx+dx]. *)
Definition drawTwoCenteredLines (cx cy dx dy : Z) (col : Colour) : option (list Call) :=
  l1 ← drawHLine (Int64.sub cx dx) (Int64.add cy dy) (Int64.add cx dx) col;
  if negb (dy =? 0) then
    l2 ← drawHLine (Int64.sub cx dx) (Int64.sub cy dy) (Int64.add cx dx) col;
    Some (l1 ++ l2)
  else Some l1.

(** The loop [for x >= y] of [drawFilledCircle]. *)
Fixpoint circleLoop (fuel : nat) (cx cy err x y : Z) (col : Colour) : option (list Call) :=
  if y <=? x then
    match fuel with
    | O => None
    | S fuel =>
        let lastY := y in
        let err := Int64.add err y in
        let y := Int64.add y 1 in
        let err := Int64.add err y in
        l1 ← drawTwoCenteredLines cx cy x lastY col;
        if 0 <=? err then
          l2 ← (if negb (x =? lastY) then drawTwoCenteredLines cx cy lastY x col
                else Some []);
          let err := Int64.sub err x in
          let x := Int64.sub x 1 in
          let err := Int64.sub err x in
          rest ← circleLoop fuel cx cy err x y col;
          Some (l1 ++ l2 ++ rest)
        else
          rest ← circleLoop fuel cx cy err x y col;
          Some (l1 ++ rest)
    end
  else Some [].

(** [drawFilledCircle] in an environment of the given size: nothing is
    drawn when the circle is off the canvas along both axes. *)
Definition drawFilledCircle (size cx cy rad : Z) (col : Colour) : option (list Call) :=
  if ((Int64.add cx rad <? 0) || (size <? Int64.sub cx rad)) &&
     ((Int64.add cy rad <? 0) || (size <? Int64.sub cy rad))
  then Some []
  else circleLoop (S (Z.to_nat rad)) cx cy (Int64.sub 0 rad) rad 0 col.

(** The pixel is painted in colour [col] by one of the calls. *)
Definition painted (calls : list Call) (col : Colour) (px py : Z) : Prop :=
  mkCall px py col ∈ calls.
End Raster.

(** ** A generated program (binary64) *)

Module Samples.
Local Open Scope Z_scope.

(** The random numbers drawn for particle [i]. *)
Definition scatter (i : nat) : Draw spec_float :=
  mkDraw (f_lit (Z.of_nat i - 1) 2) (f_lit (Z.of_nat i) 4) (f_lit 1 2)
         (f_lit (Z.of_nat i + 1) 8) (f_lit (3 - Z.of_nat i) 4).

(** The program as [main] sets it up, asking for three particles. *)
Definition seeded : App spec_float :=
  mkApp (mkData Examples.fresh 3 250 true 15 75) true.

Definition generated : App spec_float :=
  default seeded (GenerateParticles scatter seeded).

(** Three particles in a row, the middle one in contact with both
    neighbours: masses 1000, 100 and 10, close charges of alternating
    sign. *)
Definition chain : EngineData spec_float :=
  Examples.with_particles
    [Examples.particle (f_num 1000) (f_lit 1 10) (f_lit 1 2) (f_num 100) (f_num 100)
       (f_num 0) (f_num 0);
     Examples.particle (f_num 100) (f_lit (-1) 10) (f_lit 1 2) (f_num 110) (f_num 100)
       (f_num 0) (f_num 0);
     Examples.particle (f_num 10) (f_lit 1 10) (f_lit 1 2) (f_num 113) (f_num 100)
       (f_num 0) (f_num 0)]
    Examples.fresh.
End Samples.

(** ** The two runtimes sort *)

Lemma elem_of_rev {A} (x : A) (l : list A) : x ∈ rev l <-> x ∈ l.
Proof. rewrite !list_elem_of_In. symmetry. apply in_rev. Qed.

Module InsertionSortFacts.
Import InsertionSort.
Section Sort.
Context {A : Type} (less : A -> A -> bool).

Lemma place_perm x s : place less x s ≡ₚ x :: s.
Proof.
  induction s as [|y s IH]; simpl; [done|].
  destruct (less x y); [|done].
  rewrite IH. apply Permutation_swap.
Qed.

Lemma foldl_place_perm l s : foldl (fun s x => place less x s) s l ≡ₚ rev l ++ s.
Proof.
  revert s. induction l as [|x l IH]; intros s; simpl; [done|].
  rewrite IH, place_perm, <- app_assoc. simpl.
  by rewrite <- Permutation_middle.
Qed.

Lemma sort_perm l : sort less l ≡ₚ l.
Proof.
  unfold sort. rewrite <- (Permutation_rev (foldl _ _ _)).
  rewrite foldl_place_perm, app_nil_r. symmetry. apply Permutation_rev.
Qed.

Lemma place_placed dom x s :
  strict_weak_on less dom -> x ∈ dom -> placed less dom s -> placed less dom (place less x s).
Proof.
  intros (Hirr & Htr & Hinc) Hx. induction s as [|y s IH]; intros [Hs Hin]; simpl.
  - split; [repeat constructor|]. intros y Hy. by apply list_elem_of_singleton in Hy as ->.
  - apply StronglySorted_cons in Hs as [Hy Hs].
    assert (Hyd : y ∈ dom) by (apply Hin; left).
    assert (Hsd : forall z, z ∈ s -> z ∈ dom) by (intros z Hz; apply Hin; by right).
    destruct (less x y) eqn:Hxy.
    + destruct (IH (conj Hs Hsd)) as [IH1 IH2]. split.
      * apply StronglySorted_cons. split; [|done].
        apply Forall_forall. intros z Hz.
        apply (elem_of_Permutation_proper _ _ _ (place_perm x s)) in Hz.
        apply elem_of_cons in Hz as [->|Hz].
        -- destruct (less y x) eqn:Hyx; [|done].
           rewrite <- (Hirr x Hx). symmetry. by apply (Htr x y x).
        -- rewrite Forall_forall in Hy. by apply Hy.
      * intros z Hz. apply elem_of_cons in Hz as [->|Hz]; [done|by apply IH2].
    + split.
      * apply StronglySorted_cons. split.
        -- apply Forall_forall. intros z Hz.
           apply elem_of_cons in Hz as [->|Hz]; [done|].
           rewrite Forall_forall in Hy.
           apply (Hinc x y z); auto.
        -- apply StronglySorted_cons. by split.
      * intros z Hz. apply elem_of_cons in Hz as [->|Hz]; [done|by apply Hin].
Qed.

Lemma foldl_place_placed dom l s :
  strict_weak_on less dom -> (forall x, x ∈ l -> x ∈ dom) ->
  placed less dom s -> placed less dom (foldl (fun s x => place less x s) s l).
Proof.
  intros Hsw. revert s. induction l as [|x l IH]; intros s Hl Hs; simpl; [done|].
  apply IH.
  - intros y Hy. apply Hl. by right.
  - apply place_placed; auto. apply Hl. left.
Qed.

Lemma StronglySorted_rev (Rel : A -> A -> Prop) (s : list A) :
  StronglySorted Rel s -> StronglySorted (fun x y => Rel y x) (rev s).
Proof.
  induction 1 as [|y s Hs IH Hy]; simpl; [constructor|].
  apply StronglySorted_app_2; [|done|repeat constructor].
  intros x1 x2 H1 H2. apply list_elem_of_singleton in H2 as ->.
  rewrite Forall_forall in Hy. apply Hy.
  by apply (elem_of_rev x1 s).
Qed.

Lemma sort_sorted l :
  strict_weak_on less l -> StronglySorted (fun x y => less y x = false) (sort less l).
Proof.
  intros Hsw. unfold sort.
  apply (StronglySorted_rev (fun y z => less y z = false)).
  apply (foldl_place_placed l l []); auto.
  split; [constructor|]. intros y Hy. by apply elem_of_nil in Hy.
Qed.
End Sort.
End InsertionSortFacts.

Lemma runtime_sort_spec : sort_Slice_spec runtime.
Proof.
  intros A less l. split.
  - apply InsertionSortFacts.sort_perm.
  - apply InsertionSortFacts.sort_sorted.
Qed.

Lemma runtime_range_spec : map_range_spec runtime.
Proof. by intros X. Qed.


(** ** Reading and writing the heap *)

Section Heap.
Context {F : Type} `{Float64 F}.
Implicit Types (h : list (Particle F)) (a b p o : addr) (P Q : Particle F).

Lemma deref_alter_ne fn a b h : a ≠ b -> deref (alter fn a h) b = deref h b.
Proof. intros. unfold deref. by apply list_lookup_total_alter_ne. Qed.

Lemma deref_alter_eq fn a h : a < length h -> deref (alter fn a h) a = fn (deref h a).
Proof. intros. unfold deref. by apply list_lookup_total_alter_eq. Qed.

Lemma alter_out_of_range fn a h : length h ≤ a -> alter fn a h = h.
Proof.
  revert a. induction h as [|x h IH]; intros [|a] Hl; simpl in *; try done; try lia.
  f_equal. apply IH. lia.
Qed.

(** An in-place update changes the cell it addresses, if there is one. *)
Lemma deref_alter fn a b h :
  deref (alter fn a h) b = deref h b \/
  (a = b /\ a < length h /\ deref (alter fn a h) b = fn (deref h b)).
Proof.
  destruct (decide (a = b)) as [->|Hne].
  - destruct (decide (b < length h)).
    + right. by rewrite deref_alter_eq.
    + left. rewrite alter_out_of_range; [done|lia].
  - left. by apply deref_alter_ne.
Qed.

Lemma deref_alloc_old h P a : a < length h -> deref (h ++ [P]) a = deref h a.
Proof. intros. unfold deref. by apply lookup_total_app_l. Qed.

Lemma deref_alloc_new h P : deref (h ++ [P]) (length h) = P.
Proof. unfold deref. by apply list_lookup_total_middle. Qed.

(** A property of single objects that every update [fn] keeps holds for
    the cells of the updated heap. *)
Lemma alter_keeps (Prop_ : Particle F -> Prop) fn a h b :
  (forall P, Prop_ P -> Prop_ (fn P)) ->
  Prop_ (deref h b) -> Prop_ (deref (alter fn a h) b).
Proof.
  intros Hfn Hb. destruct (deref_alter fn a b h) as [->|(_ & _ & ->)]; auto.
Qed.

Lemma foldl_alter_keeps (Prop_ : Particle F -> Prop) (fn : addr -> Particle F -> Particle F) ps h b :
  (forall p P, Prop_ P -> Prop_ (fn p P)) ->
  Prop_ (deref h b) -> Prop_ (deref (foldl (fun h p => alter (fn p) p h) h ps) b).
Proof.
  intros Hfn. revert h. induction ps as [|p ps IH]; intros h Hb; simpl; [done|].
  apply IH. apply (alter_keeps Prop_); auto.
Qed.

Lemma foldl_alter_length (fn : addr -> Particle F -> Particle F) ps h :
  length (foldl (fun h p => alter (fn p) p h) h ps) = length h.
Proof.
  revert h. induction ps as [|p ps IH]; intros h; simpl; [done|].
  by rewrite IH, length_alter.
Qed.
End Heap.

(** ** Cloning and the initial snapshot *)

Section Snapshot.
Context {F : Type} `{Float64 F}.
Implicit Types (h : list (Particle F)) (P : Particle F).

Lemma NewParticle_reset mass closeCharge farCharge x y :
  is_reset (NewParticle mass closeCharge farCharge x y).
Proof.
  unfold NewParticle, initializeWithValues, SetFarCharge, SetCloseCharge, SetMass.
  cbv zeta. destruct (f_ltb _ _); repeat split.
Qed.

Lemma Clone_reset P : is_reset (Clone P).
Proof.
  unfold Clone.
  destruct (NewParticle_reset (Mass P) (CloseCharge P) (FarCharge P)
              (vx (Position P)) (vy (Position P))) as (?&?&?&?&?&?&?).
  repeat split; simpl; assumption.
Qed.

Lemma Clone_copies P :
  Mass (Clone P) = Mass P /\
  CloseCharge (Clone P) = clampCloseCharge (CloseCharge P) /\
  FarCharge (Clone P) = clampFarCharge (FarCharge P) /\
  Position (Clone P) = Position P /\
  Velocity (Clone P) = Velocity P.
Proof.
  unfold Clone, NewParticle, initializeWithValues, SetFarCharge, SetCloseCharge, SetMass.
  cbv zeta. destruct (Position P) as [x y].
  destruct (f_ltb _ _); repeat split.
Qed.

Lemma cloneAll_clones src : forall h out h' out',
  foldl (fun '(h, out) p => let '(h', a) := alloc h (Clone (deref h p)) in (h', out ++ [a]))
        (h, out) src = (h', out') ->
  (forall a, a ∈ out -> exists X, h !! a = Some (Clone X)) ->
  (forall a, a ∈ out' -> exists X, h' !! a = Some (Clone X)) /\
  length out' = length out + length src.
Proof.
  induction src as [|p src IH]; intros h out h' out' Hf Hout;
    unfold alloc in Hf; simpl in Hf.
  - injection Hf as <- <-. split; [done|simpl; lia].
  - apply IH in Hf as [H1 H2].
    + split; [done|]. rewrite H2, length_app. simpl. lia.
    + intros a Ha. apply elem_of_app in Ha as [Ha|Ha].
      * destruct (Hout a Ha) as [X HX]. exists X. by apply lookup_app_l_Some.
      * apply list_elem_of_singleton in Ha as ->.
        exists (deref h p). by apply list_lookup_middle.
Qed.

Lemma RestoreInitialParticleStates_roster (e : EngineData F) a :
  a ∈ Particles (RestoreInitialParticleStates e) ->
  exists X, deref (heap (RestoreInitialParticleStates e)) a = Clone X.
Proof.
  unfold RestoreInitialParticleStates, cloneAll.
  destruct (foldl _ _ _) as [h' l'] eqn:Hf. simpl. intros Ha.
  apply cloneAll_clones in Hf as [Hc _].
  - destruct (Hc a Ha) as [X HX]. exists X. by apply list_lookup_total_correct.
  - intros b Hb. by apply elem_of_nil in Hb.
Qed.

(** C10.  [Clone] carries over the mass, the position and the velocity,
    and the two charges as the clamping setters store them; every other
    field of the copy is in its initial state.  Hence after
    [RestoreInitialParticleStates] every particle of the roster has an
    empty position history, no history tracking, history size 0, an
    empty [MergingWith], and is neither merging nor bouncing, whatever
    the state of the engine was; the roster has one particle per
    particle of the snapshot. *)
Theorem C10_clone_and_restore :
  (forall P, Mass (Clone P) = Mass P /\
             CloseCharge (Clone P) = clampCloseCharge (CloseCharge P) /\
             FarCharge (Clone P) = clampFarCharge (FarCharge P) /\
             Position (Clone P) = Position P /\
             Velocity (Clone P) = Velocity P /\
             is_reset (Clone P)) /\
  (forall (e : EngineData F),
     length (Particles (RestoreInitialParticleStates e)) = length (initialParticles e) /\
     forall a, a ∈ Particles (RestoreInitialParticleStates e) ->
               is_reset (deref (heap (RestoreInitialParticleStates e)) a)).
Proof.
  split.
  - intros P. destruct (Clone_copies P) as (?&?&?&?&?).
    repeat split; try assumption; apply Clone_reset.
  - intros e. split.
    + unfold RestoreInitialParticleStates, cloneAll.
      destruct (foldl _ _ _) as [h' l'] eqn:Hf. simpl.
      apply cloneAll_clones in Hf as [_ Hl]; [done|].
      intros b Hb. by apply elem_of_nil in Hb.
    + intros a Ha. destruct (RestoreInitialParticleStates_roster e a Ha) as [X ->].
      apply Clone_reset.
Qed.
End Snapshot.

(** C1 (a defect of the code).  A roster of one particle: the inner loop
    counts no neighbour, the three sums are scaled by [1/0], and the
    velocity (5, 0) of the particle becomes not-a-number in both
    components. *)
Theorem C1_lonely_velocity_nan :
  Velocity (deref (heap Examples.lonely) 0) = vec (B64.of_int 5) (S754_zero false) /\
  Velocity (deref (heap (updateParticleVelocities Examples.lonely)) 0)
  = vec S754_nan S754_nan.
Proof. split; vm_compute; reflexivity. Qed.

(** ** Order and division on binary64 *)

Module B64Facts.
Local Open Scope Z_scope.

Lemma ltb_key x y :
  B64.is_nan x = false -> B64.is_nan y = false ->
  (B64.ltb x y = true <-> B64.lex_lt (B64.key x) (B64.key y)).
Proof.
  destruct x as [[]|[]| |[] m e], y as [[]|[]| |[] m' e']; try discriminate; intros _ _;
    unfold B64.ltb, SFltb, SFcompare, B64.lex_lt, B64.key; simpl;
    try (split; [intros; lia || discriminate | intros; lia || reflexivity]).
  all: rewrite ?Pos.compare_cont_spec; simpl.
  all: destruct (Z.compare_spec e e'), (Pos.compare_spec m m'); simpl;
    split; intros; try lia; try discriminate; try reflexivity.
Qed.


Lemma ltb_true_not_nan x y :
  B64.ltb x y = true -> B64.is_nan x = false /\ B64.is_nan y = false.
Proof.
  intros Hlt. destruct x, y; try done.
Qed.

Lemma ltb_false_key x y :
  B64.is_nan x = false -> B64.is_nan y = false ->
  (B64.ltb x y = false <-> ~ B64.lex_lt (B64.key x) (B64.key y)).
Proof.
  intros Hx Hy. rewrite <- (ltb_key x y Hx Hy). by destruct (B64.ltb x y).
Qed.

Lemma ltb_irrefl x : B64.ltb x x = false.
Proof.
  destruct (B64.is_nan x) eqn:Hx.
  - destruct x; done.
  - apply ltb_false_key; auto. unfold B64.lex_lt. lia.
Qed.

Lemma ltb_trans x y z : B64.ltb x y = true -> B64.ltb y z = true -> B64.ltb x z = true.
Proof.
  intros Hxy Hyz.
  destruct (ltb_true_not_nan _ _ Hxy) as [Hx Hy].
  destruct (ltb_true_not_nan _ _ Hyz) as [_ Hz].
  apply ltb_key in Hxy; auto. apply ltb_key in Hyz; auto. apply ltb_key; auto.
  unfold B64.lex_lt in *. lia.
Qed.

Lemma ltb_asym x y : B64.ltb x y = true -> B64.ltb y x = false.
Proof.
  intros Hxy. destruct (B64.ltb y x) eqn:Hyx; [|done].
  rewrite <- (ltb_irrefl x). symmetry. by apply (ltb_trans x y x).
Qed.


(** Two finite values neither of which is smaller are the same. *)
Lemma finite_incomparable_eq s m e s' m' e' :
  B64.ltb (S754_finite s m e) (S754_finite s' m' e') = false ->
  B64.ltb (S754_finite s' m' e') (S754_finite s m e) = false ->
  S754_finite s m e = S754_finite s' m' e'.
Proof.
  intros H1 H2. apply ltb_false_key in H1; try done. apply ltb_false_key in H2; try done.
  unfold B64.lex_lt, B64.key in *.
  destruct s, s'; simpl in *; try lia;
    assert (e = e') by lia; assert (m = m') by lia; by subst.
Qed.

(** The branch that divides the larger mass by the smaller computes
    [Max/Min]. *)
Lemma ratio_max_min x y :
  (if B64.ltb y x then B64.div x y else B64.div y x)
  = B64.div (B64.Max x y) (B64.Min x y).
Proof.
  destruct (B64.ltb y x) eqn:Hyx.
  - pose proof (ltb_asym _ _ Hyx) as Hxy.
    unfold B64.Max, B64.Min. rewrite Hyx, Hxy.
    destruct x as [[]|[]| |[] m e], y as [[]|[]| |[] m' e']; try done.
  - destruct (B64.ltb x y) eqn:Hxy.
    + unfold B64.Max, B64.Min. rewrite Hyx, Hxy.
      destruct x as [[]|[]| |[] m e], y as [[]|[]| |[] m' e']; try done.
    + destruct x as [[]|[]| |[] m e], y as [[]|[]| |[] m' e']; try done.
      all: pose proof (finite_incomparable_eq _ _ _ _ _ _ Hxy Hyx) as Heq;
        injection Heq as -> ->;
        unfold B64.Max, B64.Min; rewrite Hyx; reflexivity.
Qed.



(** Clamping a proper number between proper bounds [lo <= hi]. *)
Lemma clamp_within lo hi x :
  B64.is_nan x = false -> B64.is_nan lo = false -> B64.is_nan hi = false ->
  B64.ltb hi lo = false ->
  let r := B64.Max lo (B64.Min x hi) in
  B64.is_nan r = false /\ B64.ltb r lo = false /\ B64.ltb hi r = false.
Proof.
  intros Hx Hlo Hhi Hle r.
  assert (Hcases : (r = lo \/ r = x \/ r = hi) /\ B64.is_nan r = false
                   /\ ~ B64.lex_lt (B64.key r) (B64.key lo) /\ ~ B64.lex_lt (B64.key hi) (B64.key r)).
  { subst r.
    pose proof (proj1 (ltb_false_key hi lo Hhi Hlo) Hle) as Kle.
    unfold B64.Max, B64.Min.
    destruct (B64.ltb x hi) eqn:Hxh.
    - pose proof (proj1 (ltb_key x hi Hx Hhi) Hxh) as Kxh.
      destruct (B64.ltb x lo) eqn:Hxl.
      + pose proof (proj1 (ltb_key x lo Hx Hlo) Hxl) as Kxl.
        destruct lo as [[]|[]| |[] ml el], hi as [[]|[]| |[] mh eh],
                 x as [[]|[]| |[] mx ex];
          try discriminate; simpl; rewrite ?Hxh, ?Hxl; simpl;
          unfold B64.lex_lt, B64.key in *; simpl in *; try lia;
          (split; [auto|split; [done|lia]]).
      + pose proof (proj1 (ltb_false_key x lo Hx Hlo) Hxl) as Kxl.
        destruct lo as [[]|[]| |[] ml el], hi as [[]|[]| |[] mh eh],
                 x as [[]|[]| |[] mx ex];
          try discriminate; simpl; rewrite ?Hxh, ?Hxl; simpl;
          unfold B64.lex_lt, B64.key in *; simpl in *; try lia;
          (split; [auto|split; [done|lia]]).
    - pose proof (proj1 (ltb_false_key x hi Hx Hhi) Hxh) as Kxh.
      destruct lo as [[]|[]| |[] ml el], hi as [[]|[]| |[] mh eh],
               x as [[]|[]| |[] mx ex];
        try discriminate; simpl; rewrite ?Hxh, ?Hle; simpl;
        unfold B64.lex_lt, B64.key in *; simpl in *; try lia;
        (split; [auto|split; [done|lia]]). }
  destruct Hcases as (_ & Hn & H1 & H2).
  split; [done|]. split; apply ltb_false_key; auto.
Qed.
End B64Facts.

(** ** New collisions *)

Section Collision.
Context {F : Type} `{Float64 F}.
Implicit Types (h : list (Particle F)) (a p o : addr) (P O : Particle F).
Local Open Scope f64_scope.

Lemma interact_first_contact (e : EngineData F) p o (st : Forces) :
  first_contact (f_heap st) p o ->
  interact e p o st = mkForces (collide e p o (f_heap st)) (ct st) (g st) (c st) (f st).
Proof.
  intros (Hne & Hnm & Hnb & Hmag). unfold interact.
  rewrite (bool_decide_eq_false_2 _ Hnm), (bool_decide_eq_false_2 _ Hne).
  simpl. rewrite Hnb. simpl. by rewrite Hmag.
Qed.

Lemma collide_bounce (e : EngineData F) p o h :
  mergeTest e (deref h p) (deref h o) = false -> p < length h ->
  deref (collide e p o h) p = bounced (deref h p) (deref h o) o /\
  (forall a, a ≠ p -> deref (collide e p o h) a = deref h a).
Proof.
  intros Ht Hp. unfold collide. rewrite Ht. split.
  - by rewrite deref_alter_eq.
  - intros a Ha. by rewrite deref_alter_ne.
Qed.

Lemma collide_merge (e : EngineData F) p o h :
  mergeTest e (deref h p) (deref h o) = true ->
  p ≠ o -> p < length h -> o < length h ->
  (p ∈ MergingWith (deref h o) -> merging (deref h o) = true) ->
  let h' := collide e p o h in
  deref h' p = set_MergingWith ({[o]} ∪ MergingWith (deref h p)) (set_merging true (deref h p)) /\
  merging (deref h' o) = true /\ p ∈ MergingWith (deref h' o) /\
  (forall a, a ≠ p -> a ≠ o -> deref h' a = deref h a).
Proof.
  intros Ht Hne Hp Ho Hinv. unfold collide. rewrite Ht. cbv zeta.
  rewrite (deref_alter_ne _ p o) by done.
  destruct (bool_decide (p ∈ MergingWith (deref h o))) eqn:Hin.
  - apply bool_decide_eq_true in Hin.
    rewrite deref_alter_eq by done. rewrite (deref_alter_ne _ p o) by done.
    repeat split; auto. intros a Ha _. by rewrite deref_alter_ne.
  - rewrite (deref_alter_ne _ o p) by done.
    rewrite deref_alter_eq by done.
    rewrite deref_alter_eq by (by rewrite length_alter).
    rewrite (deref_alter_ne _ p o) by done.
    repeat split; simpl; auto; [set_solver|].
    intros a Ha Ha'. by rewrite !deref_alter_ne.
Qed.
End Collision.

(** ** Classification of a new collision, on binary64 *)

Section Classification.
Implicit Types (e : EngineData spec_float) (st : @Forces spec_float)
               (P O : Particle spec_float).
Local Open Scope f64_scope.

Lemma mergeTest_condition e P O : mergeTest e P O = true <-> merge_condition e P O.
Proof.
  unfold mergeTest, merge_condition, massRatio.
  destruct (AllowMerge e); simpl; [|split; [done|by intros (?&_)]].
  rewrite (B64Facts.ratio_max_min (Mass P) (Mass O)).
  rewrite andb_true_iff, orb_true_iff, negb_true_iff, eqb_false_iff.
  tauto.
Qed.


(** C3.  A newly colliding pair [(p, o)] is classified as a merge if and
    only if merging is allowed, the ratio of the larger to the smaller
    mass exceeds [mergeMassRatioThreshold], and the close charges differ
    in sign or their magnitudes sum to less than
    [mergeCloseChargeThreshold].  On a merge both particles are marked
    as merging and each is in the other's [MergingWith]; otherwise [p]
    bounces against [o] and nothing else changes.  ([o]'s set may hold
    [p] only when [o] is already marked, as the engine keeps it.) *)
Theorem C3_merge_or_bounce e st p o :
  p < length (f_heap st) -> o < length (f_heap st) ->
  first_contact (f_heap st) p o ->
  (p ∈ MergingWith (deref (f_heap st) o) -> merging (deref (f_heap st) o) = true) ->
  let P := deref (f_heap st) p in
  let O := deref (f_heap st) o in
  let h' := f_heap (interact e p o st) in
  (o ∈ MergingWith (deref h' p) <-> merge_condition e P O) /\
  (merge_condition e P O ->
     merging (deref h' p) = true /\ merging (deref h' o) = true /\
     o ∈ MergingWith (deref h' p) /\ p ∈ MergingWith (deref h' o) /\
     bouncing (deref h' p) = bouncing P /\ Velocity (deref h' p) = Velocity P) /\
  (~ merge_condition e P O ->
     deref h' p = bounced P O o /\ forall a, a ≠ p -> deref h' a = deref (f_heap st) a).
Proof.
  intros Hp Ho Hfc Hinv P O h'.
  pose proof Hfc as (Hne & Hnm & _ & _).
  subst h'. rewrite (interact_first_contact e p o st Hfc). simpl.
  destruct (mergeTest e P O) eqn:Ht.
  - pose proof (proj1 (mergeTest_condition e P O) Ht) as Hc.
    destruct (collide_merge e p o (f_heap st) Ht Hne Hp Ho Hinv) as (Hp' & Hm & Hin & _).
    rewrite Hp'. simpl. split; [|split].
    + split; [done|]. intros _. set_solver.
    + intros _. repeat split; auto. set_solver.
    + intros Hn. by destruct Hn.
  - assert (Hc : ~ merge_condition e P O).
    { intros Hc. apply mergeTest_condition in Hc. congruence. }
    destruct (collide_bounce e p o (f_heap st) Ht Hp) as (Hp' & Hrest).
    rewrite Hp'. simpl. split; [|split].
    + split; [|done]. intros Hin. by destruct Hnm.
    + intros Hm. by destruct Hc.
    + intros _. by split.
Qed.

End Classification.

Lemma C3_merge_or_bounce_witness :
  let st := mkForces (heap Examples.contact) 0 vector_New2 vector_New2 vector_New2 in
  let h' := f_heap (interact Examples.contact 0 1 st) in
  merging (deref h' 0) = true /\ merging (deref h' 1) = true /\
  1 ∈ MergingWith (deref h' 0) /\ 0 ∈ MergingWith (deref h' 1).
Proof.
  intros st h'.
  destruct (C3_merge_or_bounce Examples.contact st 0 1) as (_ & Hmerge & _).
  - simpl. lia.
  - simpl. lia.
  - repeat split; [done| |vm_compute; reflexivity..].
    intros Hin. vm_compute in Hin. discriminate.
  - intros Hin. vm_compute in Hin. discriminate.
  - destruct Hmerge as (H1 & H2 & H3 & H4 & _); [|by repeat split].
    repeat split; [vm_compute; reflexivity..|left; vm_compute; discriminate].
Defined.


(** ** What the phases of a tick leave alone *)

Section Frames.
Context {F : Type} `{Float64 F}.
Variable rt : GoRuntime.
Implicit Types (h : list (Particle F)) (a p o : addr) (P : Particle F)
               (e : EngineData F) (Q : Particle F -> Prop).

Lemma mergeTest_allowed e P O : mergeTest e P O = true -> AllowMerge e = true.
Proof. unfold mergeTest. by destruct (AllowMerge e). Qed.

Lemma collide_length e p o h : length (collide e p o h) = length h.
Proof.
unfold collide. destruct (mergeTest _ _ _); [|by rewrite length_alter].
cbv zeta. destruct (bool_decide _); by rewrite ?length_alter.
Qed.

Lemma collide_keeps Q e p o h a :
  kept_in_motion Q -> (AllowMerge e = true -> kept_by_marking Q) ->
  Q (deref h a) -> Q (deref (collide e p o h) a).
Proof.
intros Hm Hk Ha. unfold collide.
destruct (mergeTest _ _ _) eqn:Ht.
- specialize (Hk (mergeTest_allowed _ _ _ Ht)). cbv zeta.
  destruct (bool_decide _).
  + apply (alter_keeps Q); auto.
  + apply (alter_keeps Q); auto. apply (alter_keeps Q); auto.
- apply (alter_keeps Q); auto. intros P HP.
  apply Hm, Hm, Hm, HP.
Qed.

Lemma interact_length e p o (st : Forces) :
  length (f_heap (interact e p o st)) = length (f_heap st).
Proof.
unfold interact. cbv zeta.
repeat case_match; simpl; rewrite ?length_alter, ?collide_length; reflexivity.
Qed.

Lemma interact_keeps Q e p o (st : Forces) a :
  kept_in_motion Q -> (AllowMerge e = true -> kept_by_marking Q) ->
  Q (deref (f_heap st) a) -> Q (deref (f_heap (interact e p o st)) a).
Proof.
intros Hm Hk Ha. unfold interact. cbv zeta.
repeat case_match; simpl; auto.
- apply (alter_keeps Q); auto. intros P HP. by apply Hm.
- by apply collide_keeps.
Qed.

Lemma interact_fold_length e p l (st : Forces) :
  length (f_heap (foldl (fun st o => interact e p o st) st l)) = length (f_heap st).
Proof.
revert st. induction l as [|o l IH]; intros st; simpl; [done|].
by rewrite IH, interact_length.
Qed.

Lemma interact_fold_keeps Q e p l (st : Forces) a :
  kept_in_motion Q -> (AllowMerge e = true -> kept_by_marking Q) ->
  Q (deref (f_heap st) a) ->
  Q (deref (f_heap (foldl (fun st o => interact e p o st) st l)) a).
Proof.
intros Hm Hk. revert st. induction l as [|o l IH]; intros st Ha; simpl; [done|].
apply IH. by apply interact_keeps.
Qed.

Lemma accelerate_length e h p : length (accelerate e h p) = length h.
Proof. unfold accelerate. by rewrite length_alter, interact_fold_length. Qed.

Lemma accelerate_keeps Q e h p a :
  kept_in_motion Q -> (AllowMerge e = true -> kept_by_marking Q) ->
  Q (deref h a) -> Q (deref (accelerate e h p) a).
Proof.
intros Hm Hk Ha. unfold accelerate.
apply (alter_keeps Q); [intros P HP; by apply Hm|].
by apply interact_fold_keeps.
Qed.

Lemma velocities_length e : length (heap (updateParticleVelocities e)) = length (heap e).
Proof.
unfold updateParticleVelocities. simpl.
generalize (heap e). induction (Particles e) as [|p l IH]; intros h; simpl; [done|].
by rewrite IH, accelerate_length.
Qed.

Lemma velocities_keeps Q e a :
  kept_in_motion Q -> (AllowMerge e = true -> kept_by_marking Q) ->
  Q (deref (heap e) a) -> Q (deref (heap (updateParticleVelocities e)) a).
Proof.
intros Hm Hk. unfold updateParticleVelocities. simpl.
generalize (heap e). induction (Particles e) as [|p l IH]; intros h Ha; simpl; [done|].
apply IH. by apply accelerate_keeps.
Qed.

Lemma positions_length e : length (heap (updateParticlePositions e)) = length (heap e).
Proof. apply (foldl_alter_length (fun _ => UpdatePosition)). Qed.

Lemma positions_keeps Q e a :
  kept_by_history Q ->
  Q (deref (heap e) a) -> Q (deref (heap (updateParticlePositions e)) a).
Proof. intros Hk. apply (foldl_alter_keeps Q (fun _ => UpdatePosition)). auto. Qed.

Lemma wallBounce_keeps Q e P : kept_in_motion Q -> Q P -> Q (wallBounce e P).
Proof.
intros Hm HP. unfold wallBounce.
repeat (destruct (beyondWalls _ _ _)); auto; cbv zeta; apply Hm, Hm, HP.
Qed.

Lemma walls_length e : length (heap (handleWalls e)) = length (heap e).
Proof. apply (foldl_alter_length (fun _ => wallBounce e)). Qed.

Lemma walls_keeps Q e a :
  kept_in_motion Q ->
  Q (deref (heap e) a) -> Q (deref (heap (handleWalls e)) a).
Proof.
intros Hm. apply (foldl_alter_keeps Q (fun _ => wallBounce e)).
intros _ P. by apply wallBounce_keeps.
Qed.
End Frames.

(** ** Merge aggregation *)

Section Merging.
Context {F : Type} `{Float64 F}.
Variable rt : GoRuntime.
Implicit Types (h : list (Particle F)) (a p o m : addr) (P : Particle F)
               (e : EngineData F) (Q : Particle F -> Prop) (st : @Mergers F).

Lemma aggregatePartner_fold_length p l (ag : Aggregate) :
  length (a_heap (foldl (aggregatePartner p) ag l)) = length (a_heap ag).
Proof.
revert ag. induction l as [|o l IH]; intros ag; simpl; [done|].
rewrite IH. simpl. by rewrite length_alter.
Qed.

Lemma aggregate_length h p : length (a_heap (aggregate rt h p)) = length h.
Proof. unfold aggregate. by rewrite aggregatePartner_fold_length. Qed.

Lemma aggregatePartner_fold_keeps Q p l (ag : Aggregate) a :
  (forall P, Q P -> Q (set_MergingWith (MergingWith P ∖ {[p]}) P)) ->
  Q (deref (a_heap ag) a) -> Q (deref (a_heap (foldl (aggregatePartner p) ag l)) a).
Proof.
intros HQ. revert ag. induction l as [|o l IH]; intros ag Ha; simpl; [done|].
apply IH. simpl. apply (alter_keeps Q); auto.
Qed.

Lemma aggregate_keeps Q h p a :
  (forall P, Q P -> Q (set_MergingWith (MergingWith P ∖ {[p]}) P)) ->
  Q (deref h a) -> Q (deref (a_heap (aggregate rt h p)) a).
Proof. intros HQ Ha. unfold aggregate. by apply aggregatePartner_fold_keeps. Qed.

(** One visit of the merger loop: the objects keep [Q]. *)
Lemma mergeVisit_old Q i p st :
  kept_by_unlinking Q ->
  let st' := mergeVisit rt i p st in
  length (m_heap st) ≤ length (m_heap st') /\
  (forall a, a < length (m_heap st) ->
             Q (deref (m_heap st) a) -> Q (deref (m_heap st') a)).
Proof.
intros [Hun Hcl]. unfold mergeVisit.
destruct (merging (deref (m_heap st) p)); [|by auto].
destruct (bool_decide (0 < size (MergingWith (deref (m_heap st) p)))) eqn:Hc.
- unfold alloc. cbv zeta.
  pose proof (aggregate_length (m_heap st) p) as Hlen.
  set (ag := aggregate rt (m_heap st) p) in *.
  simpl. rewrite length_app, Hlen. simpl. split; [lia|].
  intros a Ha HQ. rewrite deref_alloc_old by lia.
  apply aggregate_keeps; auto.
- apply bool_decide_eq_false in Hc. simpl. rewrite length_alter.
  split; [lia|].
  intros a Ha HQ.
  destruct (deref_alter (set_merging false) p a (m_heap st)) as [->|(-> & _ & ->)]; auto.
  apply Hcl; auto.
  apply leibniz_equiv, size_empty_iff. lia.
Qed.

(** A particle added by the visit has [Q] when the visited root has
    [Qroot]. *)
Lemma mergeVisit_new Q (Qroot : Particle F -> Prop) i p st :
  (forall P p', Qroot P -> Qroot (set_MergingWith (MergingWith P ∖ {[p']}) P)) ->
  (forall (ag : Aggregate) P, Qroot P -> Q (mergedParticle ag P)) ->
  Qroot (deref (m_heap st) p) ->
  let st' := mergeVisit rt i p st in
  forall m, m ∈ addList st' ->
            m ∈ addList st \/ (m < length (m_heap st') /\ Q (deref (m_heap st') m)).
Proof.
intros Hroot Hpass Hp. unfold mergeVisit.
destruct (merging (deref (m_heap st) p)); [|by auto].
destruct (bool_decide (0 < size (MergingWith (deref (m_heap st) p)))) eqn:Hc;
  [|simpl; by auto].
unfold alloc. cbv zeta.
pose proof (aggregate_length (m_heap st) p) as Hlen.
set (ag := aggregate rt (m_heap st) p) in *.
simpl. rewrite length_app. simpl.
intros m Hm. apply elem_of_app in Hm as [Hm|Hm]; [by left|right].
apply list_elem_of_singleton in Hm as ->.
split; [lia|].
rewrite deref_alloc_new. apply Hpass.
apply (aggregate_keeps Qroot); auto.
Qed.

Lemma mergeLoop_keeps Q (Qroot : Particle F -> Prop) ps : forall i st,
  kept_by_unlinking Q -> kept_by_unlinking Qroot ->
  (forall (ag : Aggregate) P, Qroot P -> Q (mergedParticle ag P)) ->
  (forall p, p ∈ ps -> p < length (m_heap st) /\ Qroot (deref (m_heap st) p)) ->
  let st' := mergeLoop rt ps i st in
  length (m_heap st) ≤ length (m_heap st') /\
  (forall a, a < length (m_heap st) ->
             Q (deref (m_heap st) a) -> Q (deref (m_heap st') a)) /\
  (forall m, m ∈ addList st' ->
             m ∈ addList st \/ (m < length (m_heap st') /\ Q (deref (m_heap st') m))).
Proof.
induction ps as [|p ps IH]; intros i st HQ HR Hpass Hps; simpl; [by auto|].
destruct (Hps p) as [Hp HpR]; [left|].
destruct (mergeVisit_old Q i p st HQ) as (Hl1 & Hk1).
pose proof (mergeVisit_new Q Qroot i p st (proj1 HR) Hpass HpR) as Ha1.
destruct (mergeVisit_old Qroot i p st HR) as (_ & Hr1).
destruct (IH (S i) (mergeVisit rt i p st) HQ HR Hpass) as (Hl2 & Hk2 & Ha2).
{ intros q Hq. destruct (Hps q) as [Hq1 Hq2]; [by right|]. split; [lia|]. by apply Hr1. }
split; [lia|]. split.
- intros a Ha Hq. apply Hk2; [lia|]. by apply Hk1.
- intros m Hm. destruct (Ha2 m Hm) as [Hm'|Hm']; [|by right].
  destruct (Ha1 m Hm') as [?|[Hl Hq]]; [by left|right].
  split; [lia|]. by apply Hk2.
Qed.

Lemma removeAt_elem (l : list addr) i x : x ∈ removeAt l i -> x ∈ l.
Proof.
unfold removeAt. destruct (last l) as [y|] eqn:Hl; [|done].
intros Hx. apply elem_of_take in Hx as (j & Hj & _).
apply list_lookup_insert_Some in Hj as [(_ & -> & _)|(_ & Hj)].
- by apply last_Some_elem_of.
- by apply list_elem_of_lookup_2 in Hj.
Qed.

Lemma foldl_removeAt_elem dl : forall (l : list addr) x, x ∈ foldl removeAt l dl -> x ∈ l.
Proof.
induction dl as [|i dl IH]; intros l x Hx; simpl in Hx; [done|].
apply IH in Hx. by apply removeAt_elem in Hx.
Qed.

(** The merger phase keeps [Q] on the roster and leaves no dangling
    pointer in it. *)
Lemma handleMergers_keeps Q e :
  kept_by_merging Q -> valid_roster e -> roster_all Q e ->
  roster_all Q (handleMergers rt e).1 /\ valid_roster (handleMergers rt e).1.
Proof.
intros [Hun Hcl Hpass] Hv Hall.
assert (HQ : kept_by_unlinking Q) by (split; auto).
destruct (mergeLoop_keeps Q Q (Particles e) 0
            (mkMergers (heap e) [] [] false false None None) HQ HQ Hpass)
  as (Hl & Hk & Ha).
{ intros p Hp. simpl. split; [by apply Hv|by apply Hall]. }
unfold handleMergers. cbv zeta. simpl in *.
split.
- intros a Hin. simpl in *. apply elem_of_app in Hin as [Hin|Hin].
  + apply foldl_removeAt_elem in Hin. apply Hk; [by apply Hv|by apply Hall].
  + destruct (Ha a Hin) as [Hn|[_ Hq]]; [by apply elem_of_nil in Hn|done].
- intros a Hin. simpl in *. apply elem_of_app in Hin as [Hin|Hin].
  + apply foldl_removeAt_elem in Hin. specialize (Hv a Hin). lia.
  + destruct (Ha a Hin) as [Hn|[Hlm _]]; [by apply elem_of_nil in Hn|done].
Qed.
End Merging.

(** ** The whole tick *)

Section WholeTick.
Context {F : Type} `{Float64 F}.
Variable rt : GoRuntime.
Implicit Types (h : list (Particle F)) (a p o : addr) (P : Particle F)
               (e : EngineData F) (Q : Particle F -> Prop).

Lemma UpdateParticles_engine e :
  (UpdateParticles rt e).1 =
  if WallBounce (afterMergers rt e) then handleWalls (afterMergers rt e) else afterMergers rt e.
Proof.
unfold UpdateParticles, afterMergers, afterSort.
destruct (AllowMerge _); [destruct (handleMergers _ _)|]; simpl; by destruct (WallBounce _).
Qed.

Lemma afterSort_keeps Q e :
  sort_Slice_spec rt ->
  kept_in_motion Q -> (AllowMerge e = true -> kept_by_marking Q) -> kept_by_history Q ->
  valid_roster e -> roster_all Q e ->
  roster_all Q (afterSort rt e) /\ valid_roster (afterSort rt e).
Proof.
intros Hsort Hm Hk Hh Hv Hall.
assert (Hperm : forall a, a ∈ Particles (afterSort rt e) -> a ∈ Particles e).
{ intros a Ha. unfold afterSort, sortParticles in Ha. simpl in Ha.
  by rewrite (proj1 (Hsort _ _ _)) in Ha. }
split; intros a Ha; apply Hperm in Ha;
  change (heap (afterSort rt e))
    with (heap (updateParticlePositions (updateParticleVelocities e))).
- apply positions_keeps; auto. apply velocities_keeps; auto.
- rewrite positions_length, velocities_length. by apply Hv.
Qed.

(** A property kept by every update of the tick holds on the roster
    after the tick when it held before. *)
Lemma UpdateParticles_keeps Q e :
  sort_Slice_spec rt ->
  kept_in_motion Q -> (AllowMerge e = true -> kept_by_marking Q) -> kept_by_history Q ->
  kept_by_merging Q ->
  valid_roster e -> roster_all Q e ->
  roster_all Q (UpdateParticles rt e).1 /\ valid_roster (UpdateParticles rt e).1.
Proof.
intros Hsort Hm Hk Hh Hg Hv Hall.
destruct (afterSort_keeps Q e Hsort Hm Hk Hh Hv Hall) as [Hall3 Hv3].
assert (H4 : roster_all Q (afterMergers rt e) /\ valid_roster (afterMergers rt e)).
{ unfold afterMergers. destruct (AllowMerge (afterSort rt e)); [|done].
  by apply handleMergers_keeps. }
destruct H4 as [Hall4 Hv4].
rewrite UpdateParticles_engine. destruct (WallBounce (afterMergers rt e)); [|done].
split; intros a Ha.
- apply walls_keeps; auto.
- unfold valid_roster in Hv4. rewrite walls_length. by apply Hv4.
Qed.
End WholeTick.

(** ** The position history *)

Section History.
Context {F : Type} `{Float64 F}.
Implicit Types (h : list (Particle F)) (a p : addr) (P : Particle F)
               (e : EngineData F) (app : App F).
Local Open Scope Z_scope.





Lemma resizeHistory_total value P :
  0 <= value -> resizeHistory value P = Some (resize value P).
Proof.
intros Hv. unfold resizeHistory, resize, slice_from, newest.
destruct (Z.ltb_spec value (Z.of_nat (length (positionHistory P)))) as [Hlt|Hge].
- rewrite (proj2 (Z.leb_le _ _)) by lia. rewrite (proj2 (Z.leb_le _ _)) by lia.
  replace (Z.to_nat (Z.of_nat (length (positionHistory P)) - value))
    with (length (positionHistory P) - Z.to_nat value)%nat by lia.
  reflexivity.
- replace (length (positionHistory P) - Z.to_nat value)%nat with 0%nat by lia.
  rewrite drop_0. by destruct P.
Qed.

Lemma insert_deref_alter (fn : Particle F -> Particle F) p h :
  <[p := fn (deref h p)]> h = alter fn p h.
Proof.
unfold deref. revert p. induction h as [|x h IH]; intros [|p]; simpl; try done.
f_equal. apply IH.
Qed.

Lemma resizeAll_total value ps : forall h,
  0 <= value ->
  resizeAll value ps h = Some (foldl (fun h p => alter (resize value) p h) h ps).
Proof.
unfold resizeAll.
induction ps as [|p ps IH]; intros h Hv; simpl; [done|].
rewrite resizeHistory_total by done. simpl.
rewrite insert_deref_alter. by apply IH.
Qed.



Lemma HistoryTrailLengthChangedEvent_total value app :
  0 <= value ->
  HistoryTrailLengthChangedEvent value app =
  Some (with_engine
          (set_heap (foldl (fun h p => alter (resize value) p h)
                           (heap (engine app)) (Particles (engine app)))
                    (engine app))
          (set_State (set_HistoryLength value (State app)) app)).
Proof.
intros Hv. unfold HistoryTrailLengthChangedEvent. cbv zeta.
change (engine (set_State (set_HistoryLength value (State app)) app)) with (engine app).
by rewrite resizeAll_total.
Qed.
End History.

Section HistoryBound.
Context {F : Type} `{Float64 F}.
Implicit Types (P : Particle F) (e : EngineData F) (app : App F).
Local Open Scope Z_scope.

End HistoryBound.

(** ** The configuration handlers *)

Section Configuration.
Context {F : Type} `{Float64 F}.
Implicit Types (e : EngineData F) (app : App F).
Local Open Scope Z_scope.



End Configuration.




(** ** No merge state survives a tick *)

Section NoPendingMerge.
Context {F : Type} `{Float64 F}.
Variable rt : GoRuntime.
Implicit Types (h : list (Particle F)) (a p o m : addr) (P : Particle F)
               (e : EngineData F) (st : @Mergers F).

Lemma empty_difference (X : gset addr) : (∅ : gset addr) ∖ X = ∅.
Proof.
apply set_eq. intros x. rewrite elem_of_difference.
split; [intros [Hx _]|intros Hx]; by apply not_elem_of_empty in Hx.
Qed.

Lemma NewParticle_unmarked mass closeCharge farCharge x y :
  unmarked (NewParticle mass closeCharge farCharge x y).
Proof.
destruct (NewParticle_reset mass closeCharge farCharge x y) as (_&_&_&?&?&_).
by split.
Qed.

Lemma mergedParticle_unmarked (ag : Aggregate) P : unmarked (mergedParticle ag P).
Proof. unfold mergedParticle. apply NewParticle_unmarked. Qed.

Lemma UpdatePosition_marks P :
  merging (UpdatePosition P) = merging P /\ MergingWith (UpdatePosition P) = MergingWith P.
Proof. unfold UpdatePosition. by destruct (trackHistory P). Qed.

Lemma unmarked_kept :
  kept_in_motion (F:=F) unmarked /\ kept_by_history (F:=F) unmarked /\ kept_by_merging (F:=F) unmarked.
Proof.
split; [by split|]. split.
- intros P [H1 H2]. destruct (UpdatePosition_marks P) as [E1 E2].
  split; congruence.
- split.
  + intros P p [H1 H2]. split; [done|]. simpl. rewrite H2. apply empty_difference.
  + by intros P [H1 H2] _.
  + intros ag P _. apply mergedParticle_unmarked.
Qed.

Lemma marked_if_linked_kept :
  kept_in_motion (F:=F) marked_if_linked /\ kept_by_marking (F:=F) marked_if_linked /\
  kept_by_history (F:=F) marked_if_linked /\ kept_by_merging (F:=F) marked_if_linked.
Proof.
split; [by split|]. split; [by intros P X|]. split.
- intros P HP. unfold marked_if_linked.
  destruct (UpdatePosition_marks P) as [-> ->]. done.
- split.
  + intros P p HP Hm. simpl in *. rewrite (HP Hm). apply empty_difference.
  + by intros P HP He _.
  + intros ag P _ _. apply mergedParticle_unmarked.
Qed.

Lemma not_merging_unlinking : kept_by_unlinking (F:=F) not_merging.
Proof. by split. Qed.

Lemma anything_unlinking : kept_by_unlinking (fun _ : Particle F => True).
Proof. by split. Qed.

Lemma mergedParticle_not_merging (ag : Aggregate) P : not_merging (mergedParticle ag P).
Proof. apply mergedParticle_unmarked. Qed.

Lemma mergeVisit_deleteList i p st :
  deleteList (mergeVisit rt i p st)
  = deleteList st ++ (if merging (deref (m_heap st) p) then [i] else []).
Proof.
unfold mergeVisit. destruct (merging _); [|by rewrite app_nil_r].
destruct (bool_decide _); [|done]. by destruct (alloc _ _).
Qed.

Lemma mergeVisit_unvisited i p st :
  merging (deref (m_heap st) p) = false -> mergeVisit rt i p st = st.
Proof. intros Hm. unfold mergeVisit. by rewrite Hm. Qed.

(** The indices the merger loop puts on [deleteList] ascend, and a
    particle whose index is not among them is not merging. *)
Lemma mergeLoop_deleted ps : forall i st,
  (forall p, p ∈ ps -> p < length (m_heap st)) ->
  let st' := mergeLoop rt ps i st in
  exists dl,
    deleteList st' = deleteList st ++ dl /\
    StronglySorted lt dl /\
    (forall d, d ∈ dl -> i ≤ d < i + length ps) /\
    (forall j p, ps !! j = Some p -> i + j ∉ dl ->
                 not_merging (deref (m_heap st') p)).
Proof.
induction ps as [|p ps IH]; intros i st Hps; simpl.
- exists []. rewrite app_nil_r. split; [done|]. split; [constructor|]. split.
  + intros d Hd. by apply elem_of_nil in Hd.
  + intros j p Hj. by rewrite lookup_nil in Hj.
- destruct (mergeVisit_old rt not_merging i p st not_merging_unlinking) as (Hl1 & _).
  destruct (IH (S i) (mergeVisit rt i p st)) as (dl & Hdl & Hsorted & Hrange & Hsurv).
  { intros q Hq. assert (q < length (m_heap st)) by (apply Hps; by right). lia. }
  rewrite mergeVisit_deleteList, <- app_assoc in Hdl.
  eexists. split; [exact Hdl|].
  destruct (merging (deref (m_heap st) p)) eqn:Hm; simpl.
  + split; [|split].
    * constructor; [done|]. apply Forall_forall. intros d Hd.
      specialize (Hrange d Hd). lia.
    * intros d Hd. apply elem_of_cons in Hd as [->|Hd]; [lia|].
      specialize (Hrange d Hd). lia.
    * intros [|j] q Hj Hnin.
      -- destruct Hnin. rewrite Nat.add_0_r. left.
      -- simpl in Hj. apply (Hsurv j q Hj). intros Hin. apply Hnin.
         right. by replace (i + S j) with (S i + j) by lia.
  + split; [done|split].
    * intros d Hd. specialize (Hrange d Hd). lia.
    * intros [|j] q Hj Hnin.
      -- simpl in Hj. injection Hj as <-.
         rewrite (mergeVisit_unvisited i p st Hm).
         destruct (mergeLoop_keeps rt not_merging (fun _ => True) ps (S i) st
                     not_merging_unlinking anything_unlinking
                     (fun ag P _ => mergedParticle_not_merging ag P))
           as (_ & Hk & _).
         ++ intros q Hq. split; [|done]. apply Hps. by right.
         ++ apply Hk; [apply Hps; left|done].
      -- simpl in Hj. apply (Hsurv j q Hj). intros Hin. apply Hnin.
         by replace (i + S j) with (S i + j) by lia.
Qed.

(** Swap-with-last removal at descending indices removes exactly the
    elements at those indices. *)
Lemma foldl_removeAt_survivors dl : forall (l : list addr) x,
  StronglySorted gt dl -> (forall d, d ∈ dl -> d < length l) ->
  x ∈ foldl removeAt l dl -> exists j, l !! j = Some x /\ j ∉ dl.
Proof.
induction dl as [|i dl IH]; intros l x Hsorted Hrange Hx; simpl in Hx.
- apply list_elem_of_lookup_1 in Hx as [j Hj]. exists j. split; [done|].
  intros Hin. by apply elem_of_nil in Hin.
- apply StronglySorted_cons in Hsorted as [Hlt Hsorted].
  rewrite Forall_forall in Hlt.
  assert (Hi : i < length l) by (apply Hrange; left).
  assert (Hlen : length (removeAt l i) = length l - 1).
  { unfold removeAt. destruct (last l) eqn:Hlast.
    - rewrite length_take, length_insert. lia.
    - apply last_None in Hlast. subst l. simpl in Hi. lia. }
  destruct (IH (removeAt l i) x Hsorted) as (j & Hj & Hnin); [|done|].
  { intros d Hd. specialize (Hlt d Hd). unfold gt in Hlt. lia. }
  unfold removeAt in Hj. destruct (last l) as [y|] eqn:Hlast.
  + apply lookup_take_Some in Hj as [Hj Hjl].
    apply list_lookup_insert_Some in Hj as [(<- & -> & _)|(Hne & Hj)].
    * exists (pred (length l)). split; [by rewrite <- last_lookup|].
      intros Hin. apply elem_of_cons in Hin as [Heq|Hin]; [lia|].
      specialize (Hlt _ Hin). unfold gt in Hlt. lia.
    * exists j. split; [done|].
      intros Hin. apply elem_of_cons in Hin as [Heq|Hin]; [by subst|done].
  + apply last_None in Hlast. subst l. simpl in Hi. lia.
Qed.

Lemma descending_strict (l : list nat) :
  StronglySorted (fun x y => bool_decide (x < y) = false) l -> NoDup l ->
  StronglySorted gt l.
Proof.
induction 1 as [|x l Hs IH Hx]; intros Hnd; [constructor|].
apply NoDup_cons in Hnd as [Hnin Hnd].
constructor; [auto|]. rewrite Forall_forall in *. intros y Hy.
specialize (Hx y Hy). apply bool_decide_eq_false in Hx.
assert (x ≠ y) by (intros ->; done). unfold gt. lia.
Qed.

Lemma ascending_NoDup (l : list nat) : StronglySorted lt l -> NoDup l.
Proof.
induction 1 as [|x l Hs IH Hx]; [constructor|].
apply NoDup_cons. split; [|done].
intros Hin. rewrite Forall_forall in Hx. specialize (Hx x Hin). lia.
Qed.

Lemma index_order_strict_weak (l : list nat) :
  strict_weak_on (fun i j : nat => bool_decide (j < i)) l.
Proof.
repeat split.
- intros x _. apply bool_decide_eq_false. lia.
- intros x y z _ _ _ Hxy Hyz.
  apply bool_decide_eq_true in Hxy, Hyz. apply bool_decide_eq_true. lia.
- intros x y z _ _ _ Hxy Hyz.
  apply bool_decide_eq_false in Hxy, Hyz. apply bool_decide_eq_false. lia.
Qed.

(** After the merger phase nothing on the roster is merging. *)
Lemma handleMergers_not_merging e :
  sort_Slice_spec rt -> valid_roster e ->
  roster_all not_merging (handleMergers rt e).1.
Proof.
intros Hsort Hv.
set (st0 := mkMergers (heap e) [] [] false false None None).
destruct (mergeLoop_deleted (Particles e) 0 st0) as (dl & Hdl & Hsorted & Hrange & Hsurv).
{ intros p Hp. by apply Hv. }
destruct (mergeLoop_keeps rt not_merging (fun _ => True) (Particles e) 0 st0
            not_merging_unlinking anything_unlinking
            (fun ag P _ => mergedParticle_not_merging ag P))
  as (_ & _ & Hadd).
{ intros p Hp. split; [by apply Hv|done]. }
simpl in Hdl.
destruct (Hsort nat (fun i j : nat => bool_decide (j < i)) dl) as [Hperm Hdesc].
specialize (Hdesc (index_order_strict_weak dl)).
intros a Ha. unfold handleMergers in *. cbv zeta in *. simpl in Ha. simpl.
fold st0 in Ha |- *. rewrite Hdl in Ha.
apply elem_of_app in Ha as [Ha|Ha].
- apply foldl_removeAt_survivors in Ha as (j & Hj & Hnin).
  + apply (Hsurv j a Hj). simpl. intros Hin. apply Hnin. by rewrite Hperm.
  + apply descending_strict; [done|].
    rewrite Hperm. by apply ascending_NoDup.
  + intros d Hd. rewrite Hperm in Hd. specialize (Hrange d Hd). simpl in Hrange. lia.
- destruct (Hadd a Ha) as [Hn|[_ Hq]]; [by apply elem_of_nil in Hn|done].
Qed.

(** C9.  After a tick no particle of the roster is merging and every
    [MergingWith] on the roster is empty, provided this was so before the
    tick (as it is for generated, loaded and restored particles): merge
    state set during the tick is gone with the particles that carried it,
    and the merged particles start without any. *)
Theorem C9_no_merge_state_after_tick e :
  sort_Slice_spec rt -> valid_roster e ->
  roster_all unmarked e -> roster_all unmarked (UpdateParticles rt e).1.
Proof.
intros Hsort Hv Hall.
destruct unmarked_kept as (U1 & U2 & U3).
destruct (AllowMerge e) eqn:Hallow.
- destruct marked_if_linked_kept as (K1 & K2 & K3 & K4).
  assert (Hlinked : roster_all marked_if_linked e).
  { intros a Ha. destruct (Hall a Ha) as [_ Hm]. by intros _. }
  destruct (UpdateParticles_keeps rt marked_if_linked e) as [HJ _]; auto.
  destruct (afterSort_keeps rt marked_if_linked e) as [_ Hv3]; auto.
  assert (Hnm : roster_all not_merging (UpdateParticles rt e).1).
  { rewrite UpdateParticles_engine. unfold afterMergers.
    change (AllowMerge (afterSort rt e)) with (AllowMerge e). rewrite Hallow.
    pose proof (handleMergers_not_merging (afterSort rt e) Hsort Hv3) as Hm.
    destruct (WallBounce _); [|done].
    intros a Ha. apply walls_keeps; [by split|]. by apply Hm. }
  intros a Ha. split; [by apply Hnm|]. apply HJ; [done|by apply Hnm].
- destruct (UpdateParticles_keeps rt unmarked e) as [HU _]; auto.
  intros Habs. congruence.
Qed.
End NoPendingMerge.

Lemma C9_no_merge_state_after_tick_witness :
  roster_all unmarked (UpdateParticles runtime Examples.contact).1.
Proof.
apply (C9_no_merge_state_after_tick runtime Examples.contact).
- exact runtime_sort_spec.
- intros a Ha. roster_cases Ha; simpl; lia.
- intros a Ha. roster_cases Ha; by vm_compute.
Defined.

(** ** The order of the roster *)

Section MassOrder.
Variable rt : GoRuntime.
Implicit Types (e : EngineData spec_float) (P : Particle spec_float).



End MassOrder.



(** ** The roster stays a list of distinct objects *)

Section Roster.
Context {F : Type} `{Float64 F}.
Variable rt : GoRuntime.
Implicit Types (h : list (Particle F)) (a p m : addr) (e : EngineData F) (st : @Mergers F).

Lemma NoDup_insert_fresh (l : list addr) i y : NoDup l -> y ∉ l -> NoDup (<[i:=y]> l).
Proof.
revert i. induction l as [|x l IH]; intros i Hnd Hy; [done|].
apply NoDup_cons in Hnd as [Hx Hnd]. apply not_elem_of_cons in Hy as [Hne Hy].
destruct i as [|i]; simpl.
- apply NoDup_cons. by split.
- apply NoDup_cons. split; [|by apply IH].
  intros Hin. apply list_elem_of_lookup_1 in Hin as [j Hj].
  apply list_lookup_insert_Some in Hj as [(_ & -> & _)|(_ & Hj)]; [done|].
  apply Hx. by apply list_elem_of_lookup_2 in Hj.
Qed.

Lemma removeAt_NoDup (l : list addr) i : NoDup l -> NoDup (removeAt l i).
Proof.
intros Hnd. unfold removeAt. destruct (last l) as [y|] eqn:Hlast; [|done].
apply last_Some in Hlast as [l' ->].
rewrite length_app. simpl. replace (length l' + 1 - 1) with (length l') by lia.
apply NoDup_app in Hnd as (Hnd & Hdis & _).
destruct (decide (i < length l')) as [Hi|Hi].
- rewrite insert_app_l by done. rewrite take_app_length'; [|by rewrite length_insert].
  apply NoDup_insert_fresh; [done|].
  intros Hin. apply (Hdis y Hin). left.
- rewrite take_insert_ge by lia. by rewrite take_app_length.
Qed.

Lemma foldl_removeAt_NoDup dl : forall l : list addr, NoDup l -> NoDup (foldl removeAt l dl).
Proof.
induction dl as [|i dl IH]; intros l Hnd; simpl; [done|].
by apply IH, removeAt_NoDup.
Qed.

Lemma mergeVisit_additions n i p st :
  n ≤ length (m_heap st) -> fresh_additions n st ->
  fresh_additions n (mergeVisit rt i p st) /\
  length (m_heap st) ≤ length (m_heap (mergeVisit rt i p st)).
Proof.
intros Hn [Hnd Hr]. unfold mergeVisit, fresh_additions.
destruct (merging (deref (m_heap st) p)); [|split; [by split|lia]].
destruct (bool_decide _).
- unfold alloc. cbv zeta.
  pose proof (aggregate_length rt (m_heap st) p) as Hlen.
  set (ag := aggregate rt (m_heap st) p) in *.
  simpl. rewrite length_app, Hlen. simpl. split; [|lia]. split.
  + apply NoDup_app. split; [done|]. split; [|apply NoDup_singleton].
    intros m Hm Hin. apply list_elem_of_singleton in Hin as ->.
    specialize (Hr _ Hm). lia.
  + intros m Hm. apply elem_of_app in Hm as [Hm|Hm].
    * specialize (Hr _ Hm). lia.
    * apply list_elem_of_singleton in Hm as ->. lia.
- simpl. rewrite length_alter. split; [by split|lia].
Qed.

Lemma mergeLoop_additions n ps : forall i st,
  n ≤ length (m_heap st) -> fresh_additions n st ->
  fresh_additions n (mergeLoop rt ps i st).
Proof.
induction ps as [|p ps IH]; intros i st Hn Hf; simpl; [done|].
destruct (mergeVisit_additions n i p st Hn Hf) as [Hf' Hl].
apply IH; [lia|done].
Qed.

Lemma handleMergers_sound e : sound_roster e -> sound_roster (handleMergers rt e).1.
Proof.
intros [Hnd Hv].
set (st0 := mkMergers (heap e) [] [] false false None None).
destruct (mergeLoop_additions (length (heap e)) (Particles e) 0 st0) as [Hadd Hrange].
{ done. }
{ split; [constructor|]. intros m Hm. by apply elem_of_nil in Hm. }
split.
- unfold handleMergers. cbv zeta. simpl. fold st0.
  apply NoDup_app. split; [by apply foldl_removeAt_NoDup|]. split; [|done].
  intros a Ha Hin. apply foldl_removeAt_elem in Ha.
  specialize (Hv a Ha). specialize (Hrange a Hin). lia.
- apply (handleMergers_keeps rt (fun _ => True)); [by split|done|done].
Qed.

Lemma afterSort_sound e :
  sort_Slice_spec rt -> sound_roster e -> sound_roster (afterSort rt e).
Proof.
intros Hsort [Hnd Hv]. split.
- unfold afterSort, sortParticles. simpl. by rewrite (proj1 (Hsort _ _ _)).
- by apply (afterSort_keeps rt (fun _ => True)).
Qed.

Lemma afterMergers_sound e :
  sort_Slice_spec rt -> sound_roster e -> sound_roster (afterMergers rt e).
Proof.
intros Hsort Hs. unfold afterMergers.
pose proof (afterSort_sound e Hsort Hs).
destruct (AllowMerge _); [by apply handleMergers_sound|done].
Qed.
End Roster.

(** ** The walls *)

Section Walls.
Variable rt : GoRuntime.
Implicit Types (e : EngineData spec_float) (P : Particle spec_float) (a : addr).
Local Open Scope f64_scope.





End Walls.



(** ** The merged particle, in exact arithmetic *)

Section MergedParticle.
Variable rt : GoRuntime.
Implicit Types (h : list (Particle R)) (P : Particle R) (p o : addr)
               (w : Particle R -> R) (st : @Mergers R).
Local Open Scope R_scope.













End MergedParticle.


Section Trail.
Context {F : Type} `{Float64 F}.
Implicit Types (P : Particle F).
Local Open Scope Z_scope.

Lemma UpdatePosition_trail_settings P :
  trackHistory (UpdatePosition P) = trackHistory P /\
  historySize (UpdatePosition P) = historySize P.
Proof. unfold UpdatePosition. by destruct (trackHistory P) eqn:E; simpl; rewrite ?E. Qed.

Lemma moved_trail_settings n P :
  trackHistory (moved n P) = trackHistory P /\ historySize (moved n P) = historySize P.
Proof.
induction n as [|n [IH1 IH2]]; [done|].
change (moved (S n) P) with (UpdatePosition (moved n P)).
destruct (UpdatePosition_trail_settings (moved n P)) as [-> ->]. done.
Qed.

Lemma path_S n P : path (S n) P = path n P ++ [Position (moved n P)].
Proof. unfold path. by rewrite seq_S, fmap_app. Qed.

Lemma newest_snoc {A} (k : Z) (l : list A) (x : A) :
  0 <= k ->
  (if k <? Z.of_nat (length (newest k l ++ [x])) then drop 1 (newest k l ++ [x])
   else newest k l ++ [x])
  = newest k (l ++ [x]).
Proof.
intros Hk. unfold newest. rewrite !length_app, length_drop. simpl.
destruct (Z.ltb_spec k (Z.of_nat (length l - (length l - Z.to_nat k) + 1))) as [Hlt|Hge].
- rewrite <- drop_app_le by lia. rewrite drop_drop. f_equal. lia.
- replace (length l - Z.to_nat k)%nat with 0%nat by lia.
  replace (length l + 1 - Z.to_nat k)%nat with 0%nat by lia.
  by rewrite !drop_0.
Qed.

(** X1.  The position history is a first-in-first-out buffer of the
    positions the particle has left: after [n] position updates of a
    particle that tracks its history, and whose history fitted its size,
    it holds the newest [historySize] entries of the old history followed
    by the [n] positions passed through, oldest first. *)
Theorem X1_history_is_fifo n P :
  trackHistory P = true -> history_fits P ->
  positionHistory (moved n P) = newest (historySize P) (positionHistory P ++ path n P).
Proof.
intros Ht Hfit. unfold history_fits in Hfit.
induction n as [|n IH].
- unfold path, newest. simpl. rewrite app_nil_r.
  replace (length (positionHistory P) - Z.to_nat (historySize P))%nat with 0%nat by lia.
  by rewrite drop_0.
- change (moved (S n) P) with (UpdatePosition (moved n P)).
  rewrite path_S, app_assoc.
  unfold UpdatePosition. destruct (moved_trail_settings n P) as [-> ->].
  rewrite Ht. simpl. rewrite IH.
  apply newest_snoc. lia.
Qed.
End Trail.

Section Handlers.
Context {F : Type} `{Float64 F}.
Implicit Types (h : list (Particle F)) (a p s : addr) (P : Particle F)
               (e : EngineData F) (app : App F).
Local Open Scope Z_scope.

Lemma resizeHistory_negative value P : value < 0 -> resizeHistory value P = None.
Proof.
intros Hv. unfold resizeHistory, slice_from.
rewrite (proj2 (Z.ltb_lt _ _)) by lia.
rewrite (proj2 (Z.leb_le 0 _)) by lia.
by rewrite (proj2 (Z.leb_gt _ _)) by lia.
Qed.

Lemma resizeAll_negative value ps h :
  value < 0 -> ps <> [] -> resizeAll value ps h = None.
Proof.
intros Hv Hps. destruct ps as [|p ps]; [done|].
unfold resizeAll. simpl. rewrite resizeHistory_negative by done. simpl.
clear. induction ps as [|q ps IH]; [done|apply IH].
Qed.

(** X2.  The handler of the history length panics exactly when the
    length is negative and there is a particle: the slice expression that
    truncates a history then starts beyond its end. *)
Theorem X2_negative_history_length_panics value app :
  HistoryTrailLengthChangedEvent value app = None
  <-> value < 0 /\ Particles (engine app) <> [].
Proof.
split.
- intros Hnone. destruct (Z.lt_ge_cases value 0) as [Hv|Hv].
  + split; [done|]. intros Hps.
    unfold HistoryTrailLengthChangedEvent in Hnone. cbv zeta in Hnone.
    change (engine (set_State (set_HistoryLength value (State app)) app))
      with (engine app) in Hnone.
    by rewrite Hps in Hnone.
  + by rewrite HistoryTrailLengthChangedEvent_total in Hnone.
- intros [Hv Hps]. unfold HistoryTrailLengthChangedEvent. cbv zeta.
  change (engine (set_State (set_HistoryLength value (State app)) app)) with (engine app).
  by rewrite resizeAll_negative.
Qed.
End Handlers.

Section Fresh.
Context {F : Type} `{Float64 F}.
Implicit Types (h : list (Particle F)) (a p s : addr) (P : Particle F)
               (e : EngineData F) (app : App F).

Lemma foldl_alter_outside (fn : Particle F -> Particle F) ps : forall h a,
  a ∉ ps -> deref (foldl (fun h p => alter fn p h) h ps) a = deref h a.
Proof.
induction ps as [|p ps IH]; intros h a Hnin; simpl; [done|].
apply not_elem_of_cons in Hnin as [Hne Hnin].
rewrite IH by done. by apply deref_alter_ne.
Qed.

Lemma foldl_alter_inside (fn : Particle F -> Particle F) ps : forall h a,
  NoDup ps -> a ∈ ps -> a < length h ->
  deref (foldl (fun h p => alter fn p h) h ps) a = fn (deref h a).
Proof.
induction ps as [|p ps IH]; intros h a Hnd Ha Hl; [by apply elem_of_nil in Ha|].
apply NoDup_cons in Hnd as [Hnin Hnd]. simpl.
apply elem_of_cons in Ha as [->|Ha].
- rewrite foldl_alter_outside by done. by apply deref_alter_eq.
- rewrite IH by (rewrite ?length_alter; auto).
  rewrite deref_alter_ne; [done|]. intros ->. done.
Qed.

Lemma deref_app_l h l a : a < length h -> deref (h ++ l) a = deref h a.
Proof. intros. unfold deref. by apply lookup_total_app_l. Qed.

Lemma deref_app_r h (l : list (Particle F)) i P :
  l !! i = Some P -> deref (h ++ l) (length h + i) = P.
Proof.
intros Hl. unfold deref. apply list_lookup_total_correct.
rewrite lookup_app_r by lia. by replace (length h + i - length h) with i by lia.
Qed.

(** A loop that allocates one object per element of [src]: the objects
    are appended to the heap in order, and the pointers to them are the
    next free addresses. *)
Lemma alloc_all {A} (mk : list (Particle F) -> A -> Particle F) (src : list A) h :
  (forall x extra, x ∈ src -> mk (h ++ extra) x = mk h x) ->
  foldl (fun '(h, out) x => let '(h', a) := alloc h (mk h x) in (h', out ++ [a]))
        (h, []) src
  = (h ++ (mk h <$> src), seq (length h) (length src)).
Proof.
intros Hmk.
assert (Hgen : forall extra out,
  foldl (fun '(h, out) x => let '(h', a) := alloc h (mk h x) in (h', out ++ [a]))
        (h ++ extra, out) src
  = (h ++ extra ++ (mk h <$> src), out ++ seq (length h + length extra) (length src))).
{ induction src as [|x src IH]; intros extra out; simpl.
  - by rewrite !app_nil_r.
  - unfold alloc. simpl. rewrite Hmk by left.
    rewrite <- (app_assoc h extra [mk h x]).
    rewrite IH by (intros; apply Hmk; by right).
    rewrite <- !app_assoc, !length_app. simpl.
    replace (length h + (length extra + 1)) with (S (length h + length extra)) by lia. done. }
specialize (Hgen [] []). rewrite app_nil_r in Hgen. rewrite Hgen. simpl.
by rewrite Nat.add_0_r.
Qed.

Lemma cloneAll_spec h src :
  (forall s, s ∈ src -> s < length h) ->
  cloneAll h src
  = (h ++ ((fun s => Clone (deref h s)) <$> src), seq (length h) (length src)).
Proof.
intros Hv. unfold cloneAll.
apply (alloc_all (fun h s => Clone (deref h s))).
intros s extra Hs. by rewrite deref_app_l by auto.
Qed.

Lemma resize_fresh value P :
  positionHistory P = [] -> resize value P = SetHistorySize value P.
Proof. intros HP. unfold resize, newest. rewrite HP. simpl. by destruct P; simplify_eq/=. Qed.
End Fresh.

Section Reset.
Context {F : Type} `{Float64 F}.
Implicit Types (h : list (Particle F)) (a p s : addr) (P : Particle F)
               (e : EngineData F) (app : App F).

Lemma RestoreInitialParticleStates_spec e :
  (forall s, s ∈ initialParticles e -> s < length (heap e)) ->
  RestoreInitialParticleStates e
  = set_Particles (seq (length (heap e)) (length (initialParticles e)))
      (set_heap (heap e ++ ((fun s => Clone (deref (heap e) s)) <$> initialParticles e)) e).
Proof.
intros Hv. unfold RestoreInitialParticleStates. by rewrite cloneAll_spec.
Qed.


Lemma trailed_again d value P :
  SetHistorySize (HistoryLength d) (SetTrackHistory (HistoryTrail d) (SetHistorySize value P))
  = trailed d P.
Proof. reflexivity. Qed.



Lemma resize_Clone value P : resize value (Clone P) = SetHistorySize value (Clone P).
Proof. apply resize_fresh. apply Clone_reset. Qed.

Lemma ResetEnvironmentEvent_spec app :
  let e := engine app in
  (forall s, s ∈ initialParticles e -> s < length (heap e)) ->
  exists app',
    ResetEnvironmentEvent app = Some app' /\
    State app' = set_PhysicsEngine (engine app') (State app) /\
    paused app' = paused app /\
    settings (engine app') = settings e /\
    initialParticles (engine app') = initialParticles e /\
    Particles (engine app') = seq (length (heap e)) (length (initialParticles e)) /\
    (forall a, a < length (heap e) -> deref (heap (engine app')) a = deref (heap e) a) /\
    (forall i s, initialParticles e !! i = Some s ->
       deref (heap (engine app')) (length (heap e) + i)
       = trailed (State app) (Clone (deref (heap e) s))).
Proof.
intros e Hv. unfold ResetEnvironmentEvent. cbv zeta.
rewrite HistoryTrailLengthChangedEvent_total by (by apply Z.le_refl).
destruct app as [[e0 n m t l sp] pz]. simpl in e. subst e. simpl.
unfold engine. simpl. rewrite RestoreInitialParticleStates_spec by done. simpl.
eexists. split; [reflexivity|]. simpl.
repeat split.
- intros a Ha. unfold engine. simpl.
  rewrite !foldl_alter_outside by (rewrite elem_of_seq; lia).
  by apply deref_app_l.
- intros i s Hs. unfold engine. simpl.
  assert (Hi : i < length (initialParticles e0)) by by eapply lookup_lt_Some.
  rewrite foldl_alter_inside;
    [|apply NoDup_seq|rewrite elem_of_seq; lia
     |rewrite foldl_alter_length, length_app, length_fmap; lia].
  rewrite foldl_alter_inside;
    [|apply NoDup_seq|rewrite elem_of_seq; lia|rewrite length_app, length_fmap; lia].
  rewrite (deref_app_r _ _ i (Clone (deref (heap e0) s)))
    by (by rewrite list_lookup_fmap, Hs).
  rewrite resize_Clone. apply (trailed_again (mkData e0 n m t l sp)).
Qed.

(** X3.  Resetting the environment never panics.  It leaves every
    existing object, the snapshot, the settings and the rest of the
    program state as they are, and makes the roster one new particle per
    particle of the snapshot, in order: the clone of the snapshot
    particle, carrying the program's trail switch and history length and
    an empty history. *)
Theorem X3_reset_restores_snapshot app :
  let e := engine app in
  (forall s, s ∈ initialParticles e -> s < length (heap e)) ->
  exists app',
    ResetEnvironmentEvent app = Some app' /\
    State app' = set_PhysicsEngine (engine app') (State app) /\
    paused app' = paused app /\
    settings (engine app') = settings e /\
    initialParticles (engine app') = initialParticles e /\
    Particles (engine app') = seq (length (heap e)) (length (initialParticles e)) /\
    (forall a, a < length (heap e) -> deref (heap (engine app')) a = deref (heap e) a) /\
    (forall i s, initialParticles e !! i = Some s ->
       deref (heap (engine app')) (length (heap e) + i)
       = trailed (State app) (Clone (deref (heap e) s))).
Proof. apply ResetEnvironmentEvent_spec. Qed.
End Reset.

Section Generate.
Context {F : Type} `{Float64 F}.
Implicit Types (h : list (Particle F)) (a p s : addr) (P : Particle F)
               (e : EngineData F) (app : App F) (d : Data F).






End Generate.

Section Outside.
Context {F : Type} `{Float64 F}.
Variable rt : GoRuntime.
Implicit Types (h : list (Particle F)) (a p o m : addr) (P : Particle F)
               (e : EngineData F) (Q : Particle F -> Prop) (W : list addr).

Lemma collide_outside e p o h a :
  a ≠ p -> a ≠ o -> deref (collide e p o h) a = deref h a.
Proof.
intros Hp Ho. unfold collide. destruct (mergeTest _ _ _); cbv zeta.
- destruct (bool_decide _); by rewrite ?deref_alter_ne by done.
- by rewrite deref_alter_ne by done.
Qed.

Lemma interact_outside e p o (st : Forces) a :
  a ≠ p -> a ≠ o -> deref (f_heap (interact e p o st)) a = deref (f_heap st) a.
Proof.
intros Hp Ho. unfold interact. cbv zeta.
repeat case_match; simpl; rewrite ?deref_alter_ne, ?collide_outside by done; reflexivity.
Qed.

Lemma interact_fold_outside e p l (st : Forces) a :
  a ≠ p -> a ∉ l ->
  deref (f_heap (foldl (fun st o => interact e p o st) st l)) a = deref (f_heap st) a.
Proof.
intros Hp. revert st. induction l as [|o l IH]; intros st Hl; simpl; [done|].
apply not_elem_of_cons in Hl as [Ho Hl].
rewrite IH by done. by apply interact_outside.
Qed.

Lemma accelerate_outside e h p a :
  a ≠ p -> a ∉ Particles e -> deref (accelerate e h p) a = deref h a.
Proof.
intros Hp Hl. unfold accelerate.
rewrite deref_alter_ne by done. by rewrite interact_fold_outside.
Qed.

Lemma velocities_outside e a :
  a ∉ Particles e -> deref (heap (updateParticleVelocities e)) a = deref (heap e) a.
Proof.
intros Ha. unfold updateParticleVelocities. simpl.
assert (Hgen : forall l h, a ∉ l -> deref (foldl (accelerate e) h l) a = deref h a).
{ induction l as [|p l IH]; intros h Hl; simpl; [done|].
  apply not_elem_of_cons in Hl as [Hp Hl].
  rewrite IH by done. by apply accelerate_outside. }
by apply Hgen.
Qed.

(** Linking within [W]. *)
Lemma collide_keeps_linking Q W e p o h a :
  kept_in_motion Q -> kept_by_linking W Q -> p ∈ W -> o ∈ W ->
  Q (deref h a) -> Q (deref (collide e p o h) a).
Proof.
intros Hm Hk Hp Ho Ha. unfold collide.
destruct (mergeTest _ _ _) eqn:Ht.
- cbv zeta. destruct (bool_decide _).
  + apply (alter_keeps Q); [intros P HP; by apply Hk|done].
  + apply (alter_keeps Q); [intros P HP; by apply Hk|].
    apply (alter_keeps Q); [intros P HP; by apply Hk|done].
- apply (alter_keeps Q); auto. intros P HP.
  apply Hm, Hm, Hm, HP.
Qed.

Lemma interact_keeps_linking Q W e p o (st : Forces) a :
  kept_in_motion Q -> kept_by_linking W Q -> p ∈ W -> o ∈ W ->
  Q (deref (f_heap st) a) -> Q (deref (f_heap (interact e p o st)) a).
Proof.
intros Hm Hk Hp Ho Ha. unfold interact. cbv zeta.
repeat case_match; simpl; auto.
- apply (alter_keeps Q); auto. intros P HP. by apply Hm.
- by apply (collide_keeps_linking Q W).
Qed.

Lemma interact_fold_keeps_linking Q W e p l (st : Forces) a :
  kept_in_motion Q -> kept_by_linking W Q -> p ∈ W -> (forall o, o ∈ l -> o ∈ W) ->
  Q (deref (f_heap st) a) ->
  Q (deref (f_heap (foldl (fun st o => interact e p o st) st l)) a).
Proof.
intros Hm Hk Hp. revert st. induction l as [|o l IH]; intros st Hl Ha; simpl; [done|].
apply IH; [intros; apply Hl; by right|].
apply (interact_keeps_linking Q W); auto. apply Hl. by left.
Qed.

Lemma accelerate_keeps_linking Q W e h p a :
  kept_in_motion Q -> kept_by_linking W Q -> p ∈ W -> (forall o, o ∈ Particles e -> o ∈ W) ->
  Q (deref h a) -> Q (deref (accelerate e h p) a).
Proof.
intros Hm Hk Hp Hl Ha. unfold accelerate.
apply (alter_keeps Q); [intros P HP; by apply Hm|].
by apply (interact_fold_keeps_linking Q W).
Qed.

Lemma velocities_keeps_linking Q W e a :
  kept_in_motion Q -> kept_by_linking W Q -> (forall o, o ∈ Particles e -> o ∈ W) ->
  Q (deref (heap e) a) -> Q (deref (heap (updateParticleVelocities e)) a).
Proof.
intros Hm Hk HW. unfold updateParticleVelocities. simpl.
assert (Hgen : forall l h, (forall p, p ∈ l -> p ∈ W) ->
          Q (deref h a) -> Q (deref (foldl (accelerate e) h l) a)).
{ induction l as [|p l IH]; intros h Hl Ha; simpl; [done|].
  apply IH; [intros; apply Hl; by right|].
  apply (accelerate_keeps_linking Q W); auto. apply Hl. by left. }
by apply Hgen.
Qed.

Lemma links_within_kept W :
  kept_in_motion (links_within (F:=F) W) /\ kept_by_linking W (links_within (F:=F) W) /\
  kept_by_history (links_within (F:=F) W) /\ kept_by_unlinking (links_within (F:=F) W).
Proof.
split; [|split; [|split]].
- by split.
- intros P o Ho HP x Hx. simpl in Hx. apply elem_of_union in Hx as [Hx|Hx]; [|by apply HP].
  by apply elem_of_singleton in Hx as ->.
- intros P HP x Hx. destruct (UpdatePosition_marks P) as [_ Hm]. rewrite Hm in Hx. by apply HP.
- split.
  + intros P p HP x Hx. simpl in Hx. apply elem_of_difference in Hx as [Hx _]. by apply HP.
  + intros P HP _. done.
Qed.
End Outside.

Section MergeOutside.
Context {F : Type} `{Float64 F}.
Variable rt : GoRuntime.
Implicit Types (h : list (Particle F)) (a p o m : addr) (P : Particle F)
               (e : EngineData F) (Q : Particle F -> Prop) (st : @Mergers F)
               (W : list addr).

Lemma aggregatePartner_fold_outside p l (ag : Aggregate) a :
  a ∉ l -> deref (a_heap (foldl (aggregatePartner p) ag l)) a = deref (a_heap ag) a.
Proof.
revert ag. induction l as [|o l IH]; intros ag Hl; simpl; [done|].
apply not_elem_of_cons in Hl as [Ho Hl].
rewrite IH by done. simpl. by apply deref_alter_ne.
Qed.

Lemma mergeVisit_outside W i p st a :
  map_range_spec rt ->
  p ∈ W -> links_within W (deref (m_heap st) p) ->
  a < length (m_heap st) -> a ∉ W ->
  deref (m_heap (mergeVisit rt i p st)) a = deref (m_heap st) a.
Proof.
intros Hmap Hp Hlinks Ha HW. unfold mergeVisit.
destruct (merging (deref (m_heap st) p)); [|done].
destruct (bool_decide _).
- unfold alloc. cbv zeta.
  pose proof (aggregate_length rt (m_heap st) p) as Hlen.
  unfold aggregate in *.
  set (ag := foldl _ _ _) in *. simpl.
  rewrite deref_alloc_old by lia. unfold ag.
  rewrite aggregatePartner_fold_outside; [done|].
  intros Hin. apply HW, Hlinks.
  rewrite (Hmap _) in Hin. by apply elem_of_elements in Hin.
- simpl. apply deref_alter_ne. intros ->. done.
Qed.

Lemma mergeLoop_outside W ps : forall i st a,
  map_range_spec rt ->
  (forall p, p ∈ ps ->
     p ∈ W /\ p < length (m_heap st) /\ links_within W (deref (m_heap st) p)) ->
  a < length (m_heap st) -> a ∉ W ->
  deref (m_heap (mergeLoop rt ps i st)) a = deref (m_heap st) a.
Proof.
induction ps as [|p ps IH]; intros i st a Hmap Hps Ha HW; simpl; [done|].
destruct (Hps p) as (Hp & Hpl & Hlinks); [left|].
destruct (links_within_kept W) as (_ & _ & _ & Hun).
destruct (mergeVisit_old rt (links_within W) i p st Hun) as [Hlen Hkeep].
rewrite IH; auto.
- by apply (mergeVisit_outside W).
- intros q Hq. destruct (Hps q) as (Hq1 & Hq2 & Hq3); [by right|].
  split; [done|]. split; [lia|]. by apply Hkeep.
- lia.
Qed.

Lemma mergeLoop_grows ps : forall i st,
  length (m_heap st) ≤ length (m_heap (mergeLoop rt ps i st)).
Proof.
induction ps as [|p ps IH]; intros i st; simpl; [done|].
destruct (mergeVisit_old rt (fun _ => True) i p st anything_unlinking) as [Hl _].
specialize (IH (S i) (mergeVisit rt i p st)). lia.
Qed.

(** The roster after the merger phase: particles of the roster before
    it, and objects that did not exist. *)
Lemma handleMergers_roster e x :
  x ∈ Particles (handleMergers rt e).1 -> x ∈ Particles e \/ length (heap e) ≤ x.
Proof.
set (st0 := mkMergers (heap e) [] [] false false None None).
destruct (mergeLoop_additions rt (length (heap e)) (Particles e) 0 st0) as [_ Hrange].
{ done. }
{ split; [constructor|]. intros m Hm. by apply elem_of_nil in Hm. }
unfold handleMergers. cbv zeta. simpl. fold st0. intros Hx.
apply elem_of_app in Hx as [Hx|Hx].
- left. by apply foldl_removeAt_elem in Hx.
- right. specialize (Hrange x Hx). lia.
Qed.

Lemma handleMergers_outside W e a :
  map_range_spec rt ->
  (forall p, p ∈ Particles e ->
     p ∈ W /\ p < length (heap e) /\ links_within W (deref (heap e) p)) ->
  a < length (heap e) -> a ∉ W ->
  deref (heap (handleMergers rt e).1) a = deref (heap e) a.
Proof.
intros Hmap Hps Ha HW. unfold handleMergers. cbv zeta. simpl.
by rewrite (mergeLoop_outside W).
Qed.

Lemma handleMergers_grows e : length (heap e) ≤ length (heap (handleMergers rt e).1).
Proof.
unfold handleMergers. cbv zeta. simpl.
apply (mergeLoop_grows (Particles e) 0 (mkMergers (heap e) [] [] false false None None)).
Qed.
End MergeOutside.

Section TickIsolation.
Context {F : Type} `{Float64 F}.
Variable rt : GoRuntime.
Implicit Types (h : list (Particle F)) (a p o m s : addr) (P : Particle F)
               (e : EngineData F) (Q : Particle F -> Prop) (W : list addr).

Lemma afterSort_heap e :
  heap (afterSort rt e) = heap (updateParticlePositions (updateParticleVelocities e)).
Proof. reflexivity. Qed.

Lemma afterSort_roster e :
  sort_Slice_spec rt -> Particles (afterSort rt e) ≡ₚ Particles e.
Proof. intros Hsort. unfold afterSort, sortParticles. simpl. apply Hsort. Qed.

Lemma afterSort_length e : length (heap (afterSort rt e)) = length (heap e).
Proof. by rewrite afterSort_heap, positions_length, velocities_length. Qed.

Lemma afterSort_outside e a :
  a ∉ Particles e -> deref (heap (afterSort rt e)) a = deref (heap e) a.
Proof.
intros Ha. rewrite afterSort_heap. unfold updateParticlePositions. simpl.
rewrite foldl_alter_outside by done. by apply velocities_outside.
Qed.

Lemma afterSort_links e a :
  roster_all (links_within (Particles e)) e -> a ∈ Particles e ->
  links_within (Particles e) (deref (heap (afterSort rt e)) a).
Proof.
intros Hall Ha. destruct (links_within_kept (F:=F) (Particles e)) as (K1 & K2 & K3 & _).
rewrite afterSort_heap. apply positions_keeps; [done|].
apply (velocities_keeps_linking _ (Particles e)); auto.
Qed.

Lemma afterMergers_roster e x :
  sort_Slice_spec rt ->
  x ∈ Particles (afterMergers rt e) -> x ∈ Particles e \/ length (heap e) ≤ x.
Proof.
intros Hsort. unfold afterMergers. destruct (AllowMerge _).
- intros Hx. apply handleMergers_roster in Hx as [Hx|Hx].
  + left. by rewrite <- (afterSort_roster e Hsort).
  + right. by rewrite <- afterSort_length.
- intros Hx. left. by rewrite <- (afterSort_roster e Hsort).
Qed.

Lemma afterMergers_grows e : length (heap e) ≤ length (heap (afterMergers rt e)).
Proof.
unfold afterMergers. destruct (AllowMerge _).
- pose proof (handleMergers_grows rt (afterSort rt e)). rewrite afterSort_length in *. done.
- by rewrite afterSort_length.
Qed.

Lemma afterMergers_outside e a :
  sort_Slice_spec rt -> map_range_spec rt ->
  valid_roster e -> roster_all (links_within (Particles e)) e ->
  a < length (heap e) -> a ∉ Particles e ->
  deref (heap (afterMergers rt e)) a = deref (heap e) a.
Proof.
intros Hsort Hmap Hv Hall Ha Hout. unfold afterMergers.
destruct (AllowMerge _); [|by apply afterSort_outside].
rewrite (handleMergers_outside rt (Particles e)); auto.
- by apply afterSort_outside.
- intros p Hp. rewrite (afterSort_roster e Hsort) in Hp.
  split; [done|]. split; [rewrite afterSort_length; by apply Hv|].
  by apply afterSort_links.
- by rewrite afterSort_length.
Qed.

Lemma tick_roster e x :
  sort_Slice_spec rt ->
  x ∈ Particles (UpdateParticles rt e).1 -> x ∈ Particles e \/ length (heap e) ≤ x.
Proof.
intros Hsort. rewrite UpdateParticles_engine.
destruct (WallBounce _); by apply afterMergers_roster.
Qed.

Lemma tick_grows e : length (heap e) ≤ length (heap (UpdateParticles rt e).1).
Proof.
rewrite UpdateParticles_engine. pose proof (afterMergers_grows e).
destruct (WallBounce _); [by rewrite walls_length|done].
Qed.

Lemma tick_outside e a :
  sort_Slice_spec rt -> map_range_spec rt ->
  valid_roster e -> roster_all (links_within (Particles e)) e ->
  a < length (heap e) -> a ∉ Particles e ->
  deref (heap (UpdateParticles rt e).1) a = deref (heap e) a.
Proof.
intros Hsort Hmap Hv Hall Ha Hout. rewrite UpdateParticles_engine.
destruct (WallBounce _); [|by apply afterMergers_outside].
unfold handleWalls. simpl. rewrite foldl_alter_outside.
- by apply afterMergers_outside.
- intros Hin. apply afterMergers_roster in Hin as [Hin|Hin]; [done|lia|done].
Qed.

Lemma tick_settings e :
  settings (UpdateParticles rt e).1 = settings e /\
  initialParticles (UpdateParticles rt e).1 = initialParticles e.
Proof.
rewrite UpdateParticles_engine. unfold afterMergers.
change (AllowMerge (afterSort rt e)) with (AllowMerge e).
by destruct (AllowMerge e), (WallBounce _).
Qed.

Lemma tick_sound e :
  sort_Slice_spec rt -> sound_roster e -> sound_roster (UpdateParticles rt e).1.
Proof.
intros Hsort Hs. rewrite UpdateParticles_engine.
destruct (afterMergers_sound rt e Hsort Hs) as [Hnd Hv].
destruct (WallBounce _); [|done].
split; [done|]. intros a Ha. rewrite walls_length. by apply Hv.
Qed.

Lemma unmarked_links W P : unmarked P -> links_within W P.
Proof. intros [_ HP] o Ho. rewrite HP in Ho. by apply elem_of_empty in Ho. Qed.

Lemma tick_unmarked e :
  sort_Slice_spec rt -> valid_roster e ->
  roster_all unmarked e -> roster_all unmarked (UpdateParticles rt e).1.
Proof.
intros Hsort Hv Hall.
destruct (unmarked_kept (F:=F)) as (U1 & U2 & U3).
destruct (AllowMerge e) eqn:Hallow.
- destruct (marked_if_linked_kept (F:=F)) as (K1 & K2 & K3 & K4).
  assert (Hlinked : roster_all marked_if_linked e).
  { intros a Ha. destruct (Hall a Ha) as [_ Hm]. by intros _. }
  destruct (UpdateParticles_keeps rt marked_if_linked e) as [HJ _]; auto.
  destruct (afterSort_keeps rt marked_if_linked e) as [_ Hv3]; auto.
  assert (Hnm : roster_all not_merging (UpdateParticles rt e).1).
  { rewrite UpdateParticles_engine. unfold afterMergers.
    change (AllowMerge (afterSort rt e)) with (AllowMerge e). rewrite Hallow.
    pose proof (handleMergers_not_merging rt (afterSort rt e) Hsort Hv3) as Hm.
    destruct (WallBounce _); [|done].
    intros a Ha. apply walls_keeps; [by split|]. by apply Hm. }
  intros a Ha. split; [by apply Hnm|]. apply HJ; [done|by apply Hnm].
- destruct (UpdateParticles_keeps rt unmarked e) as [HU _]; auto.
  intros Habs. congruence.
Qed.

Lemma tick_steady e :
  sort_Slice_spec rt -> map_range_spec rt -> steady e ->
  steady (UpdateParticles rt e).1 /\
  initialParticles (UpdateParticles rt e).1 = initialParticles e /\
  (forall s, s ∈ initialParticles e ->
     deref (heap (UpdateParticles rt e).1) s = deref (heap e) s).
Proof.
intros Hsort Hmap (Hs & Hu & Hap).
destruct (tick_settings e) as [_ Hinit].
split; [|split; [done|]].
- split; [by apply tick_sound|]. split; [apply tick_unmarked; [done|apply Hs|done]|].
  intros s Hs'. rewrite Hinit in Hs'. destruct (Hap s Hs') as [Hl Hout].
  split; [pose proof (tick_grows e); lia|].
  intros Hin. apply tick_roster in Hin as [Hin|Hin]; [done|lia|done].
- intros s Hs'. destruct (Hap s Hs') as [Hl Hout].
  apply tick_outside; auto; [apply Hs|].
  intros a Ha. by apply unmarked_links, Hu.
Qed.

Lemma ticks_steady n e :
  sort_Slice_spec rt -> map_range_spec rt -> steady e ->
  steady (ticks rt n e) /\
  initialParticles (ticks rt n e) = initialParticles e /\
  (forall s, s ∈ initialParticles e -> deref (heap (ticks rt n e)) s = deref (heap e) s).
Proof.
intros Hsort Hmap Hst. induction n as [|n (IH1 & IH2 & IH3)]; [done|].
change (ticks rt (S n) e) with (UpdateParticles rt (ticks rt n e)).1.
destruct (tick_steady (ticks rt n e) Hsort Hmap IH1) as (T1 & T2 & T3).
split; [done|]. split; [congruence|].
intros s Hs'. rewrite T3 by (by rewrite IH2). by apply IH3.
Qed.
End TickIsolation.

Section Generated.
Context {F : Type} `{Float64 F}.
Implicit Types (h : list (Particle F)) (a p s : addr) (P : Particle F)
               (e : EngineData F) (app : App F) (d : Data F).




End Generated.

Section Running.
Context {F : Type} `{Float64 F}.
Variable rt : GoRuntime.
Implicit Types (h : list (Particle F)) (a p s : addr) (P : Particle F)
               (e : EngineData F) (app : App F) (d : Data F).

Lemma run_state n app :
  State (run rt n app) = set_PhysicsEngine (ticks rt n (engine app)) (State app) /\
  paused (run rt n app) = paused app.
Proof.
induction n as [|n [IH1 IH2]].
- by destruct app as [[]].
- change (run rt (S n) app) with (physicsTick rt (run rt n app)).
  unfold physicsTick, with_engine, engine. simpl. rewrite IH1, IH2. done.
Qed.

(** X6.  A tick keeps the roster sound: it never holds the same particle
    twice nor a pointer to an object that does not exist; what it holds
    after the tick are particles it held before and objects made during
    the tick, and no object is ever removed from the heap. *)
Theorem X6_roster_stays_sound e :
  sort_Slice_spec rt -> sound_roster e ->
  sound_roster (UpdateParticles rt e).1 /\
  length (heap e) ≤ length (heap (UpdateParticles rt e).1) /\
  (forall x, x ∈ Particles (UpdateParticles rt e).1 ->
     x ∈ Particles e \/ length (heap e) ≤ x).
Proof.
intros Hsort Hs. split; [by apply tick_sound|]. split; [apply tick_grows|].
intros x. by apply tick_roster.
Qed.

(** X7.  A tick writes to the particles of the roster and to the objects
    it makes, and to nothing else: every other object, the snapshot among
    them, is after the tick what it was before, and the settings and the
    snapshot list are unchanged. *)
Theorem X7_tick_leaves_other_objects e :
  sort_Slice_spec rt -> map_range_spec rt ->
  valid_roster e -> roster_all unmarked e ->
  settings (UpdateParticles rt e).1 = settings e /\
  initialParticles (UpdateParticles rt e).1 = initialParticles e /\
  (forall a, a < length (heap e) -> a ∉ Particles e ->
     deref (heap (UpdateParticles rt e).1) a = deref (heap e) a).
Proof.
intros Hsort Hmap Hv Hu. destruct (tick_settings rt e) as [Hs Hi].
split; [done|]. split; [done|].
intros a Ha Hout. apply tick_outside; auto.
intros b Hb. by apply unmarked_links, Hu.
Qed.

(** X8.  Reset brings the saved particles back whatever happened since:
    after any number of ticks of an engine that was steady, resetting
    the environment does not panic and makes the roster one particle per
    particle of the snapshot, each the clone of the snapshot particle as
    it was before the first tick, with the program's trail settings. *)
Theorem X8_reset_after_ticks n app :
  sort_Slice_spec rt -> map_range_spec rt -> steady (engine app) ->
  exists app',
    ResetEnvironmentEvent (run rt n app) = Some app' /\
    State app' = set_PhysicsEngine (engine app') (State app) /\
    paused app' = paused app /\
    length (Particles (engine app')) = length (initialParticles (engine app)) /\
    (forall i s, initialParticles (engine app) !! i = Some s ->
       exists a, Particles (engine app') !! i = Some a /\
                 deref (heap (engine app')) a
                 = trailed (State app) (Clone (deref (heap (engine app)) s))).
Proof.
intros Hsort Hmap Hst.
destruct (ticks_steady rt n (engine app) Hsort Hmap Hst) as ((_ & _ & Hap) & Hinit & Hsame).
destruct (run_state n app) as [HS Hp].
assert (He : engine (run rt n app) = ticks rt n (engine app)).
{ unfold engine. by rewrite HS. }
destruct (ResetEnvironmentEvent_spec (run rt n app))
  as (app' & Hr & Hst' & Hp' & _ & _ & Hps & _ & Hnew).
{ rewrite He. intros s Hs. by apply Hap. }
rewrite He, Hinit in Hps, Hnew.
exists app'. split; [done|].
split; [by rewrite Hst', HS|]. split; [congruence|].
split; [by rewrite Hps, length_seq|].
intros i s Hs. exists (length (heap (ticks rt n (engine app))) + i).
split.
- rewrite Hps. apply lookup_seq_lt. by eapply lookup_lt_Some.
- rewrite (Hnew i s Hs), HS, Hsame by (by eapply list_elem_of_lookup_2). done.
Qed.
End Running.

(** ** What a tick does to the roster and to the objects *)

Section Counting.
Context {F : Type} `{Float64 F}.
Variable rt : GoRuntime.
Implicit Types (h : list (Particle F)) (a p o m : addr) (P : Particle F)
               (e : EngineData F) (Q : Particle F -> Prop) (st : @Mergers F).

Lemma removeAt_length (l : list addr) i : length (removeAt l i) = length l - 1.
Proof.
unfold removeAt. destruct (last l) as [x|] eqn:Hl.
- rewrite length_take, length_insert. lia.
- apply last_None in Hl. by subst.
Qed.

Lemma foldl_removeAt_length dl : forall l : list addr,
  length (foldl removeAt l dl) = length l - length dl.
Proof.
induction dl as [|i dl IH]; intros l; simpl; [lia|].
rewrite IH, removeAt_length. lia.
Qed.

Lemma mergeVisit_counts i p st :
  let st' := mergeVisit rt i p st in
  length (addList st') + length (deleteList st) ≤ length (addList st) + length (deleteList st') /\
  length (deleteList st') ≤ length (deleteList st) + 1.
Proof.
unfold mergeVisit. destruct (merging _); [|simpl; lia].
destruct (bool_decide _).
- unfold alloc. cbv zeta. simpl. rewrite !length_app. simpl. lia.
- simpl. rewrite !length_app. simpl. lia.
Qed.

Lemma mergeLoop_counts ps : forall i st,
  let st' := mergeLoop rt ps i st in
  length (addList st') + length (deleteList st) ≤ length (addList st) + length (deleteList st') /\
  length (deleteList st') ≤ length (deleteList st) + length ps.
Proof.
induction ps as [|p ps IH]; intros i st; simpl; [lia|].
destruct (mergeVisit_counts i p st) as [H1 H2].
destruct (IH (S i) (mergeVisit rt i p st)) as [H3 H4]. lia.
Qed.

Lemma handleMergers_count e :
  sort_Slice_spec rt ->
  length (Particles (handleMergers rt e).1) ≤ length (Particles e).
Proof.
intros Hsort. unfold handleMergers. cbv zeta. simpl.
set (st0 := mkMergers (heap e) [] [] false false None None).
destruct (mergeLoop_counts (Particles e) 0 st0) as [H1 H2]. simpl in H1, H2.
rewrite length_app, foldl_removeAt_length.
rewrite (proj1 (Hsort nat _ _)). lia.
Qed.

Lemma afterMergers_count e :
  sort_Slice_spec rt -> length (Particles (afterMergers rt e)) ≤ length (Particles e).
Proof.
intros Hsort. unfold afterMergers.
pose proof (afterSort_roster rt e Hsort) as Hperm.
destruct (AllowMerge _).
- pose proof (handleMergers_count (afterSort rt e) Hsort). rewrite Hperm in *. done.
- by rewrite Hperm.
Qed.

Lemma tick_flags_without_merging e :
  AllowMerge e = false -> (UpdateParticles rt e).2 = (false, false, None, None).
Proof.
intros Ha. unfold UpdateParticles. cbv zeta.
change (AllowMerge (sortParticles rt (updateParticlePositions (updateParticleVelocities e))))
  with (AllowMerge e).
rewrite Ha. by destruct (WallBounce _).
Qed.

(** X9.  A tick never adds to the number of particles: every particle it
    creates replaces the root it was merged from, and there are never
    more roots than particles taken off the roster. *)
Theorem X9_particle_count_never_grows e :
  sort_Slice_spec rt ->
  length (Particles (UpdateParticles rt e).1) ≤ length (Particles e).
Proof.
intros Hsort. rewrite UpdateParticles_engine.
pose proof (afterMergers_count e Hsort).
by destruct (WallBounce _).
Qed.

(** X10.  With merging switched off a tick neither removes nor creates a
    particle: the roster is the old one in another order, no object is
    allocated, and the four results say that no merge occurred. *)
Theorem X10_no_merging_keeps_particles e :
  sort_Slice_spec rt -> AllowMerge e = false ->
  Particles (UpdateParticles rt e).1 ≡ₚ Particles e /\
  length (heap (UpdateParticles rt e).1) = length (heap e) /\
  (UpdateParticles rt e).2 = (false, false, None, None).
Proof.
intros Hsort Ha. split; [|split; [|by apply tick_flags_without_merging]].
- rewrite UpdateParticles_engine. unfold afterMergers.
  change (AllowMerge (afterSort rt e)) with (AllowMerge e). rewrite Ha.
  destruct (WallBounce _); by apply afterSort_roster.
- rewrite UpdateParticles_engine. unfold afterMergers.
  change (AllowMerge (afterSort rt e)) with (AllowMerge e). rewrite Ha.
  destruct (WallBounce _); by rewrite ?walls_length, afterSort_length.
Qed.
End Counting.

Section Bodies.
Context {F : Type} `{Float64 F}.
Variable rt : GoRuntime.
Implicit Types (h : list (Particle F)) (a p o m : addr) (P : Particle F)
               (e : EngineData F) (Q : Particle F -> Prop) (st : @Mergers F).

Lemma same_body_refl P : same_body P P.
Proof. by repeat split. Qed.

Lemma same_body_kept P0 :
  kept_in_motion (same_body P0) /\ kept_by_marking (same_body P0) /\
  kept_by_history (same_body P0) /\ kept_by_unlinking (same_body P0).
Proof.
split; [|split; [|split]].
- by split.
- by intros P X.
- intros P HP. unfold UpdatePosition, same_body in *.
  by destruct (trackHistory P) eqn:E; simpl; rewrite ?E.
- by split.
Qed.

Lemma mergeLoop_old Q ps : forall i st a,
  kept_by_unlinking Q ->
  a < length (m_heap st) -> Q (deref (m_heap st) a) ->
  Q (deref (m_heap (mergeLoop rt ps i st)) a).
Proof.
induction ps as [|p ps IH]; intros i st a HQ Ha Hq; simpl; [done|].
destruct (mergeVisit_old rt Q i p st HQ) as [Hl Hk].
apply IH; [done|lia|by apply Hk].
Qed.

Lemma tick_keeps_object Q e a :
  kept_in_motion Q -> kept_by_marking Q -> kept_by_history Q -> kept_by_unlinking Q ->
  a < length (heap e) -> Q (deref (heap e) a) ->
  Q (deref (heap (UpdateParticles rt e).1) a).
Proof.
intros K1 K2 K3 K4 Ha Hq.
assert (H3 : Q (deref (heap (afterSort rt e)) a)).
{ rewrite afterSort_heap. apply positions_keeps; [done|]. by apply velocities_keeps. }
assert (H4 : Q (deref (heap (afterMergers rt e)) a)).
{ unfold afterMergers. destruct (AllowMerge _); [|done].
  unfold handleMergers. cbv zeta. simpl.
  apply mergeLoop_old; [done| |done].
  change (a < length (heap (afterSort rt e))). by rewrite afterSort_length. }
rewrite UpdateParticles_engine. destruct (WallBounce _); [|done].
by apply walls_keeps.
Qed.

(** X11.  A tick never changes what a particle is: the mass, the two
    charges, the radius, the colour proxies and the history settings of
    every existing object are after the tick what they were before
    (merging makes new objects instead). *)
Theorem X11_tick_keeps_bodies e a :
  a < length (heap e) ->
  same_body (deref (heap e) a) (deref (heap (UpdateParticles rt e).1) a).
Proof.
intros Ha. destruct (same_body_kept (deref (heap e) a)) as (K1 & K2 & K3 & K4).
apply tick_keeps_object; auto. apply same_body_refl.
Qed.
End Bodies.


Section Results.
Context {F : Type} `{Float64 F}.
Variable rt : GoRuntime.
Implicit Types (h : list (Particle F)) (a p o m : addr) (P : Particle F)
               (e : EngineData F) (st : @Mergers F) (W : list addr).

Lemma mergeVisit_results W i p st :
  p ∈ W -> results_agree W st -> results_agree W (mergeVisit rt i p st).
Proof.
intros Hp [H0 H1]. unfold mergeVisit.
destruct (merging _); [|by split].
destruct (bool_decide (0 < _)).
- unfold alloc. cbv zeta. split; simpl; [done|].
  intros _. eexists _, _. split; [done|]. split; [done|]. split; [done|].
  apply elem_of_app. right. by left.
- split; simpl; [done|].
  intros Ho. destruct (H1 Ho) as (q & m & ? & ? & ? & ?). by exists q, m.
Qed.

Lemma mergeLoop_results W ps : forall i st,
  (forall p, p ∈ ps -> p ∈ W) -> results_agree W st ->
  results_agree W (mergeLoop rt ps i st).
Proof.
induction ps as [|p ps IH]; intros i st Hps Hr; simpl; [done|].
apply IH; [intros; apply Hps; by right|].
apply mergeVisit_results; [apply Hps; by left|done].
Qed.

Lemma tick_second e :
  (UpdateParticles rt e).2
  = if AllowMerge e then
      let st := (handleMergers rt (afterSort rt e)).2 in
      (mergeOccurred st, mergeMultiple st, mergeSource st, mergedResult st)
    else (false, false, None, None).
Proof.
unfold UpdateParticles. cbv zeta. fold (afterSort rt e).
change (AllowMerge (afterSort rt e)) with (AllowMerge e).
destruct (AllowMerge e); [|by destruct (WallBounce _)].
destruct (handleMergers rt (afterSort rt e)) as [e1 st]. by destruct (WallBounce _).
Qed.

Lemma handleMergers_results e :
  let st := (handleMergers rt e).2 in
  results_agree (Particles e) st /\
  (forall m, m ∈ addList st ->
     m ∈ Particles (handleMergers rt e).1 /\ length (heap e) ≤ m) /\
  (addList st = [] ->
   forall x, x ∈ Particles (handleMergers rt e).1 -> x ∈ Particles e).
Proof.
unfold handleMergers. cbv zeta.
set (st0 := mkMergers (heap e) [] [] false false None None).
cbn [fst snd Particles set_Particles set_heap].
split; [|split].
- apply mergeLoop_results; [done|]. by split.
- intros m Hm. split; [apply elem_of_app; by right|].
  destruct (mergeLoop_additions rt (length (heap e)) (Particles e) 0 st0) as [_ Hrange].
  { done. }
  { split; [constructor|]. intros x Hx. by apply elem_of_nil in Hx. }
  specialize (Hrange m Hm). lia.
- intros Hnil x. rewrite Hnil, app_nil_r. apply foldl_removeAt_elem.
Qed.

(** X12.  The results of a tick agree with what it did.  When it reports
    a merge, the source and the merged particle it returns are not nil:
    the source is a particle of the old roster, the merged particle a new
    object of the new roster.  When it reports none, the other three
    results are false and nil, and the new roster consists of particles
    of the old one. *)
Theorem X12_merge_results_agree e :
  sort_Slice_spec rt ->
  let e' := (UpdateParticles rt e).1 in
  let '(occurred, multiple, source, result) := (UpdateParticles rt e).2 in
  (occurred = true ->
     exists p m, source = Some p /\ result = Some m /\
                 p ∈ Particles e /\ m ∈ Particles e' /\ length (heap e) ≤ m) /\
  (occurred = false ->
     multiple = false /\ source = None /\ result = None /\
     forall x, x ∈ Particles e' -> x ∈ Particles e).
Proof.
intros Hsort e'.
assert (Hps : Particles e' = Particles (afterMergers rt e)).
{ unfold e'. rewrite UpdateParticles_engine. by destruct (WallBounce _). }
pose proof (afterSort_roster rt e Hsort) as Hperm.
rewrite tick_second. unfold afterMergers in Hps.
change (AllowMerge (afterSort rt e)) with (AllowMerge e) in Hps.
destruct (AllowMerge e).
- cbv zeta.
  destruct (handleMergers_results (afterSort rt e)) as ([H0 H1] & Hadd & Hnone).
  set (st := (handleMergers rt (afterSort rt e)).2) in *.
  split.
  + intros Ho. destruct (H1 Ho) as (p & m & -> & -> & Hp & Hm).
    destruct (Hadd m Hm) as [Hin Hnew]. rewrite afterSort_length in Hnew.
    exists p, m. split; [done|]. split; [done|].
    split; [by rewrite <- Hperm|]. split; [by rewrite Hps|done].
  + intros Ho. destruct (H0 Ho) as (-> & -> & -> & Hnil).
    repeat split. intros x. rewrite Hps, <- Hperm. by apply Hnone.
- split; [done|]. intros _. repeat split.
  intros x. by rewrite Hps, Hperm.
Qed.
End Results.

Section Chain.
Context {F : Type} `{Float64 F}.
Variable rt : GoRuntime.
Implicit Types (h : list (Particle F)) (a p o m : addr) (P : Particle F)
               (e : EngineData F) (st : @Mergers F).
Local Open Scope f64_scope.

Lemma NewParticle_Mass mass closeCharge farCharge x y :
  Mass (NewParticle mass closeCharge farCharge x y) = mass.
Proof.
unfold NewParticle, initializeWithValues, SetFarCharge, SetCloseCharge, SetMass.
cbv zeta. by destruct (f_ltb _ _).
Qed.

Lemma mergedParticle_Mass (ag : Aggregate) P : Mass (mergedParticle ag P) = a_mass ag.
Proof.
unfold mergedParticle. cbv zeta.
cbn [Mass SetPositionHistory SetHistorySize SetTrackHistory SetVelocity].
apply NewParticle_Mass.
Qed.

Lemma map_range_singleton o : map_range_spec rt -> map_range rt {[o]} = [o].
Proof.
intros Hmap. specialize (Hmap {[o]}). rewrite elements_singleton in Hmap.
by apply Permutation_singleton_r in Hmap.
Qed.

(** A root with one partner. *)
Lemma mergeVisit_pair i p o st :
  map_range_spec rt ->
  let h := m_heap st in
  merging (deref h p) = true -> MergingWith (deref h p) = {[o]} ->
  exists M,
    Mass M = Mass (deref h p) ⊕ Mass (deref h o) /\
    mergeVisit rt i p st
    = mkMergers (alter (fun q => set_MergingWith (MergingWith q ∖ {[p]}) q) o h ++ [M])
        (deleteList st ++ [i]) (addList st ++ [length h])
        true (mergeMultiple st) (Some p) (Some (length h)).
Proof.
intros Hmap h Hm Hw. unfold mergeVisit. fold h. rewrite Hm, Hw.
rewrite size_singleton. simpl.
unfold aggregate. fold h. rewrite Hw, map_range_singleton by done.
cbn [foldl]. unfold alloc.
eexists. split; [|cbn [a_heap aggregatePartner aggregateRoot]; rewrite length_alter; reflexivity].
rewrite mergedParticle_Mass. reflexivity.
Qed.

(** A marked particle whose partners are gone. *)
Lemma mergeVisit_spent i p st :
  let h := m_heap st in
  merging (deref h p) = true -> MergingWith (deref h p) = ∅ ->
  mergeVisit rt i p st
  = mkMergers (alter (set_merging false) p h) (deleteList st ++ [i]) (addList st)
      (mergeOccurred st) (mergeMultiple st) (mergeSource st) (mergedResult st).
Proof.
intros h Hm Hw. unfold mergeVisit. fold h. rewrite Hm, Hw.
by rewrite size_empty.
Qed.

(** X13.  A chain is counted twice in the middle.  When the roster is a
    particle [p], a lighter [o1] and a yet lighter [o2], with [o1]
    merging with both and [p] and [o2] not with each other, the merger
    phase replaces the three by two particles, of mass [p + o1] and of
    mass [o1 + o2]: the mass of [o1] goes into both. *)
Theorem X13_chain_counts_middle_twice e p o1 o2 :
  sort_Slice_spec rt -> map_range_spec rt ->
  Particles e = [p; o1; o2] -> NoDup [p; o1; o2] ->
  p < length (heap e) -> o1 < length (heap e) -> o2 < length (heap e) ->
  let P := deref (heap e) p in
  let O1 := deref (heap e) o1 in
  let O2 := deref (heap e) o2 in
  merging P = true -> merging O1 = true -> merging O2 = true ->
  MergingWith P = {[o1]} -> MergingWith O1 = {[p; o2]} -> MergingWith O2 = {[o1]} ->
  let e' := (handleMergers rt e).1 in
  let n := length (heap e) in
  Particles e' = [n; S n] /\
  Mass (deref (heap e') n) = Mass P ⊕ Mass O1 /\
  Mass (deref (heap e') (S n)) = Mass O1 ⊕ Mass O2.
Proof.
intros Hsort Hmap Hps Hnd Hp Ho1 Ho2 P O1 O2 HmP HmO1 HmO2 HwP HwO1 HwO2 e' n.
apply NoDup_cons in Hnd as [Hp_nin Hnd]. apply NoDup_cons in Hnd as [Ho1_nin _].
assert (Hpo1 : p ≠ o1) by (intros ->; apply Hp_nin; by left).
assert (Hpo2 : p ≠ o2) by (intros ->; apply Hp_nin; right; by left).
assert (Ho12 : o1 ≠ o2) by (intros ->; apply Ho1_nin; by left).
unfold e', handleMergers. cbv zeta. rewrite Hps.
set (st0 := mkMergers (heap e) [] [] false false None None).
cbn [mergeLoop].
(* the root p with its partner o1 *)
destruct (mergeVisit_pair 0 p o1 st0 Hmap HmP HwP) as (M1 & HM1 & ->).
cbn [m_heap st0] in HM1 |- *. fold P O1 n in HM1 |- *.
set (h1 := alter (fun q => set_MergingWith (MergingWith q ∖ {[p]}) q) o1 (heap e) ++ [M1]).
assert (Hl1 : length h1 = S n) by (unfold h1; rewrite length_app, length_alter; simpl; lia).
assert (H1o1 : deref h1 o1 = set_MergingWith (MergingWith O1 ∖ {[p]}) O1).
{ unfold h1. rewrite deref_alloc_old by (by rewrite length_alter).
  by rewrite deref_alter_eq. }
assert (H1o2 : deref h1 o2 = O2).
{ unfold h1. rewrite deref_alloc_old by (by rewrite length_alter).
  by rewrite deref_alter_ne. }
assert (H1n : deref h1 n = M1).
{ unfold h1.
  replace n with (length (alter (fun q => set_MergingWith (MergingWith q ∖ {[p]}) q) o1 (heap e)))
    by (by rewrite length_alter).
  apply deref_alloc_new. }
(* o1, a root in its turn, with its partner o2 *)
set (st1 := mkMergers h1 _ _ _ _ _ _).
destruct (mergeVisit_pair 1 o1 o2 st1 Hmap) as (M2 & HM2 & ->).
{ cbn [m_heap st1]. by rewrite H1o1. }
{ cbn [m_heap st1]. rewrite H1o1. cbn [MergingWith set_MergingWith]. rewrite HwO1.
  apply set_eq. intros x. rewrite elem_of_difference, elem_of_union, !elem_of_singleton.
  split; [intros [[->| ->] Hne]; done|intros ->; split; [by right|done]]. }
cbn [m_heap st1 deleteList addList mergeMultiple] in HM2 |- *.
rewrite H1o1, H1o2 in HM2. cbn [Mass set_MergingWith] in HM2. rewrite Hl1.
set (h2 := alter (fun q => set_MergingWith (MergingWith q ∖ {[o1]}) q) o2 h1 ++ [M2]).
assert (H2o2 : deref h2 o2 = set_MergingWith (MergingWith O2 ∖ {[o1]}) O2).
{ unfold h2. rewrite deref_alloc_old by (rewrite length_alter; lia).
  rewrite deref_alter_eq by lia. by rewrite H1o2. }
assert (H2n : deref h2 n = M1).
{ unfold h2. rewrite deref_alloc_old by (rewrite length_alter; lia).
  rewrite deref_alter_ne by lia. done. }
assert (H2n' : deref h2 (S n) = M2).
{ unfold h2.
  replace (S n) with (length (alter (fun q => set_MergingWith (MergingWith q ∖ {[o1]}) q) o2 h1))
    by (by rewrite length_alter).
  apply deref_alloc_new. }
(* o2, whose partner is gone *)
set (st2 := mkMergers h2 _ _ _ _ _ _).
rewrite (mergeVisit_spent 2 o2 st2).
2: { cbn [m_heap st2]. by rewrite H2o2. }
2: { cbn [m_heap st2]. rewrite H2o2. cbn [MergingWith set_MergingWith]. rewrite HwO2.
     apply set_eq. intros x. rewrite elem_of_difference, !elem_of_singleton.
     split; [intros [-> Hne]; done|intros Hx; by apply elem_of_empty in Hx]. }
cbn [m_heap st2 deleteList addList fst Particles heap set_Particles set_heap].
split; [|split].
- match goal with
  | |- context [foldl removeAt _ (sort_Slice rt nat ?less ?l0)] =>
      assert (Hnil : foldl removeAt [p; o1; o2] (sort_Slice rt nat less l0) = [])
        by (apply nil_length_inv;
            rewrite foldl_removeAt_length, (Permutation_length (proj1 (Hsort nat less l0)));
            reflexivity);
      rewrite Hnil
  end.
  reflexivity.
- rewrite deref_alter_ne by lia. by rewrite H2n.
- rewrite deref_alter_ne by lia. by rewrite H2n'.
Qed.
End Chain.

(** ** The root of a merger keeps its partners *)

Section Source.
Context {F : Type} `{Float64 F}.
Variable rt : GoRuntime.
Implicit Types (h : list (Particle F)) (a p o m : addr) (P : Particle F)
               (e : EngineData F) (W : list addr).

Lemma not_own_partner_unlinking a :
  kept_by_unlinking (fun P : Particle F => a ∉ MergingWith P).
Proof.
split.
- intros P p HP Hin. simpl in Hin. apply elem_of_difference in Hin as [Hin _]. done.
- intros P HP _. done.
Qed.

Lemma not_own_partner_motion a :
  kept_in_motion (fun P : Particle F => a ∉ MergingWith P).
Proof. by split. Qed.

Lemma collide_self e p o h a :
  p ≠ o -> not_own_partner h a -> not_own_partner (collide e p o h) a.
Proof.
unfold not_own_partner. intros Hne Ha.
assert (Hstep : forall (x y : addr) h', x ≠ y -> a ∉ MergingWith (deref h' a) ->
          a ∉ MergingWith
                (deref (alter (fun q => set_MergingWith ({[x]} ∪ MergingWith q)
                                          (set_merging true q)) y h') a)).
{ intros x y h' Hxy H'.
  match goal with
  | |- _ ∉ MergingWith (deref (alter ?fn _ _) _) =>
      destruct (deref_alter fn y a h') as [E|(<- & _ & E)]; rewrite E; [done|]
  end.
  simpl. intros Hin. apply elem_of_union in Hin as [Hin|Hin]; [|done].
  apply elem_of_singleton in Hin. by subst. }
unfold collide. destruct (mergeTest _ _ _); cbv zeta.
- destruct (bool_decide _); repeat apply Hstep; auto.
- apply (alter_keeps (fun P => a ∉ MergingWith P)); auto.
Qed.

Lemma interact_self e p o (st : Forces) a :
  not_own_partner (f_heap st) a -> not_own_partner (f_heap (interact e p o st)) a.
Proof.
intros Ha. unfold interact. cbv zeta.
destruct (bool_decide (o ∈ _) || bool_decide (p = o)) eqn:Hskip; [done|].
apply orb_false_iff in Hskip as [_ Hpo]. apply bool_decide_eq_false in Hpo.
repeat case_match; simpl; auto.
- apply (alter_keeps (fun P => a ∉ MergingWith P)); auto.
- by apply collide_self.
Qed.

Lemma accelerate_self e h p a :
  not_own_partner h a -> not_own_partner (accelerate e h p) a.
Proof.
intros Ha. unfold accelerate.
apply (alter_keeps (fun P => a ∉ MergingWith P)); [done|].
assert (Hgen : forall l (st : Forces), not_own_partner (f_heap st) a ->
          not_own_partner (f_heap (foldl (fun st o => interact e p o st) st l)) a).
{ induction l as [|o l IH]; intros st Hst; simpl; [done|].
  by apply IH, interact_self. }
by apply Hgen.
Qed.

Lemma afterSort_self e a :
  not_own_partner (heap e) a -> not_own_partner (heap (afterSort rt e)) a.
Proof.
intros Ha. rewrite afterSort_heap.
apply (positions_keeps (fun P => a ∉ MergingWith P)).
{ intros P HP. destruct (UpdatePosition_marks P) as [_ ->]. done. }
unfold updateParticleVelocities. simpl.
assert (Hgen : forall l h, not_own_partner h a -> not_own_partner (foldl (accelerate e) h l) a).
{ induction l as [|p l IH]; intros h Hh; simpl; [done|]. by apply IH, accelerate_self. }
by apply Hgen.
Qed.

(** The visit of a root leaves the root's own list alone: the reverse
    edges it deletes are in the lists of the partners. *)
Lemma mergeVisit_source W i p st :
  map_range_spec rt ->
  p < length (m_heap st) -> not_own_partner (m_heap st) p ->
  links_within W (deref (m_heap st) p) ->
  (mergeOccurred st = true ->
     exists q, mergeSource st = Some q /\ source_has_partner W (m_heap st) q) ->
  let st' := mergeVisit rt i p st in
  mergeOccurred st' = true ->
  exists q, mergeSource st' = Some q /\ source_has_partner W (m_heap st') q.
Proof.
intros Hmap Hp Hself Hlinks Hinv. unfold mergeVisit.
destruct (merging (deref (m_heap st) p)); [|done].
destruct (bool_decide (0 < size (MergingWith (deref (m_heap st) p)))) eqn:Hc.
- apply bool_decide_eq_true in Hc.
  unfold alloc. cbv zeta.
  pose proof (aggregate_length rt (m_heap st) p) as Hlen.
  assert (Hsame : deref (a_heap (aggregate rt (m_heap st) p)) p = deref (m_heap st) p).
  { unfold aggregate. rewrite aggregatePartner_fold_outside; [done|].
    intros Hin. apply Hself. rewrite (Hmap _) in Hin. by apply elem_of_elements in Hin. }
  set (ag := aggregate rt (m_heap st) p) in *. simpl.
  intros _. exists p. split; [done|].
  unfold source_has_partner. rewrite length_app, Hlen.
  rewrite deref_alloc_old by lia. rewrite Hsame.
  split; [simpl; lia|]. split.
  + intros Hempty. rewrite Hempty, size_empty in Hc. lia.
  + intros o Ho. split; [by apply Hlinks|]. intros ->. by apply Hself.
- simpl. intros Ho. destruct (Hinv Ho) as (q & Hq & Hl & Hne & Hin).
  exists q. split; [done|]. unfold source_has_partner. rewrite length_alter.
  split; [done|].
  destruct (deref_alter (set_merging false) p q (m_heap st)) as [->|(_ & _ & ->)]; by split.
Qed.

Lemma mergeLoop_source W ps : forall i st,
  map_range_spec rt ->
  (forall p, p ∈ ps ->
     p < length (m_heap st) /\ not_own_partner (m_heap st) p /\
     links_within W (deref (m_heap st) p)) ->
  (mergeOccurred st = true ->
     exists q, mergeSource st = Some q /\ source_has_partner W (m_heap st) q) ->
  let st' := mergeLoop rt ps i st in
  mergeOccurred st' = true ->
  exists q, mergeSource st' = Some q /\ source_has_partner W (m_heap st') q.
Proof.
induction ps as [|p ps IH]; intros i st Hmap Hps Hinv; simpl; [done|].
destruct (Hps p) as (Hp & Hself & Hlinks); [left|].
apply IH; [done| |by apply (mergeVisit_source W)].
intros q Hq. destruct (Hps q) as (Hq1 & Hq2 & Hq3); [by right|].
destruct (links_within_kept (F:=F) W) as (_ & _ & _ & Hun).
destruct (mergeVisit_old rt (links_within W) i p st Hun) as [Hlen Hkeep].
destruct (mergeVisit_old rt (fun P => q ∉ MergingWith P) i p st
            (not_own_partner_unlinking q)) as [_ Hkeep'].
split; [lia|]. split; [by apply Hkeep'|by apply Hkeep].
Qed.

Lemma tick_source e :
  sort_Slice_spec rt -> map_range_spec rt ->
  valid_roster e -> roster_all unmarked e ->
  forall occurred multiple source result,
  (UpdateParticles rt e).2 = (occurred, multiple, source, result) ->
  occurred = true ->
  exists p, source = Some p /\ p ∈ Particles e /\
            source_has_partner (Particles e) (heap (UpdateParticles rt e).1) p.
Proof.
intros Hsort Hmap Hv Hu occurred multiple source result Hres Ho.
rewrite tick_second in Hres.
pose proof (afterSort_roster rt e Hsort) as Hperm.
destruct (AllowMerge e) eqn:Hallow; [|congruence].
cbv zeta in Hres. injection Hres as H1 H2 H3 H4. subst.
assert (Hloop : exists q, mergeSource (handleMergers rt (afterSort rt e)).2 = Some q /\
          source_has_partner (Particles e) (heap (handleMergers rt (afterSort rt e)).1) q).
{ unfold handleMergers in *. cbv zeta in *.
  cbn [fst snd heap set_Particles set_heap] in *.
  apply (mergeLoop_source (Particles e)); [done| |done|done].
  intros p Hp. rewrite Hperm in Hp.
  change (m_heap _) with (heap (afterSort rt e)).
  split; [rewrite afterSort_length; by apply Hv|]. split.
  - apply afterSort_self. unfold not_own_partner.
    destruct (Hu p Hp) as [_ ->]. apply not_elem_of_empty.
  - apply afterSort_links; [|done].
    intros a Ha. by apply unmarked_links, Hu. }
destruct Hloop as (q & Hq & Hl & Hne & Hin).
destruct (handleMergers_results rt (afterSort rt e)) as ([_ Hagree] & _ & _).
destruct (Hagree Ho) as (p & m & Hp & _ & HpW & _).
rewrite Hq in Hp. injection Hp as ->.
exists p. split; [done|]. split; [by rewrite <- Hperm|].
rewrite UpdateParticles_engine. unfold afterMergers.
change (AllowMerge (afterSort rt e)) with (AllowMerge e). rewrite Hallow.
destruct (WallBounce _); [|done].
unfold source_has_partner. rewrite walls_length. split; [done|].
assert (Hmw : MergingWith (deref (heap (handleWalls (handleMergers rt (afterSort rt e)).1)) p)
              = MergingWith (deref (heap (handleMergers rt (afterSort rt e)).1) p)).
{ apply (walls_keeps (fun P => MergingWith P
           = MergingWith (deref (heap (handleMergers rt (afterSort rt e)).1) p))); [by split|done]. }
rewrite Hmw. by split.
Qed.

(** X14.  When a tick reports a merge, the root it returns still lists a
    partner after the tick: its [MergingWith] is not empty, and every
    particle in it is an object of the heap that was on the roster
    before the tick and is not the root itself.  Taking the first key of
    the map, as the status line of the physics loop does, is safe. *)
Theorem X14_merge_source_has_partner e :
  sort_Slice_spec rt -> map_range_spec rt ->
  valid_roster e -> roster_all unmarked e ->
  let e' := (UpdateParticles rt e).1 in
  forall occurred multiple source result,
  (UpdateParticles rt e).2 = (occurred, multiple, source, result) ->
  occurred = true ->
  exists p, source = Some p /\ p ∈ Particles e /\ p < length (heap e') /\
            MergingWith (deref (heap e') p) ≠ ∅ /\
            (forall o, o ∈ MergingWith (deref (heap e') p) ->
               o ∈ Particles e /\ o < length (heap e') /\ o ≠ p).
Proof.
intros Hsort Hmap Hv Hu e' occurred multiple source result Hres Ho.
destruct (tick_source e Hsort Hmap Hv Hu _ _ _ _ Hres Ho) as (p & Hp & HpW & Hl & Hne & Hin).
exists p. repeat (split; [done|]).
intros o Hmem. destruct (Hin o Hmem) as [HoW Hop].
split; [done|]. split; [|done].
pose proof (tick_grows rt e) as Hg. specialize (Hv o HoW). unfold e'. lia.
Qed.
End Source.

(** ** binary64: maxima, minima and clamps *)

Module B64Order.
Import B64Facts.
Local Open Scope Z_scope.

Lemma Max_comm x y : B64.Max x y = B64.Max y x.
Proof.
destruct x as [[]|[]| |[] m e], y as [[]|[]| |[] m' e']; try reflexivity.
all: unfold B64.Max;
  cbn [B64.is_inf B64.is_nan B64.is_zero B64.Signbit orb andb Bool.eqb B64.nan].
all: match goal with
     | |- (if B64.ltb ?a ?b then _ else _) = (if B64.ltb ?b ?a then _ else _) =>
         destruct (B64.ltb a b) eqn:E1, (B64.ltb b a) eqn:E2; try reflexivity;
         [rewrite (ltb_asym _ _ E1) in E2; discriminate
         |by apply finite_incomparable_eq]
     end.
Qed.

Lemma Min_comm x y : B64.Min x y = B64.Min y x.
Proof.
destruct x as [[]|[]| |[] m e], y as [[]|[]| |[] m' e']; try reflexivity.
all: unfold B64.Min;
  cbn [B64.is_inf B64.is_nan B64.is_zero B64.Signbit orb andb Bool.eqb B64.nan].
all: match goal with
     | |- (if B64.ltb ?a ?b then _ else _) = (if B64.ltb ?b ?a then _ else _) =>
         destruct (B64.ltb a b) eqn:E1, (B64.ltb b a) eqn:E2; try reflexivity;
         [rewrite (ltb_asym _ _ E1) in E2; discriminate
         |symmetry; by apply finite_incomparable_eq]
     end.
Qed.

(** Taking the maximum with the same bound twice changes nothing. *)
Lemma Max_idem lo y : B64.Max lo (B64.Max lo y) = B64.Max lo y.
Proof.
destruct lo as [[]|[]| |[] m e], y as [[]|[]| |[] m' e']; try reflexivity.
all: unfold B64.Max at 2;
  cbn [B64.is_inf B64.is_nan B64.is_zero B64.Signbit orb andb Bool.eqb B64.nan].
all: destruct (B64.ltb _ _) eqn:E1.
all: unfold B64.Max;
  cbn [B64.is_inf B64.is_nan B64.is_zero B64.Signbit orb andb Bool.eqb B64.nan];
  rewrite ?E1, ?ltb_irrefl; reflexivity.
Qed.

(** A value that a finite bound does not exceed... is kept by the
    minimum with that bound. *)
Lemma Min_keeps x s m e :
  B64.is_nan x = false -> B64.ltb (S754_finite s m e) x = false ->
  B64.Min x (S754_finite s m e) = x.
Proof.
intros Hx Hle.
destruct x as [[]|[]| |sx mx ex]; try discriminate; try reflexivity.
- destruct s; [discriminate Hle|reflexivity].
- destruct s; [discriminate Hle|reflexivity].
- unfold B64.Min.
  cbn [B64.is_inf B64.is_nan B64.is_zero B64.Signbit orb andb Bool.eqb B64.nan].
  destruct (B64.ltb (S754_finite sx mx ex) (S754_finite s m e)) eqn:E1; [done|].
  by apply finite_incomparable_eq.
Qed.

(** Clamping between a bound and a finite larger bound is idempotent,
    for every argument. *)
Lemma clamp_idem lo s m e x :
  B64.ltb lo (S754_finite s m e) = true ->
  B64.Max lo (B64.Min (B64.Max lo (B64.Min x (S754_finite s m e))) (S754_finite s m e))
  = B64.Max lo (B64.Min x (S754_finite s m e)).
Proof.
intros Hlt. set (hi := S754_finite s m e) in *.
destruct (ltb_true_not_nan _ _ Hlt) as [Hlo Hhi].
destruct (B64.is_nan x) eqn:Hx.
- destruct x; try discriminate.
  destruct lo as [[]|[]| |[] ml el]; try discriminate; reflexivity.
- destruct (clamp_within lo hi x Hx Hlo Hhi (ltb_asym _ _ Hlt)) as (Hr & _ & Hle).
  cbv zeta in Hr, Hle. unfold hi in *.
  rewrite (Min_keeps _ s m e Hr Hle). apply Max_idem.
Qed.

(** What a clamp stores: not-a-number for not-a-number, otherwise a
    value within the bounds, and the argument itself when that is within
    the bounds (a negative zero at a lower bound zero becomes the
    bound). *)
Lemma clamp_in_range lo s m e x :
  B64.ltb lo (S754_finite s m e) = true ->
  B64.is_nan x = false ->
  B64.ltb x lo = false -> B64.ltb (S754_finite s m e) x = false ->
  B64.Max lo x = x -> 
  B64.Max lo (B64.Min x (S754_finite s m e)) = x.
Proof.
intros Hlt Hx Hlo Hhi Hmax. by rewrite (Min_keeps _ s m e Hx Hhi).
Qed.

Lemma Max_keeps s m e x :
  B64.is_nan x = false -> B64.ltb x (S754_finite s m e) = false ->
  B64.Max (S754_finite s m e) x = x.
Proof.
intros Hx Hle.
destruct x as [[]|[]| |sx mx ex]; try discriminate; try reflexivity.
all: try (destruct s; first [discriminate Hle|reflexivity]).
unfold B64.Max.
  cbn [B64.is_inf B64.is_nan B64.is_zero B64.Signbit orb andb Bool.eqb B64.nan].
  by rewrite Hle.
Qed.

Lemma clamp_nan lo s m e :
  B64.ltb lo (S754_finite s m e) = true ->
  B64.Max lo (B64.Min S754_nan (S754_finite s m e)) = S754_nan.
Proof.
intros Hlt. destruct lo as [[]|[]| |[] ml el]; try discriminate; reflexivity.
Qed.
End B64Order.

(** ** The charges a particle stores (binary64) *)

Section Charges.
Import B64Facts B64Order.
Local Open Scope f64_scope.
Implicit Types (P : Particle spec_float) (c f x y mass : spec_float)
               (e : EngineData spec_float).

Lemma clampCloseCharge_b64 c :
  clampCloseCharge c
  = B64.Max (S754_finite true 4503599627370496 (-52))
      (B64.Min c (S754_finite false 4503599627370496 (-52))).
Proof. reflexivity. Qed.

Lemma clampFarCharge_b64 f :
  clampFarCharge f
  = B64.Max (S754_zero false) (B64.Min f (S754_finite false 4503599627370496 (-52))).
Proof. reflexivity. Qed.

Lemma clampCloseCharge_idem c : clampCloseCharge (clampCloseCharge c) = clampCloseCharge c.
Proof. rewrite !clampCloseCharge_b64. by apply clamp_idem. Qed.

Lemma clampFarCharge_idem f : clampFarCharge (clampFarCharge f) = clampFarCharge f.
Proof. rewrite !clampFarCharge_b64. by apply clamp_idem. Qed.

Lemma SetCloseCharge_clamped c P :
  SetCloseCharge (clampCloseCharge c) P = SetCloseCharge c P.
Proof. unfold SetCloseCharge. cbv zeta. by rewrite clampCloseCharge_idem. Qed.

Lemma SetFarCharge_clamped f P :
  SetFarCharge (clampFarCharge f) P = SetFarCharge f P.
Proof. unfold SetFarCharge. cbv zeta. by rewrite clampFarCharge_idem. Qed.

Lemma initializeWithValues_clamped mass c f P :
  initializeWithValues mass (clampCloseCharge c) (clampFarCharge f) P
  = initializeWithValues mass c f P.
Proof.
unfold initializeWithValues. by rewrite SetCloseCharge_clamped, SetFarCharge_clamped.
Qed.

Lemma initializeWithValues_fields mass c f P :
  Mass (initializeWithValues mass c f P) = mass /\
  CloseCharge (initializeWithValues mass c f P) = clampCloseCharge c /\
  FarCharge (initializeWithValues mass c f P) = clampFarCharge f.
Proof.
unfold initializeWithValues, SetFarCharge, SetCloseCharge, SetMass. cbv zeta.
by destruct (f_ltb _ _).
Qed.

Lemma initializeWithValues_again mass c f mass' c' f' P :
  initializeWithValues mass c f (initializeWithValues mass' c' f' P)
  = initializeWithValues mass c f P.
Proof.
unfold initializeWithValues, SetFarCharge, SetCloseCharge, SetMass. cbv zeta.
by destruct (f_ltb _ _), (f_ltb _ _).
Qed.

Lemma Clone_idem P : Clone (Clone P) = Clone P.
Proof.
destruct (Clone_copies P) as (Hm & Hc & Hf & Hp & Hv).
unfold Clone at 1. rewrite Hm, Hc, Hf, Hp, Hv.
unfold NewParticle. by rewrite initializeWithValues_clamped.
Qed.

Lemma initialize_idem P : initialize (initialize P) = initialize P.
Proof.
unfold initialize at 1.
destruct (initializeWithValues_fields (Mass P) (CloseCharge P) (FarCharge P) P)
  as (Hm & Hc & Hf).
fold (initialize P) in Hm, Hc, Hf. rewrite Hm, Hc, Hf.
unfold initialize. by rewrite initializeWithValues_again, initializeWithValues_clamped.
Qed.

(** X15.  Cloning and initialising are idempotent on binary64: the
    clone of a clone is the clone, field by field, and initialising an
    initialised particle changes nothing.  The charges were clamped the
    first time and the clamps are idempotent for every value, not-a-number
    and the infinities and zeros included; the proxies are recomputed
    from the same values. *)
Theorem X15_clone_of_clone P :
  Clone (Clone P) = Clone P /\ initialize (initialize P) = initialize P.
Proof. split; [apply Clone_idem|apply initialize_idem]. Qed.

Lemma clamp_is_nan lo s m ex x :
  B64.ltb lo (S754_finite s m ex) = true ->
  B64.is_nan (B64.Max lo (B64.Min x (S754_finite s m ex))) = B64.is_nan x.
Proof.
intros Hlt. destruct (ltb_true_not_nan _ _ Hlt) as [Hlo Hhi].
destruct (B64.is_nan x) eqn:Hx.
- destruct x; try discriminate. by rewrite clamp_nan.
- by destruct (clamp_within lo _ x Hx Hlo Hhi (ltb_asym _ _ Hlt)) as (Hr & _ & _).
Qed.

Lemma Max_zero_keeps x :
  B64.is_nan x = false -> B64.ltb x (S754_zero false) = false -> x <> S754_zero true ->
  B64.Max (S754_zero false) x = x.
Proof.
intros Hx Hle Hz. destruct x as [[]|[]| |[] m ex]; try discriminate; try reflexivity.
done.
Qed.

Lemma Max_zero_positive x : B64.Max (S754_zero false) x <> S754_zero true.
Proof. by destruct x as [[]|[]| |[] m ex]. Qed.

(** X16.  What the charge setters store.  A not-a-number is stored as
    it is, neither setter replaces it.  Every other close charge is
    stored as a value that is not below -1 and not above 1, every other
    far charge as one not below 0 and not above 1 and never as the
    negative zero.  A charge that is within its range already is stored
    unchanged (the negative zero far charge apart, which becomes the
    positive zero). *)
Theorem X16_charges_are_clamped c f P :
  let cc := CloseCharge (SetCloseCharge c P) in
  let fc := FarCharge (SetFarCharge f P) in
  B64.is_nan cc = B64.is_nan c /\ B64.is_nan fc = B64.is_nan f /\
  (B64.is_nan c = false -> (cc ≺ f_num (-1)) = false /\ (f_num 1 ≺ cc) = false) /\
  (B64.is_nan f = false ->
     (fc ≺ fzero) = false /\ (f_num 1 ≺ fc) = false /\ fc <> S754_zero true) /\
  (B64.is_nan c = false -> (c ≺ f_num (-1)) = false -> (f_num 1 ≺ c) = false -> cc = c) /\
  (B64.is_nan f = false -> (f ≺ fzero) = false -> (f_num 1 ≺ f) = false ->
     f <> S754_zero true -> fc = f).
Proof.
intros cc fc.
assert (Hcc : cc = clampCloseCharge c).
{ unfold cc, SetCloseCharge. cbv zeta. by destruct (f_ltb _ _). }
assert (Hfc : fc = clampFarCharge f) by reflexivity.
rewrite Hcc, Hfc, clampCloseCharge_b64, clampFarCharge_b64.
change (f_num (-1)) with (S754_finite true 4503599627370496 (-52)).
change (f_num 1) with (S754_finite false 4503599627370496 (-52)).
change (@fzero spec_float _) with (S754_zero false).
change (@f_ltb spec_float _) with B64.ltb.
split; [by apply clamp_is_nan|]. split; [by apply clamp_is_nan|].
split; [|split; [|split]].
- intros Hc.
  destruct (clamp_within (S754_finite true 4503599627370496 (-52))
              (S754_finite false 4503599627370496 (-52)) c Hc) as (_ & H1 & H2); done.
- intros Hf.
  destruct (clamp_within (S754_zero false)
              (S754_finite false 4503599627370496 (-52)) f Hf) as (_ & H1 & H2); try done.
  split; [done|]. split; [done|]. apply Max_zero_positive.
- intros Hc Hlo Hhi. rewrite (Min_keeps _ _ _ _ Hc Hhi). by apply Max_keeps.
- intros Hf Hlo Hhi Hz. rewrite (Min_keeps _ _ _ _ Hf Hhi). by apply Max_zero_keeps.
Qed.
End Charges.

(** ** The merge test does not depend on the side (binary64) *)

Section Symmetry.
Import B64Facts B64Order.
Local Open Scope f64_scope.
Implicit Types (P O : Particle spec_float) (x y : spec_float) (e : EngineData spec_float).

Lemma B64_add_comm x y : B64.add x y = B64.add y x.
Proof.
destruct x as [[]|[]| |sx mx ex], y as [[]|[]| |sy my ey]; try reflexivity.
unfold B64.add, SFadd. cbv zeta. rewrite (Z.min_comm ey ex). f_equal. apply Z.add_comm.
Qed.

Lemma massRatio_sym e P O : massRatio e P O = massRatio e O P.
Proof.
unfold massRatio. destruct (AllowMerge e); [|done].
change (@f_ltb spec_float _) with B64.ltb. change (@f_div spec_float _) with B64.div.
rewrite (ratio_max_min (Mass P) (Mass O)), (ratio_max_min (Mass O) (Mass P)).
by rewrite (Max_comm (Mass P)), (Min_comm (Mass P)).
Qed.

Lemma mergeTest_sym e P O : mergeTest e P O = mergeTest e O P.
Proof.
unfold mergeTest. rewrite (massRatio_sym e P O).
change (@f_add spec_float _) with B64.add.
rewrite (B64_add_comm (math_Abs (CloseCharge P))).
by destruct (math_Signbit (CloseCharge P)), (math_Signbit (CloseCharge O)).
Qed.

(** X17.  Whether a colliding pair merges or bounces does not depend on
    which of the two particles the loop is working on: the test gives the
    same answer for [(p, o)] and for [(o, p)], for all masses and charges,
    not-a-number, zeros and infinities included. *)
Theorem X17_merge_test_is_symmetric e P O : mergeTest e P O = mergeTest e O P.
Proof. apply mergeTest_sym. Qed.
End Symmetry.

(** ** Rounding never invents a not-a-number *)

Module B64Round.
Import B64Facts B64Order.
Local Open Scope Z_scope.

Lemma shr_1_nonneg mrs : 0 <= shr_m mrs -> 0 <= shr_m (shr_1 mrs).
Proof. destruct mrs as [[|[p|p|]|[p|p|]] r s]; simpl; lia. Qed.

Lemma iter_shr_1_nonneg p : forall mrs,
  0 <= shr_m mrs -> 0 <= shr_m (SpecFloat.iter_pos shr_1 p mrs).
Proof.
induction p as [p IH|p IH|]; intros mrs Hm; simpl.
- apply IH, IH. by apply shr_1_nonneg.
- by apply IH, IH.
- by apply shr_1_nonneg.
Qed.

Lemma shr_fexp_nonneg m e l :
  0 <= m -> 0 <= shr_m (shr_fexp B64.prec B64.emax m e l).1.
Proof.
intros Hm. unfold shr_fexp, shr.
assert (H0 : 0 <= shr_m (shr_record_of_loc m l)) by (by destruct l as [|[]]).
destruct (_ - e); simpl; [done| |done]. by apply iter_shr_1_nonneg.
Qed.

Lemma round_nearest_even_nonneg m l : 0 <= m -> 0 <= round_nearest_even m l.
Proof.
intros Hm. destruct l as [|[]]; simpl; try lia. destruct (Z.even m); lia.
Qed.

Lemma binary_round_aux_not_nan s m e l :
  0 <= m -> B64.is_nan (binary_round_aux B64.prec B64.emax s m e l) = false.
Proof.
intros Hm. unfold binary_round_aux.
pose proof (shr_fexp_nonneg m e l Hm) as H1.
destruct (shr_fexp B64.prec B64.emax m e l) as [mrs' e'].
pose proof (shr_fexp_nonneg (round_nearest_even (shr_m mrs') (loc_of_shr_record mrs')) e'
              loc_Exact (round_nearest_even_nonneg _ _ H1)) as H2.
destruct (shr_fexp B64.prec B64.emax _ e' loc_Exact) as [mrs'' e''].
simpl in H2. destruct (shr_m mrs'') as [|p|p]; [done| |lia].
by destruct (_ <=? _).
Qed.

(** A finite factor never makes a number into a not-a-number. *)
Lemma mul_finite_not_nan s m e y :
  B64.is_nan y = false -> B64.is_nan (B64.mul (S754_finite s m e) y) = false.
Proof.
intros Hy. destruct y as [sy|sy| |sy my ey]; try done.
apply binary_round_aux_not_nan. lia.
Qed.

Lemma of_int_not_nan z : B64.is_nan (B64.of_int z) = false.
Proof.
unfold B64.of_int, binary_normalize. destruct z as [|p|p]; [done| |];
  unfold binary_round; destruct (shl_align _ _ _) as [mz ez];
  apply binary_round_aux_not_nan; lia.
Qed.

Lemma Max_spec x y :
  B64.is_nan x = false -> B64.is_nan y = false ->
  B64.is_nan (B64.Max x y) = false /\
  ~ B64.lex_lt (B64.key (B64.Max x y)) (B64.key x) /\
  ~ B64.lex_lt (B64.key (B64.Max x y)) (B64.key y) /\
  (B64.key (B64.Max x y) = B64.key x \/ B64.key (B64.Max x y) = B64.key y).
Proof.
intros Hx Hy. unfold B64.Max.
destruct (B64.ltb y x) eqn:Hyx.
- pose proof (proj1 (ltb_key y x Hy Hx) Hyx) as K.
  destruct x as [[]|[]| |[] mx ex], y as [[]|[]| |[] my ey];
    try discriminate; simpl; rewrite ?Hyx; simpl;
    unfold B64.lex_lt, B64.key in *; simpl in *; try lia;
    (split; [done|split; [lia|split; [lia|auto]]]).
- pose proof (proj1 (ltb_false_key y x Hy Hx) Hyx) as K.
  destruct x as [[]|[]| |[] mx ex], y as [[]|[]| |[] my ey];
    try discriminate; simpl; rewrite ?Hyx; simpl;
    unfold B64.lex_lt, B64.key in *; simpl in *; try lia;
    (split; [done|split; [lia|split; [lia|auto]]]).
Qed.

Lemma Min_spec x y :
  B64.is_nan x = false -> B64.is_nan y = false ->
  B64.is_nan (B64.Min x y) = false /\
  ~ B64.lex_lt (B64.key x) (B64.key (B64.Min x y)) /\
  ~ B64.lex_lt (B64.key y) (B64.key (B64.Min x y)) /\
  (B64.key (B64.Min x y) = B64.key x \/ B64.key (B64.Min x y) = B64.key y).
Proof.
intros Hx Hy. unfold B64.Min.
destruct (B64.ltb x y) eqn:Hxy.
- pose proof (proj1 (ltb_key x y Hx Hy) Hxy) as K.
  destruct x as [[]|[]| |[] mx ex], y as [[]|[]| |[] my ey];
    try discriminate; simpl; rewrite ?Hxy; simpl;
    unfold B64.lex_lt, B64.key in *; simpl in *; try lia;
    (split; [done|split; [lia|split; [lia|auto]]]).
- pose proof (proj1 (ltb_false_key x y Hx Hy) Hxy) as K.
  destruct x as [[]|[]| |[] mx ex], y as [[]|[]| |[] my ey];
    try discriminate; simpl; rewrite ?Hxy; simpl;
    unfold B64.lex_lt, B64.key in *; simpl in *; try lia;
    (split; [done|split; [lia|split; [lia|auto]]]).
Qed.

(** The minimum with a smaller second argument is that argument. *)
Lemma Min_of_larger x y : B64.ltb y x = true -> B64.Min x y = y.
Proof.
intros Hlt. pose proof (ltb_asym _ _ Hlt) as Hxy.
destruct x as [[]|[]| |[] mx ex], y as [[]|[]| |[] my ey]; try discriminate; try reflexivity.
all: unfold B64.Min;
  cbn [B64.is_inf B64.is_nan B64.is_zero B64.Signbit orb andb Bool.eqb B64.nan];
  by rewrite Hxy.
Qed.
End B64Round.

(** ** The mass of a generated particle (binary64) *)

Section GeneratedMass.
Import B64Facts B64Order B64Round.
Local Open Scope f64_scope.
Implicit Types (d : Data spec_float) (r : Draw spec_float).

Lemma generateOne_Mass d r :
  Mass (generateOne d r)
  = B64.Min (B64.Max (d_norm r ⊗ f_lit 55 100 ⊗ f_of_int (AverageMass d)
                        ⊕ f_of_int (AverageMass d))
                     (B64.Max (f_num 4) (f_lit 2 10 ⊗ f_of_int (AverageMass d))))
            (f_lit 175 100 ⊗ f_of_int (AverageMass d)).
Proof.
unfold generateOne, NewParticle, initializeWithValues, SetFarCharge, SetCloseCharge, SetMass.
cbv zeta. by destruct (f_ltb _ _).
Qed.

Lemma mass_bounds_are_numbers d :
  B64.is_nan (B64.Max (f_num 4) (f_lit 2 10 ⊗ f_of_int (AverageMass d))) = false /\
  B64.is_nan (f_lit 175 100 ⊗ f_of_int (AverageMass d)) = false.
Proof.
pose proof (of_int_not_nan (AverageMass d)) as Havg.
assert (H2 : exists s m e, f_lit 2 10 = S754_finite s m e)
  by (do 3 eexists; vm_compute; reflexivity).
assert (H175 : exists s m e, f_lit 175 100 = S754_finite s m e)
  by (do 3 eexists; vm_compute; reflexivity).
destruct H2 as (s2 & m2 & e2 & ->), H175 as (s175 & m175 & e175 & ->).
split.
- apply Max_spec; [done|]. by apply mul_finite_not_nan.
- by apply mul_finite_not_nan.
Qed.

Lemma generated_mass_bounds d r :
  let avg := f_of_int (AverageMass d) in
  let drawn := d_norm r ⊗ f_lit 55 100 ⊗ avg ⊕ avg in
  let lo := math_Max (f_num 4) (f_lit 2 10 ⊗ avg) in
  let hi := f_lit 175 100 ⊗ avg in
  let m := Mass (generateOne d r) in
  B64.is_nan drawn = false ->
  B64.is_nan m = false /\
  (hi ≺ m) = false /\
  ((hi ≺ lo) = false -> (m ≺ lo) = false) /\
  ((hi ≺ lo) = true -> m = hi).
Proof.
intros avg drawn lo hi m Hd.
destruct (mass_bounds_are_numbers d) as [Hlo Hhi]. fold avg in Hlo, Hhi.
change (B64.Max (f_num 4) (f_lit 2 10 ⊗ avg)) with lo in Hlo. fold hi in Hhi.
assert (Hm : m = B64.Min (B64.Max drawn lo) hi) by apply generateOne_Mass.
destruct (Max_spec drawn lo Hd Hlo) as (Hx & _ & Kx & _).
destruct (Min_spec (B64.Max drawn lo) hi Hx Hhi) as (Hmn & _ & K2 & K3).
rewrite <- Hm in Hmn, K2, K3.
change (@f_ltb spec_float _) with B64.ltb.
split; [done|]. split; [by apply ltb_false_key|]. split.
- intros Hle. apply ltb_false_key in Hle; [|done..]. apply ltb_false_key; [done..|].
  destruct K3 as [-> | ->]; done.
- intros Hlt. rewrite Hm. apply Min_of_larger.
  apply ltb_key in Hlt; [|done..]. apply ltb_key; [done..|].
  unfold B64.lex_lt in *. lia.
Qed.

(** X18.  The mass of a generated particle, when the normally
    distributed draw gives a number: the mass is a number and never above
    1.75 times the average mass; it is not below the larger of 4 and a
    fifth of the average mass when that bound is not above 1.75 times the
    average; and when it is above (a small or negative average mass), the
    mass is exactly 1.75 times the average mass, whatever was drawn. *)
Theorem X18_generated_mass_bounds d r :
  let avg := f_of_int (AverageMass d) in
  let drawn := d_norm r ⊗ f_lit 55 100 ⊗ avg ⊕ avg in
  let lo := math_Max (f_num 4) (f_lit 2 10 ⊗ avg) in
  let hi := f_lit 175 100 ⊗ avg in
  let m := Mass (generateOne d r) in
  B64.is_nan drawn = false ->
  B64.is_nan m = false /\
  (hi ≺ m) = false /\
  ((hi ≺ lo) = false -> (m ≺ lo) = false) /\
  ((hi ≺ lo) = true -> m = hi).
Proof. apply generated_mass_bounds. Qed.
End GeneratedMass.

(** ** The filled circle *)

Module RasterFacts.
Import Raster.
Local Open Scope Z_scope.

Lemma wrap_small z : - 2 ^ 63 <= z < 2 ^ 63 -> Int64.wrap z = z.
Proof. intros Hz. unfold Int64.wrap. rewrite Z.mod_small; lia. Qed.

Lemma add_small a b : - 2 ^ 63 <= a + b < 2 ^ 63 -> Int64.add a b = a + b.
Proof. apply wrap_small. Qed.

Lemma sub_small a b : - 2 ^ 63 <= a - b < 2 ^ 63 -> Int64.sub a b = a - b.
Proof. apply wrap_small. Qed.

Lemma hline_spec y0 x1 col : forall fuel x,
  x1 < 2 ^ 63 - 1 -> - 2 ^ 63 <= x -> x <= x1 + 1 ->
  (Z.to_nat (x1 - x + 1) <= fuel)%nat ->
  exists l, hline fuel x y0 x1 col = Some l /\
    forall call, call ∈ l <->
      c_y call = y0 /\ c_colour call = col /\ x <= c_x call <= x1.
Proof.
induction fuel as [|fuel IH]; intros x Hx1 Hlo Hhi Hfuel; simpl.
- destruct (x <=? x1) eqn:Hc; [apply Z.leb_le in Hc; lia|].
  apply Z.leb_gt in Hc. exists []. split; [done|].
  intros call. rewrite elem_of_nil. split; [done|lia].
- destruct (x <=? x1) eqn:Hc.
  + apply Z.leb_le in Hc. rewrite add_small by lia.
    destruct (IH (x + 1)) as (l & -> & Hl); [lia..|].
    simpl. eexists. split; [done|].
    intros [px py c]. rewrite elem_of_cons, Hl. simpl. split.
    * intros [Heq|(? & ? & ?)]; [injection Heq as -> -> ->|]; repeat split; auto; lia.
    * intros (-> & -> & Hr). destruct (decide (px = x)) as [->|Hne]; [by left|right; repeat split; auto; lia].
  + apply Z.leb_gt in Hc. exists []. split; [done|].
    intros call. rewrite elem_of_nil. split; [done|lia].
Qed.

Lemma drawHLine_spec x0 y0 x1 col :
  - 2 ^ 63 <= x0 -> x0 <= x1 + 1 -> x1 < 2 ^ 63 - 1 ->
  exists l, drawHLine x0 y0 x1 col = Some l /\
    forall call, call ∈ l <->
      c_y call = y0 /\ c_colour call = col /\ x0 <= c_x call <= x1.
Proof. intros H0 H1 H2. apply hline_spec; auto. Qed.

Lemma drawTwoCenteredLines_spec cx cy dx dy col :
  - 2 ^ 62 <= cx <= 2 ^ 62 -> - 2 ^ 62 <= cy <= 2 ^ 62 ->
  0 <= dx <= 2 ^ 30 -> 0 <= dy <= 2 ^ 30 ->
  exists l, drawTwoCenteredLines cx cy dx dy col = Some l /\
    forall call, call ∈ l <->
      c_colour call = col /\ cx - dx <= c_x call <= cx + dx /\
      (c_y call = cy + dy \/ c_y call = cy - dy).
Proof.
intros Hcx Hcy Hdx Hdy. unfold drawTwoCenteredLines.
rewrite !add_small, !sub_small by lia.
destruct (drawHLine_spec (cx - dx) (cy + dy) (cx + dx) col) as (l1 & -> & H1); [lia..|].
simpl. destruct (dy =? 0) eqn:Hz; simpl.
- apply Z.eqb_eq in Hz. subst dy. exists l1. split; [done|].
  intros call. rewrite H1. split.
  + intros (? & ? & ?). split; [done|]. split; [lia|]. by left.
  + intros (? & ? & [?|?]); (split; [lia|split; [done|lia]]).
- destruct (drawHLine_spec (cx - dx) (cy - dy) (cx + dx) col) as (l2 & -> & H2); [lia..|].
  simpl. eexists. split; [done|].
  intros call. rewrite elem_of_app, H1, H2. split.
  + intros [(? & ? & ?)|(? & ? & ?)]; (split; [done|split; [lia|auto]]).
  + intros (? & ? & [?|?]); [left|right]; (split; [done|split; [done|lia]]).
Qed.

(** The squares of the coordinates against the square of a bound. *)
Lemma square_within a x : - x <= a <= x -> a * a <= x * x.
Proof. nia. Qed.

Lemma square_beyond a x : 0 <= x -> a < - x \/ x < a -> x * x < a * a.
Proof. nia. Qed.

(** The loop seen from the head [(x, y)]: the rows still to come are
    those from [y] to [x] away from the centre, above and below, and each
    is painted exactly as far as the circle reaches. *)
Lemma circleLoop_spec rad cx cy col :
  1 <= rad <= 2 ^ 30 -> - 2 ^ 62 <= cx <= 2 ^ 62 -> - 2 ^ 62 <= cy <= 2 ^ 62 ->
  forall fuel x y err,
  0 <= y <= rad + 1 -> - 1 <= x <= rad ->
  (y <= x -> err = x * x + y * y - rad * rad - rad /\
             x * x + y * y < rad * rad + rad /\
             rad * rad + rad <= (x + 1) * (x + 1) + y * y) ->
  (Z.to_nat (x - y + 1) <= fuel)%nat ->
  exists l, circleLoop fuel cx cy err x y col = Some l /\
    forall px py, painted l col px py <->
      (y <= py - cy <= x \/ y <= cy - py <= x) /\
      (px - cx) * (px - cx) + (py - cy) * (py - cy) < rad * rad + rad.
Proof.
intros Hrad Hcx Hcy.
assert (Hr2 : rad * rad <= 2 ^ 60) by nia.
induction fuel as [|fuel IH]; intros x y err Hy Hx Hinv Hfuel; simpl.
- destruct (y <=? x) eqn:Hc; [apply Z.leb_le in Hc; lia|].
  apply Z.leb_gt in Hc. exists []. split; [done|].
  intros px py. unfold painted. rewrite elem_of_nil. split; [done|lia].
- destruct (y <=? x) eqn:Hc.
  2:{ apply Z.leb_gt in Hc. exists []. split; [done|].
      intros px py. unfold painted. rewrite elem_of_nil. split; [done|lia]. }
  apply Z.leb_le in Hc. destruct (Hinv Hc) as (Herr & Hin & Hout).
  assert (Hxx : x * x <= rad * rad) by nia.
  assert (Hyy : y * y <= rad * rad) by nia.
  rewrite (add_small err y) by lia.
  rewrite (add_small y 1) by lia.
  rewrite (add_small (err + y) (y + 1)) by lia.
  destruct (drawTwoCenteredLines_spec cx cy x y col) as (l1 & -> & H1); [lia..|].
  simpl.
  destruct (0 <=? err + y + (y + 1)) eqn:Hge.
  + apply Z.leb_le in Hge.
    rewrite (sub_small (err + y + (y + 1)) x) by lia.
    rewrite (sub_small x 1) by lia.
    rewrite (sub_small (err + y + (y + 1) - x) (x - 1)) by lia.
    destruct (IH (x - 1) (y + 1) (err + y + (y + 1) - x - (x - 1)))
      as (rest & -> & Hrest); [lia|lia| |lia|].
    { intros Hc'. split; [nia|]. split; nia. }
    destruct (x =? y) eqn:Hxy; simpl.
    * apply Z.eqb_eq in Hxy. subst x. eexists. split; [done|].
      intros px py. unfold painted in *. rewrite elem_of_app, H1, Hrest. simpl.
      split.
      -- intros [(_ & Hpx & Hpy)|[Hrow _]]; [|lia].
         split; [lia|]. pose proof (square_within (px - cx) y ltac:(lia)).
         assert ((py - cy) * (py - cy) = y * y) by (destruct Hpy as [->| ->]; ring).
         lia.
      -- intros [Hrow Hd]. left. split; [done|].
         assert (Hpy : py = cy + y \/ py = cy - y) by lia.
         split; [|done].
         assert ((py - cy) * (py - cy) = y * y) by (destruct Hpy as [->| ->]; ring).
         destruct (decide (cx - y <= px <= cx + y)) as [?|Hn]; [done|].
         pose proof (square_beyond (px - cx) y ltac:(lia) ltac:(lia)). nia.
    * apply Z.eqb_neq in Hxy.
      destruct (drawTwoCenteredLines_spec cx cy y x col) as (l2 & -> & H2); [lia..|].
      simpl. eexists. split; [done|].
      intros px py. unfold painted in *. rewrite !elem_of_app, H1, H2, Hrest. simpl.
      split.
      -- intros [(_ & Hpx & Hpy)|[(_ & Hpx & Hpy)|[Hrow Hd]]].
         ++ split; [lia|]. pose proof (square_within (px - cx) x ltac:(lia)).
            assert ((py - cy) * (py - cy) = y * y) by (destruct Hpy as [->| ->]; ring).
            lia.
         ++ split; [lia|]. pose proof (square_within (px - cx) y ltac:(lia)).
            assert ((py - cy) * (py - cy) = x * x) by (destruct Hpy as [->| ->]; ring).
            lia.
         ++ split; [lia|done].
      -- intros [Hrow Hd].
         destruct (decide (py = cy + y \/ py = cy - y)) as [Hpy|Hny].
         { left. split; [done|]. split; [|done].
           assert ((py - cy) * (py - cy) = y * y) by (destruct Hpy as [->| ->]; ring).
           destruct (decide (cx - x <= px <= cx + x)) as [?|Hn]; [done|].
           pose proof (square_beyond (px - cx) x ltac:(lia) ltac:(lia)). nia. }
         destruct (decide (py = cy + x \/ py = cy - x)) as [Hpx|Hnx].
         { right. left. split; [done|]. split; [|done].
           assert ((py - cy) * (py - cy) = x * x) by (destruct Hpx as [->| ->]; ring).
           destruct (decide (cx - y <= px <= cx + y)) as [?|Hn]; [done|].
           pose proof (square_beyond (px - cx) y ltac:(lia) ltac:(lia)). nia. }
         right. right. split; [lia|done].
  + apply Z.leb_gt in Hge.
    destruct (IH x (y + 1) (err + y + (y + 1))) as (rest & -> & Hrest); [lia|lia| |lia|].
    { intros Hc'. split; [nia|]. split; nia. }
    simpl. eexists. split; [done|].
    intros px py. unfold painted in *. rewrite elem_of_app, H1, Hrest. simpl.
    split.
    * intros [(_ & Hpx & Hpy)|[Hrow Hd]].
      -- split; [lia|]. pose proof (square_within (px - cx) x ltac:(lia)).
         assert ((py - cy) * (py - cy) = y * y) by (destruct Hpy as [->| ->]; ring).
         lia.
      -- split; [lia|done].
    * intros [Hrow Hd].
      destruct (decide (py = cy + y \/ py = cy - y)) as [Hpy|Hny].
      { left. split; [done|]. split; [|done].
        assert ((py - cy) * (py - cy) = y * y) by (destruct Hpy as [->| ->]; ring).
        destruct (decide (cx - x <= px <= cx + x)) as [?|Hn]; [done|].
        pose proof (square_beyond (px - cx) x ltac:(lia) ltac:(lia)). nia. }
      right. split; [lia|done].
Qed.

(** Every call carries the colour that was asked for. *)
Lemma hline_colour y0 x1 col : forall fuel x l,
  hline fuel x y0 x1 col = Some l -> forall call, call ∈ l -> c_colour call = col.
Proof.
induction fuel as [|fuel IH]; intros x l; simpl; destruct (x <=? x1); try done.
- intros [= <-] call Hin. by apply elem_of_nil in Hin.
- destruct (hline fuel _ y0 x1 col) as [rest|] eqn:Hrest; simpl; [|done].
  intros [= <-] call Hin. apply elem_of_cons in Hin as [->|Hin]; [done|].
  by apply (IH _ _ Hrest).
- intros [= <-] call Hin. by apply elem_of_nil in Hin.
Qed.

Lemma drawTwoCenteredLines_colour cx cy dx dy col l :
  drawTwoCenteredLines cx cy dx dy col = Some l ->
  forall call, call ∈ l -> c_colour call = col.
Proof.
unfold drawTwoCenteredLines, drawHLine.
destruct (hline _ _ (Int64.add cy dy) _ col) as [l1|] eqn:H1; simpl; [|done].
destruct (negb _).
- destruct (hline _ _ (Int64.sub cy dy) _ col) as [l2|] eqn:H2; simpl; [|done].
  intros [= <-] call Hin. apply elem_of_app in Hin as [Hin|Hin].
  + by apply (hline_colour _ _ _ _ _ _ H1).
  + by apply (hline_colour _ _ _ _ _ _ H2).
- intros [= <-] call Hin. by apply (hline_colour _ _ _ _ _ _ H1).
Qed.

Lemma circleLoop_colour cx cy col : forall fuel err x y l,
  circleLoop fuel cx cy err x y col = Some l ->
  forall call, call ∈ l -> c_colour call = col.
Proof.
induction fuel as [|fuel IH]; intros err x y l; simpl; destruct (y <=? x); try done.
- intros [= <-] call Hin. by apply elem_of_nil in Hin.
- destruct (drawTwoCenteredLines cx cy x y col) as [l1|] eqn:H1; simpl; [|done].
  destruct (0 <=? _).
  + destruct (if negb (x =? y) then _ else _) as [l2|] eqn:H2; simpl; [|done].
    destruct (circleLoop fuel _ _ _ _ _ col) as [rest|] eqn:Hrest; simpl; [|done].
    intros [= <-] call Hin.
    apply elem_of_app in Hin as [Hin|Hin];
      [by apply (drawTwoCenteredLines_colour _ _ _ _ _ _ H1)|].
    apply elem_of_app in Hin as [Hin|Hin]; [|by apply (IH _ _ _ _ Hrest)].
    destruct (negb _); [by apply (drawTwoCenteredLines_colour _ _ _ _ _ _ H2)|].
    injection H2 as <-. by apply elem_of_nil in Hin.
  + destruct (circleLoop fuel _ _ _ _ _ col) as [rest|] eqn:Hrest; simpl; [|done].
    intros [= <-] call Hin.
    apply elem_of_app in Hin as [Hin|Hin];
      [by apply (drawTwoCenteredLines_colour _ _ _ _ _ _ H1)|].
    by apply (IH _ _ _ _ Hrest).
- intros [= <-] call Hin. by apply elem_of_nil in Hin.
Qed.

Lemma drawFilledCircle_spec size cx cy rad col :
  1 <= rad <= 2 ^ 30 -> - 2 ^ 62 <= cx <= 2 ^ 62 -> - 2 ^ 62 <= cy <= 2 ^ 62 ->
  exists calls, drawFilledCircle size cx cy rad col = Some calls /\
    if ((cx + rad <? 0) || (size <? cx - rad)) && ((cy + rad <? 0) || (size <? cy - rad))
    then calls = []
    else forall call, call ∈ calls <->
           c_colour call = col /\
           (c_x call - cx) * (c_x call - cx) + (c_y call - cy) * (c_y call - cy)
           < rad * rad + rad.
Proof.
intros Hrad Hcx Hcy. unfold drawFilledCircle.
rewrite !add_small, !sub_small by lia.
destruct (((cx + rad <? 0) || (size <? cx - rad)) && ((cy + rad <? 0) || (size <? cy - rad))).
{ by exists []. }
destruct (circleLoop_spec rad cx cy col Hrad Hcx Hcy (S (Z.to_nat rad)) rad 0 (0 - rad))
  as (calls & Hcalls & Hspec); [lia|lia| |lia|].
{ intros _. split; [ring|]. split; nia. }
exists calls. split; [done|].
intros [px py c]. simpl. split.
- intros Hin. pose proof (circleLoop_colour _ _ _ _ _ _ _ _ Hcalls _ Hin) as Hc.
  simpl in Hc. subst c. split; [done|]. by apply (Hspec px py).
- intros [-> Hd]. apply (Hspec px py). split; [|done].
  destruct (decide (- rad <= py - cy <= rad)) as [?|Hn]; [lia|].
  assert ((rad + 1) * (rad + 1) <= (py - cy) * (py - cy)) by nia.
  pose proof (Z.square_nonneg (px - cx)). unfold Z.square in *. lia.
Qed.

(** X19.  [drawFilledCircle] paints exactly the disc: for a radius of at
    least 1 and a centre and radius far from the limits of [int], the
    loop ends, every call of [setPixel] carries the colour asked for, and
    a pixel is painted if and only if the square of its distance from the
    centre is below [rad*rad + rad] (that is, the distance is below
    [rad + 1/2]).  Nothing at all is painted when the circle is off the
    canvas along both axes. *)
Theorem X19_filled_circle_is_the_disc size cx cy rad col :
  1 <= rad <= 2 ^ 30 -> - 2 ^ 62 <= cx <= 2 ^ 62 -> - 2 ^ 62 <= cy <= 2 ^ 62 ->
  exists calls, drawFilledCircle size cx cy rad col = Some calls /\
    if ((cx + rad <? 0) || (size <? cx - rad)) && ((cy + rad <? 0) || (size <? cy - rad))
    then calls = []
    else forall call, call ∈ calls <->
           c_colour call = col /\
           (c_x call - cx) * (c_x call - cx) + (c_y call - cy) * (c_y call - cy)
           < rad * rad + rad.
Proof. apply drawFilledCircle_spec. Qed.
End RasterFacts.

Lemma generated_roster :
  Particles (engine Samples.generated) = [0; 1; 2] /\
  initialParticles (engine Samples.generated) = [3; 4; 5] /\
  length (heap (engine Samples.generated)) = 6.
Proof. by vm_compute. Qed.

Lemma generated_steady : steady (engine Samples.generated).
Proof.
destruct generated_roster as (Hps & Hinit & Hlen).
split; [split|split].
- rewrite Hps. apply (bool_decide_unpack _). by vm_compute.
- intros a Ha. rewrite Hlen. rewrite Hps in Ha. roster_cases Ha; lia.
- intros a Ha. rewrite Hps in Ha. roster_cases Ha; by vm_compute.
- intros s Hs. rewrite Hlen, Hps. rewrite Hinit in Hs.
  roster_cases Hs; (split; [lia|]); apply (bool_decide_unpack _); by vm_compute.
Qed.

Lemma X1_history_is_fifo_witness :
  let P := deref (heap (engine Samples.generated)) 0 in
  positionHistory (moved 3 P) = path 3 P.
Proof.
intros P. rewrite (X1_history_is_fifo 3 P).
- by vm_compute.
- by vm_compute.
- unfold history_fits. vm_compute. discriminate.
Defined.

Lemma X3_reset_restores_snapshot_witness :
  exists app',
    ResetEnvironmentEvent Samples.generated = Some app' /\
    Particles (engine app') = seq 6 3.
Proof.
destruct generated_roster as (Hps & Hinit & Hlen).
destruct (X3_reset_restores_snapshot Samples.generated) as (app' & H1 & _ & _ & _ & _ & H2 & _).
- intros s Hs. rewrite Hlen. rewrite Hinit in Hs. roster_cases Hs; lia.
- exists app'. split; [done|]. by rewrite H2, Hlen, Hinit.
Defined.


Lemma X6_roster_stays_sound_witness :
  sound_roster (UpdateParticles runtime (engine Samples.generated)).1.
Proof.
destruct (X6_roster_stays_sound runtime (engine Samples.generated)) as [H1 _].
- exact runtime_sort_spec.
- apply generated_steady.
- exact H1.
Defined.

Lemma X7_tick_leaves_other_objects_witness :
  deref (heap (UpdateParticles runtime (engine Samples.generated)).1) 3
  = deref (heap (engine Samples.generated)) 3.
Proof.
destruct generated_roster as (Hps & Hinit & Hlen).
destruct (X7_tick_leaves_other_objects runtime (engine Samples.generated)) as (_ & _ & H1).
- exact runtime_sort_spec.
- exact runtime_range_spec.
- apply generated_steady.
- apply generated_steady.
- apply H1.
  + rewrite Hlen. lia.
  + rewrite Hps. apply (bool_decide_unpack _). by vm_compute.
Defined.

Lemma X8_reset_after_ticks_witness :
  exists app',
    ResetEnvironmentEvent (run runtime 2 Samples.generated) = Some app' /\
    length (Particles (engine app')) = 3.
Proof.
destruct generated_roster as (Hps & Hinit & Hlen).
destruct (X8_reset_after_ticks runtime 2 Samples.generated) as (app' & H1 & _ & _ & H2 & _).
- exact runtime_sort_spec.
- exact runtime_range_spec.
- apply generated_steady.
- exists app'. split; [done|]. by rewrite H2, Hinit.
Defined.

Lemma chain_roster :
  Particles Samples.chain = [0; 1; 2] /\ length (heap Samples.chain) = 3.
Proof. by vm_compute. Qed.

Lemma X9_particle_count_never_grows_witness :
  length (Particles (UpdateParticles runtime Samples.chain).1) ≤ 3.
Proof.
pose proof (X9_particle_count_never_grows runtime Samples.chain runtime_sort_spec) as Hx.
by rewrite (proj1 chain_roster) in Hx.
Defined.

Lemma X10_no_merging_keeps_particles_witness :
  Particles (UpdateParticles runtime (set_AllowMerge false Samples.chain)).1
  ≡ₚ Particles (set_AllowMerge false Samples.chain).
Proof.
destruct (X10_no_merging_keeps_particles runtime (set_AllowMerge false Samples.chain))
  as [H1 _].
- exact runtime_sort_spec.
- reflexivity.
- exact H1.
Defined.

Lemma X11_tick_keeps_bodies_witness :
  Mass (deref (heap (UpdateParticles runtime Samples.chain).1) 1)
  = Mass (deref (heap Samples.chain) 1).
Proof.
destruct (X11_tick_keeps_bodies runtime Samples.chain 1) as [H1 _].
- rewrite (proj2 chain_roster). lia.
- exact H1.
Defined.

Lemma X12_merge_results_agree_witness :
  exists m, (UpdateParticles runtime Samples.chain).2 = (true, false, Some 1, Some m) /\
            m ∈ Particles (UpdateParticles runtime Samples.chain).1.
Proof.
pose proof (X12_merge_results_agree runtime Samples.chain runtime_sort_spec) as Hx.
assert (E : (UpdateParticles runtime Samples.chain).2 = (true, false, Some 1, Some 4))
  by (by vm_compute).
rewrite E in Hx. cbv beta iota zeta in Hx. destruct Hx as [Hx _].
destruct (Hx eq_refl) as (p & m & _ & Hm & _ & Hin & _).
exists m. split; [|done]. rewrite E. by injection Hm as <-.
Defined.

Lemma X13_chain_counts_middle_twice_witness :
  let e' := (handleMergers runtime (afterSort runtime Samples.chain)).1 in
  Particles e' = [3; 4] /\
  Mass (deref (heap e') 3) = B64.of_int 1100 /\
  Mass (deref (heap e') 4) = B64.of_int 110.
Proof.
intros e'.
destruct (X13_chain_counts_middle_twice runtime (afterSort runtime Samples.chain) 0 1 2)
  as (H1 & H2 & H3).
- exact runtime_sort_spec.
- exact runtime_range_spec.
- by vm_compute.
- apply (bool_decide_unpack _). by vm_compute.
- vm_compute. lia.
- vm_compute. lia.
- vm_compute. lia.
- by vm_compute.
- by vm_compute.
- by vm_compute.
- by vm_compute.
- by vm_compute.
- by vm_compute.
- assert (Hn : length (heap (afterSort runtime Samples.chain)) = 3) by (by vm_compute).
  cbv zeta in H1, H2, H3. rewrite Hn in H1, H2, H3. unfold e'.
  split; [exact H1|]. split.
  + rewrite H2. by vm_compute.
  + rewrite H3. by vm_compute.
Defined.

Lemma chain_unmarked : valid_roster Samples.chain /\ roster_all unmarked Samples.chain.
Proof.
destruct chain_roster as [Hps Hlen].
split; intros a Ha; rewrite Hps in Ha.
- rewrite Hlen. roster_cases Ha; lia.
- roster_cases Ha; by vm_compute.
Qed.

Lemma X14_merge_source_has_partner_witness :
  exists p, (UpdateParticles runtime Samples.chain).2 = (true, false, Some p, Some 4) /\
            p ∈ Particles Samples.chain /\
            MergingWith (deref (heap (UpdateParticles runtime Samples.chain).1) p) ≠ ∅.
Proof.
assert (E : (UpdateParticles runtime Samples.chain).2 = (true, false, Some 1, Some 4))
  by (by vm_compute).
destruct (X14_merge_source_has_partner runtime Samples.chain runtime_sort_spec
            runtime_range_spec (proj1 chain_unmarked) (proj2 chain_unmarked)
            true false (Some 1) (Some 4) E eq_refl) as (p & Hp & HpW & _ & Hne & _).
exists p. split; [by rewrite E, Hp|]. by split.
Defined.

Lemma X16_charges_are_clamped_witness :
  CloseCharge (SetCloseCharge (B64.lit (-1) 2) zeroParticle) = B64.lit (-1) 2 /\
  FarCharge (SetFarCharge (B64.lit 1 4) zeroParticle) = B64.lit 1 4.
Proof.
destruct (X16_charges_are_clamped (B64.lit (-1) 2) (B64.lit 1 4) zeroParticle)
  as (_ & _ & _ & _ & H1 & H2).
split.
- apply H1; by vm_compute.
- apply H2; by vm_compute.
Defined.

Lemma X18_generated_mass_bounds_witness :
  B64.is_nan (Mass (generateOne (State Samples.seeded) (Samples.scatter 1))) = false /\
  B64.ltb (B64.mul (f_lit 175 100) (B64.of_int 250))
          (Mass (generateOne (State Samples.seeded) (Samples.scatter 1))) = false.
Proof.
destruct (X18_generated_mass_bounds (State Samples.seeded) (Samples.scatter 1))
  as (H1 & H2 & _).
- by vm_compute.
- split; [exact H1|exact H2].
Defined.

Lemma X19_filled_circle_is_the_disc_witness :
  exists calls,
    Raster.drawFilledCircle 800 100 100 3 (0, 255, 0, 255)%Z = Some calls /\
    Raster.mkCall 102 102 (0, 255, 0, 255)%Z ∈ calls /\
    Raster.mkCall 103 102 (0, 255, 0, 255)%Z ∉ calls.
Proof.
destruct (RasterFacts.X19_filled_circle_is_the_disc 800 100 100 3 (0, 255, 0, 255)%Z)
  as (calls & Hcalls & Hspec); [lia..|].
exists calls. split; [exact Hcalls|].
change (forall call, call ∈ calls <->
          Raster.c_colour call = (0, 255, 0, 255)%Z /\
          ((Raster.c_x call - 100) * (Raster.c_x call - 100)
           + (Raster.c_y call - 100) * (Raster.c_y call - 100) < 3 * 3 + 3)%Z) in Hspec.
split.
- apply Hspec. simpl. split; [done|lia].
- intros Hin. apply Hspec in Hin as [_ Hd]. simpl in Hd. lia.
Defined.
